(** * immudb embedded SQL engine: statement compiler, expression tree, lexer

    A shallow embedding of [embedded/sql] (statements and expressions, the
    lexer) and the properties of it that the specification states.

    Conventions of the embedding:
    - Go's [int64] is [Z] with the wrap-around written out ([wrap64]);
      [uint32] identifiers are [N]; [[]byte] is [list byte]; [string] is
      [string] (a sequence of bytes).
    - A function returning [(T, error)] returns [res T]; a nil-pointer
      dereference of the source is the error [ErrPanic].
    - Go maps that are looked up and updated are [gmap]s.  A Go map that
      the source only ranges over ([table.colsByID], [table.indexes]) is a
      list standing for the order in which it is ranged over, taken to be
      the same for every loop over it.  What is proved below holds for
      every such list, and speaks of the entries of an index by membership
      and by their position before or after the primary entry, not by
      their order among the entries of other indexes.
    - Pointers that the source mutates in place ([table.maxPK],
      [catalog.mutated], the [TxSummary] under construction, the
      [rangesByColID] map) are threaded as explicit state. *)

From Stdlib Require Import ZArith Lia List Ascii String.
From Stdlib Require Import Strings.Byte.
From stdpp Require Import gmap strings list fin_maps.

Import ListNotations.

(* ================================================================== *)
(** * Part I: definitions                                              *)
(* ================================================================== *)

(** ** Errors *)

Inductive error : Type :=
  | ErrIllegalArguments
  | ErrMissingParameter
  | ErrUnsupportedParameter
  | ErrInvalidNumberOfValues
  | ErrDuplicatedColumn
  | ErrInvalidTypes
  | ErrInferredMultipleTypes
  | ErrNotComparableValues
  | ErrInvalidValue
  | ErrInvalidCondition
  | ErrNoDatabaseSelected
  | ErrDatabaseDoesNotExist
  | ErrTableDoesNotExist
  | ErrColumnDoesNotExist
  | ErrInvalidColumn
  | ErrPKCanNotBeNull
  | ErrNotNullableColumnCannotBeNull
  | ErrNoValueForAutoIncrementalColumn
  | ErrMaxKeyLengthExceeded
  | ErrLimitedGroupBy
  | ErrLimitedOrderBy
  | ErrHavingClauseRequiresGroupClause
  | ErrNoAvailableIndex
  | ErrDivisionByZero
  | ErrNoMoreRows
  | ErrNoSupported
  | ErrUnexpected
  | ErrKeyNotFound                       (* store.ErrKeyNotFound *)
  | ErrKeyAlreadyExists                  (* store.ErrKeyAlreadyExists *)
  | ErrEOF                               (* io.EOF *)
  | ErrIO (code : N)                     (* any other error of the store or of a reader *)
  | ErrNew (msg : string)                (* errors.New(msg) *)
  | ErrWrap (msg : string) (e : error)   (* fmt.Errorf("...: %w", e) *)
  | ErrPanic.                            (* run-time panic *)

Inductive res (A : Type) : Type :=
  | Ok (a : A)
  | Fail (e : error).

Arguments Ok {A} a.
Arguments Fail {A} e.

Definition bind {A B : Type} (r : res A) (k : A -> res B) : res B :=
  match r with
  | Ok a => k a
  | Fail e => Fail e
  end.

Notation "'do' x <- r ; k" := (bind r (fun x => k))
  (at level 10, x pattern, r at level 100, k at level 200).

(** Go compares an error with a sentinel by identity ([err == ErrX]). *)
Definition isErrMissingParameter (e : error) : bool :=
  match e with ErrMissingParameter => true | _ => false end.

Definition isErrNoMoreRows (e : error) : bool :=
  match e with ErrNoMoreRows => true | _ => false end.

Definition isErrEOF (e : error) : bool :=
  match e with ErrEOF => true | _ => false end.

(** ** Machine integers *)

Definition wrap64 (z : Z) : Z := ((z + 2 ^ 63) mod 2 ^ 64 - 2 ^ 63)%Z.


(** ** Constants of the package *)

Definition PIndexPrefix : string := "P.".
Definition SIndexPrefix : string := "S.".
Definition UIndexPrefix : string := "U.".

Definition PKIndexID : N := 0%N.

Inductive SQLValueType : Type :=
  | IntegerType
  | BooleanType
  | VarcharType
  | BLOBType
  | TimestampType
  | AnyType.

Definition SQLValueType_eqb (a b : SQLValueType) : bool :=
  match a, b with
  | IntegerType, IntegerType
  | BooleanType, BooleanType
  | VarcharType, VarcharType
  | BLOBType, BLOBType
  | TimestampType, TimestampType
  | AnyType, AnyType => true
  | _, _ => false
  end.

Definition AggregateFn : Type := string.

Definition COUNT : AggregateFn := "COUNT".
Definition SUM : AggregateFn := "SUM".
Definition MAX : AggregateFn := "MAX".
Definition MIN : AggregateFn := "MIN".
Definition AVG : AggregateFn := "AVG".

Inductive CmpOperator : Type := EQ | NE | LT | LE | GT | GE.

Inductive LogicOperator : Type := AND | OR.

Inductive NumOperator : Type := ADDOP | SUBSOP | DIVOP | MULTOP.

(** ** Store constraints *)

(** [deletedOrMustNotExist key currValue err]: [err] is the outcome of the
    store's lookup of [key] ([None] is Go's [nil]); the result is the
    constraint's verdict ([None]: accepted). *)
Definition deletedOrMustNotExist (key currValue : list byte) (err : option error)
  : option error :=
  match err with
  | Some ErrKeyNotFound => None
  | Some e => Some e
  | None =>
      match currValue with
      | b :: _ => if Byte.eqb b x01 then None else Some ErrKeyAlreadyExists
      | [] => Some ErrKeyAlreadyExists
      end
  end.

(** The constraints a staged entry can carry ([store.KVConstraint] is a
    function value; only these two are ever attached by the compiler). *)
Inductive KVConstraint : Type :=
  | CDeletedOrMustNotExist
  | CMustExist.

Record KV : Type := mkKV {
  Key : list byte;
  Value : list byte;
  Constraint : option KVConstraint
}.

(** ** Typed values *)

(** The dynamic values behind Go's [interface{}]: the results of
    [TypedValue.Value()] and the values of statement parameters. *)
Inductive GoValue : Type :=
  | GNil
  | GBool (b : bool)
  | GString (s : string)
  | GInt (z : Z)
  | GUint (z : Z)
  | GUint64 (z : Z)
  | GInt64 (z : Z)
  | GBytes (l : list byte)
  | GOther.

(** The typed values of this file: [*NullValue], [*Number], [*Varchar],
    [*Bool] and [*Blob]. *)
Inductive TypedValue : Type :=
  | NullValue (t : SQLValueType)
  | Number (val : Z)
  | Varchar (val : string)
  | Bool (val : bool)
  | Blob (val : list byte).

Definition Type_ (v : TypedValue) : SQLValueType :=
  match v with
  | NullValue t => t
  | Number _ => IntegerType
  | Varchar _ => VarcharType
  | Bool _ => BooleanType
  | Blob _ => BLOBType
  end.

Definition Value_ (v : TypedValue) : GoValue :=
  match v with
  | NullValue _ => GNil
  | Number n => GInt64 n
  | Varchar s => GString s
  | Bool b => GBool b
  | Blob l => GBytes l
  end.

Definition isNullValue (v : TypedValue) : bool :=
  match v with
  | NullValue _ => true
  | _ => false
  end.

(** [bytes.Compare]: lexicographic order on byte strings, as -1, 0, 1. *)
Fixpoint bytesCompare (a b : list byte) : Z :=
  match a, b with
  | [], [] => 0
  | [], _ :: _ => -1
  | _ :: _, [] => 1
  | x :: a', y :: b' =>
      if (Byte.to_N x <? Byte.to_N y)%N then -1
      else if (Byte.to_N y <? Byte.to_N x)%N then 1
      else bytesCompare a' b'
  end.

Definition Compare (v val : TypedValue) : res Z :=
  match v with
  | NullValue t =>
      if negb (SQLValueType_eqb t AnyType)
         && negb (SQLValueType_eqb (Type_ val) AnyType)
         && negb (SQLValueType_eqb t (Type_ val))
      then Fail ErrNotComparableValues
      else
        match Value_ val with
        | GNil => Ok 0%Z
        | _ => Ok (-1)%Z
        end
  | Number n =>
      if isNullValue val then Ok 1%Z
      else if negb (SQLValueType_eqb (Type_ val) IntegerType) then Fail ErrNotComparableValues
      else
        match Value_ val with
        | GInt64 rval =>
            if (n =? rval)%Z then Ok 0%Z
            else if (n >? rval)%Z then Ok 1%Z
            else Ok (-1)%Z
        | _ => Fail ErrPanic
        end
  | Varchar s =>
      if isNullValue val then Ok 1%Z
      else if negb (SQLValueType_eqb (Type_ val) VarcharType) then Fail ErrNotComparableValues
      else
        match Value_ val with
        | GString rval => Ok (bytesCompare (list_byte_of_string s) (list_byte_of_string rval))
        | _ => Fail ErrPanic
        end
  | Bool b =>
      if isNullValue val then Ok 1%Z
      else if negb (SQLValueType_eqb (Type_ val) BooleanType) then Fail ErrNotComparableValues
      else
        match Value_ val with
        | GBool rval =>
            if Bool.eqb b rval then Ok 0%Z
            else if b then Ok 1%Z
            else Ok (-1)%Z
        | _ => Fail ErrPanic
        end
  | Blob l =>
      if isNullValue val then Ok 1%Z
      else if negb (SQLValueType_eqb (Type_ val) BLOBType) then Fail ErrNotComparableValues
      else
        match Value_ val with
        | GBytes rval => Ok (bytesCompare l rval)
        | _ => Fail ErrPanic
        end
  end.

Definition CmpOperator_eqb (a b : CmpOperator) : bool :=
  match a, b with
  | EQ, EQ | NE, NE | LT, LT | LE, LE | GT, GT | GE, GE => true
  | _, _ => false
  end.

Definition cmpSatisfiesOp (cmp : Z) (op : CmpOperator) : bool :=
  if (cmp =? 0)%Z then
    CmpOperator_eqb op EQ || CmpOperator_eqb op LE || CmpOperator_eqb op GE
  else if (cmp =? -1)%Z then
    CmpOperator_eqb op NE || CmpOperator_eqb op LT || CmpOperator_eqb op LE
  else if (cmp =? 1)%Z then
    CmpOperator_eqb op NE || CmpOperator_eqb op GT || CmpOperator_eqb op GE
  else false.

(** ** Catalog *)

Record Column : Type := mkColumn {
  col_id : N;
  colName : string;
  colType : SQLValueType;
  maxLen : Z;
  autoIncrement : bool;
  notNull : bool
}.

(** Modelled from the spec: [Column.MaxLen] is declared in another file of
    the package; the spec gives a column a "max length (bytes)", which is
    what the compiler hands to the encoders. *)
Definition MaxLen (c : Column) : Z := maxLen c.

Record Index : Type := mkIndex {
  idx_id : N;
  unique : bool;
  idx_cols : list Column
}.

(** Modelled from the spec: [Index.IsPrimary] and [Index.IsUnique] are
    declared in another file of the package; "index id 0 is reserved for
    the primary index", and an index has a "unique flag". *)
Definition IsPrimary (i : Index) : bool := (idx_id i =? PKIndexID)%N.

Definition IsUnique (i : Index) : bool := unique i.

(** [Table]: the fields the compiler reads.  The pointer [table.db] is
    kept as the two fields of the database the compiler uses.
    [GetColumnByName] is a method declared in another file of the
    package: it is a field here, as are [Database.GetTableByName] and
    [Catalog.GetDatabaseByName] below. *)
Record Table : Type := mkTable {
  tbl_db_id : N;
  tbl_db_name : string;
  tbl_id : N;
  tbl_name : string;
  cols : list Column;
  colsByID : list (N * Column);
  indexes : list Index;
  indexesByColID : gmap N (list Index);
  primaryIndex : Index;
  autoIncrementPK : bool;
  maxPK : Z;
  GetColumnByName : string -> res Column
}.

Record Database : Type := mkDatabase {
  db_id : N;
  db_name : string;
  GetTableByName : string -> res Table
}.

Record Catalog : Type := mkCatalog {
  GetDatabaseByName : string -> res Database;
  mutated : bool
}.

Record Row : Type := mkRow {
  Values : gmap string TypedValue
}.

(** ** Expression tree *)

Record ColSelector : Type := mkColSelector {
  cs_db : string;
  cs_table : string;
  cs_col : string;
  cs_as : string
}.

Record AggColSelector : Type := mkAggColSelector {
  as_aggFn : AggregateFn;
  as_db : string;
  as_table : string;
  as_col : string;
  as_as : string
}.

Inductive Selector : Type :=
  | ColSel (sel : ColSelector)
  | AggSel (sel : AggColSelector).

(** [Val v] is a typed value used as an expression ([*NullValue],
    [*Number], [*Varchar], [*Bool], [*Blob] implement both interfaces).
    [ExistsBoolExp] carries a query that no operation ever inspects. *)
Inductive ValueExp : Type :=
  | Val (v : TypedValue)
  | SysFn (fn : string)
  | Param (id : string) (pos : Z)
  | Sel (sel : Selector)
  | NumExp (op : NumOperator) (left right : ValueExp)
  | NotBoolExp (exp : ValueExp)
  | LikeBoolExp (sel : Selector) (pattern : string)
  | CmpBoolExp (op : CmpOperator) (left right : ValueExp)
  | BinBoolExp (op : LogicOperator) (left right : ValueExp)
  | ExistsBoolExp.

Definition EncodeSelector (aggFn db table col : string) : string :=
  aggFn +:+ "(" +:+ db +:+ "." +:+ table +:+ "." +:+ col +:+ ")".

Definition ColSelector_resolve (sel : ColSelector) (implicitDB implicitTable : string)
  : string * string * string * string :=
  let db := if String.eqb (cs_db sel) "" then implicitDB else cs_db sel in
  let table := if String.eqb (cs_table sel) "" then implicitTable else cs_table sel in
  (""%string, db, table, cs_col sel).

Definition AggColSelector_resolve (sel : AggColSelector) (implicitDB implicitTable : string)
  : string * string * string * string :=
  let db := if String.eqb (as_db sel) "" then implicitDB else as_db sel in
  let table := if String.eqb (as_table sel) "" then implicitTable else as_table sel in
  (as_aggFn sel, db, table, as_col sel).

Definition resolve (sel : Selector) (implicitDB implicitTable : string)
  : string * string * string * string :=
  match sel with
  | ColSel s => ColSelector_resolve s implicitDB implicitTable
  | AggSel s => AggColSelector_resolve s implicitDB implicitTable
  end.

(** [int64(v)] for the integer kinds a parameter can have. *)
Definition Param_substitute (params : gmap string GoValue) (id : string) : res ValueExp :=
  match params !! id with
  | None => Fail ErrMissingParameter
  | Some GNil => Ok (Val (NullValue AnyType))
  | Some (GBool v) => Ok (Val (Bool v))
  | Some (GString v) => Ok (Val (Varchar v))
  | Some (GInt v) => Ok (Val (Number (wrap64 v)))
  | Some (GUint v) => Ok (Val (Number (wrap64 v)))
  | Some (GUint64 v) => Ok (Val (Number (wrap64 v)))
  | Some (GInt64 v) => Ok (Val (Number v))
  | Some (GBytes v) => Ok (Val (Blob v))
  | Some GOther => Fail ErrUnsupportedParameter
  end.

Fixpoint substitute (params : gmap string GoValue) (e : ValueExp) : res ValueExp :=
  match e with
  | Param id _ => Param_substitute params id
  | NumExp op l r =>
      do rlexp <- substitute params l;
      do rrexp <- substitute params r;
      Ok (NumExp op rlexp rrexp)
  | NotBoolExp x =>
      do rexp <- substitute params x;
      Ok (NotBoolExp rexp)
  | CmpBoolExp op l r =>
      do rlexp <- substitute params l;
      do rrexp <- substitute params r;
      Ok (CmpBoolExp op rlexp rrexp)
  | BinBoolExp op l r =>
      do rlexp <- substitute params l;
      do rrexp <- substitute params r;
      Ok (BinBoolExp op rlexp rrexp)
  | _ => Ok e
  end.

Fixpoint isConstant (e : ValueExp) : bool :=
  match e with
  | Val _ => true
  | SysFn _ => false
  | Param _ _ => true
  | Sel _ => false
  | NumExp _ l r => isConstant l && isConstant r
  | NotBoolExp x => isConstant x
  | LikeBoolExp _ _ => false
  | CmpBoolExp _ l r => isConstant l && isConstant r
  | BinBoolExp _ l r => isConstant l && isConstant r
  | ExistsBoolExp => false
  end.

(** What these functions take from elsewhere: the value and key encoders
    with their bound, declared in another file of the package, and the two
    library calls whose result is not a function of the program's data
    ([time.Now], [regexp.MatchString]). *)
Class Externals : Type := {
  EncodeID : N -> list byte;
  EncodeAsKey : GoValue -> SQLValueType -> Z -> res (list byte);
  EncodeValue : GoValue -> SQLValueType -> Z -> res (list byte);
  maxKeyLen : Z;
  timeNowUnixNano : Z;
  regexpMatchString : string -> string -> res bool
}.

(** [strings.ToUpper] on the ASCII letters. *)
Definition upperByte (c : ascii) : ascii :=
  let n := nat_of_ascii c in
  if (97 <=? n)%nat && (n <=? 122)%nat then ascii_of_nat (n - 32) else c.

Fixpoint ToUpper (s : string) : string :=
  match s with
  | EmptyString => EmptyString
  | String c s' => String (upperByte c) (ToUpper s')
  end.

Section Reduce.

Context `{Externals}.

Definition Selector_reduce (sel : Selector) (row : option Row)
  (implicitDB implicitTable : string) : res TypedValue :=
  match sel with
  | ColSel s =>
      match row with
      | None => Fail ErrInvalidValue
      | Some row =>
          let '(aggFn, db, table, col) := ColSelector_resolve s implicitDB implicitTable in
          match Values row !! EncodeSelector aggFn db table col with
          | None => Fail ErrColumnDoesNotExist
          | Some v => Ok v
          end
      end
  | AggSel s =>
      match row with
      | None => Fail ErrPanic
      | Some row =>
          let '(aggFn, db, table, col) := AggColSelector_resolve s implicitDB implicitTable in
          match Values row !! EncodeSelector aggFn db table col with
          | None => Fail ErrColumnDoesNotExist
          | Some v => Ok v
          end
      end
  end.

Definition NumExp_apply (op : NumOperator) (vl vr : TypedValue) : res TypedValue :=
  match Value_ vl with
  | GInt64 nl =>
      match Value_ vr with
      | GInt64 nr =>
          match op with
          | ADDOP => Ok (Number (wrap64 (nl + nr)))
          | SUBSOP => Ok (Number (wrap64 (nl - nr)))
          | DIVOP =>
              if (nr =? 0)%Z then Fail ErrDivisionByZero
              else Ok (Number (wrap64 (Z.quot nl nr)))
          | MULTOP => Ok (Number (wrap64 (nl * nr)))
          end
      | _ => Fail ErrInvalidValue
      end
  | _ => Fail ErrInvalidValue
  end.

Definition LikeBoolExp_reduce (sel : Selector) (pattern : string) (row : option Row)
  (implicitDB implicitTable : string) : res TypedValue :=
  match row with
  | None => Fail ErrPanic
  | Some row =>
      let '(aggFn, db, table, col) := resolve sel implicitDB implicitTable in
      match Values row !! EncodeSelector aggFn db table col with
      | None => Fail ErrColumnDoesNotExist
      | Some v =>
          if negb (SQLValueType_eqb (Type_ v) VarcharType) then Fail ErrInvalidColumn
          else
            match Value_ v with
            | GString s =>
                do matched <- regexpMatchString pattern s;
                Ok (Bool matched)
            | _ => Fail ErrPanic
            end
      end
  end.

Fixpoint reduce (catalog : option Catalog) (row : option Row)
  (implicitDB implicitTable : string) (e : ValueExp) : res TypedValue :=
  match e with
  | Val v => Ok v
  | SysFn fn =>
      if String.eqb (ToUpper fn) "NOW" then Ok (Number timeNowUnixNano)
      else Fail (ErrNew "not yet supported")
  | Param _ _ => Fail ErrUnexpected
  | Sel sel => Selector_reduce sel row implicitDB implicitTable
  | NumExp op l r =>
      do vl <- reduce catalog row implicitDB implicitTable l;
      do vr <- reduce catalog row implicitDB implicitTable r;
      NumExp_apply op vl vr
  | NotBoolExp x =>
      do v <- reduce catalog row implicitDB implicitTable x;
      match Value_ v with
      | GBool r => Ok (Bool (negb r))
      | _ => Fail ErrInvalidCondition
      end
  | LikeBoolExp sel pattern => LikeBoolExp_reduce sel pattern row implicitDB implicitTable
  | CmpBoolExp op l r =>
      do vl <- reduce catalog row implicitDB implicitTable l;
      do vr <- reduce catalog row implicitDB implicitTable r;
      do c <- Compare vl vr;
      Ok (Bool (cmpSatisfiesOp c op))
  | BinBoolExp op l r =>
      do vl <- reduce catalog row implicitDB implicitTable l;
      do vr <- reduce catalog row implicitDB implicitTable r;
      match vl, vr with
      | Bool bl, Bool br =>
          match op with
          | AND => Ok (Bool (bl && br))
          | OR => Ok (Bool (bl || br))
          end
      | _, _ => Fail ErrInvalidValue
      end
  | ExistsBoolExp => Fail (ErrNew "not yet supported")
  end.

End Reduce.

(** ** Value ranges *)

Record typedValueSemiRange : Type := mkSemiRange {
  sr_val : TypedValue;
  inclusive : bool
}.

Record typedValueRange : Type := mkRange {
  lRange : option typedValueSemiRange;
  hRange : option typedValueSemiRange
}.

Definition maxSemiRange (or1 or2 : typedValueSemiRange) : res typedValueSemiRange :=
  do r <- Compare (sr_val or1) (sr_val or2);
  let maxVal := if (r <? 0)%Z then sr_val or2 else sr_val or1 in
  Ok (mkSemiRange maxVal (inclusive or1 && inclusive or2)).

Definition minSemiRange (or1 or2 : typedValueSemiRange) : res typedValueSemiRange :=
  do r <- Compare (sr_val or1) (sr_val or2);
  let minVal := if (r >? 0)%Z then sr_val or2 else sr_val or1 in
  Ok (mkSemiRange minVal (inclusive or1 || inclusive or2)).

(** [r.refineWith(refiningRange)]: the range [r] after the call. *)
Definition refineWith (r refiningRange : typedValueRange) : res typedValueRange :=
  do l <- match lRange r, lRange refiningRange with
          | None, l2 => Ok l2
          | Some l1, Some l2 => do m <- maxSemiRange l1 l2; Ok (Some m)
          | Some l1, None => Ok (Some l1)
          end;
  do h <- match hRange r, hRange refiningRange with
          | None, h2 => Ok h2
          | Some h1, Some h2 => do m <- minSemiRange h1 h2; Ok (Some m)
          | Some h1, None => Ok (Some h1)
          end;
  Ok (mkRange l h).

(** [r.extendWith(extendingRange)]: the range [r] after the call. *)
Definition extendWith (r extendingRange : typedValueRange) : res typedValueRange :=
  do l <- match lRange r, lRange extendingRange with
          | Some l1, Some l2 => do m <- minSemiRange l1 l2; Ok (Some m)
          | _, _ => Ok None
          end;
  do h <- match hRange r, hRange extendingRange with
          | Some h1, Some h2 => do m <- maxSemiRange h1 h2; Ok (Some m)
          | _, _ => Ok None
          end;
  Ok (mkRange l h).

(** [updateRangeFor]: the map [rangesByColID] after the call. *)
Definition updateRangeFor (colID : N) (val : TypedValue) (cmp : CmpOperator)
  (rangesByColID : gmap N typedValueRange) : res (gmap N typedValueRange) :=
  let update (newRange : typedValueRange) :=
    match rangesByColID !! colID with
    | None => Ok (<[colID := newRange]> rangesByColID)
    | Some currRange =>
        do refined <- refineWith currRange newRange;
        Ok (<[colID := refined]> rangesByColID)
    end in
  match cmp with
  | EQ => update (mkRange (Some (mkSemiRange val true)) (Some (mkSemiRange val true)))
  | LT => update (mkRange None (Some (mkSemiRange val false)))
  | LE => update (mkRange None (Some (mkSemiRange val true)))
  | GT => update (mkRange (Some (mkSemiRange val false)) None)
  | GE => update (mkRange (Some (mkSemiRange val true)) None)
  | NE => Ok rangesByColID
  end.

Section SelectorRanges.

Context `{Externals}.

(** The closure [matchingFunc] of [CmpBoolExp.selectorRanges]: it reads
    the operands of the expression it closes over, [bexp_left] and
    [bexp_right], and of its own arguments only returns [right]. *)
Definition matchingFunc (bexp_left bexp_right : ValueExp) (left right : ValueExp)
  : option (ColSelector * ValueExp) :=
  match bexp_left with
  | Sel (ColSel s) => if isConstant bexp_right then Some (s, right) else None
  | _ => None
  end.

Definition CmpBoolExp_selectorRanges (op : CmpOperator) (bexp_left bexp_right : ValueExp)
  (table : Table) (asTable : string) (params : gmap string GoValue)
  (rangesByColID : gmap N typedValueRange) : res (gmap N typedValueRange) :=
  let matched :=
    match matchingFunc bexp_left bexp_right bexp_left bexp_right with
    | Some m => Some m
    | None => matchingFunc bexp_left bexp_right bexp_right bexp_left
    end in
  match matched with
  | None => Ok rangesByColID
  | Some (sel, c) =>
      let '(aggFn, db, t, col) := ColSelector_resolve sel (tbl_db_name table) (tbl_name table) in
      if negb (String.eqb aggFn "") || negb (String.eqb db (tbl_db_name table))
         || negb (String.eqb t asTable)
      then Ok rangesByColID
      else
        do column <- GetColumnByName table col;
        match substitute params c with
        | Fail e =>
            if isErrMissingParameter e then Ok rangesByColID else Fail e
        | Ok val =>
            do rval <- reduce None None (tbl_db_name table) (tbl_name table) val;
            updateRangeFor (col_id column) rval op rangesByColID
        end
  end.

(** The loop closing the [OR] case of [BinBoolExp.selectorRanges]. *)
Definition extendRanges (lRanges rRanges rangesByColID : gmap N typedValueRange)
  : res (gmap N typedValueRange) :=
  map_fold
    (fun colID lr (acc : res (gmap N typedValueRange)) =>
       do ranges <- acc;
       match rRanges !! colID with
       | None => Ok ranges
       | Some rr =>
           do ext <- extendWith lr rr;
           Ok (<[colID := ext]> ranges)
       end)
    (Ok rangesByColID) lRanges.

(** [selectorRanges]: the map [rangesByColID] after the call. *)
Fixpoint selectorRanges (e : ValueExp) (table : Table) (asTable : string)
  (params : gmap string GoValue) (rangesByColID : gmap N typedValueRange)
  : res (gmap N typedValueRange) :=
  match e with
  | CmpBoolExp op l r =>
      CmpBoolExp_selectorRanges op l r table asTable params rangesByColID
  | BinBoolExp AND l r =>
      do ranges <- selectorRanges l table asTable params rangesByColID;
      selectorRanges r table asTable params ranges
  | BinBoolExp OR l r =>
      do lRanges <- selectorRanges l table asTable params ∅;
      do rRanges <- selectorRanges r table asTable params ∅;
      extendRanges lRanges rRanges rangesByColID
  | _ => Ok rangesByColID
  end.

End SelectorRanges.

(** ** Statements: the engine and the transaction summary *)

Record tableRef : Type := mkTableRef {
  tr_db : string;
  tr_table : string;
  tr_asBefore : Z;
  tr_as : string
}.

(** [Engine]: the catalog, and the two methods that reach the engine's
    configuration or the key-value store through code declared in another
    file of the package: [mapKey] (key prefixing) and the result of
    [fetchPKRow], the row the store's snapshot currently holds for the
    given primary-key values ([Fail ErrNoMoreRows] when there is none). *)
Record Engine : Type := mkEngine {
  catalog : Catalog;
  mapKey : string -> list (list byte) -> list byte;
  fetchPKRow : Table -> gmap N TypedValue -> res Row
}.

Record TxSummary : Type := mkTxSummary {
  sm_db : option Database;
  ces : list KV;
  des : list KV;
  updatedRows : Z;
  lastInsertedPKs : gmap string Z
}.

Definition newTxSummary (db : option Database) : TxSummary :=
  mkTxSummary db [] [] 0 ∅.

Definition referencedTable (stmt : tableRef) (e : Engine) (implicitDB : option Database)
  : res Table :=
  do db <- (if negb (String.eqb (tr_db stmt) "")
            then do rdb <- GetDatabaseByName (catalog e) (tr_db stmt); Ok (Some rdb)
            else Ok None);
  do db <- match db with
           | Some d => Ok d
           | None =>
               match implicitDB with
               | None => Fail ErrNoDatabaseSelected
               | Some d => Ok d
               end
           end;
  GetTableByName db (tr_table stmt).

(** [binary.BigEndian.PutUint32] into a fresh 4-byte slice. *)
Definition byteOfN (n : N) : byte :=
  match Byte.of_N (n mod 256) with
  | Some b => b
  | None => x00
  end.

Definition putUint32 (n : N) : list byte :=
  [byteOfN (n / 16777216); byteOfN (n / 65536); byteOfN (n / 256); byteOfN n].

Definition EncLenLen : nat := 4.
Definition EncIDLen : nat := 4.

Record RowSpec : Type := mkRowSpec {
  rs_Values : list ValueExp
}.

Record UpsertIntoStmt : Type := mkUpsertIntoStmt {
  isInsert : bool;
  up_tableRef : tableRef;
  up_cols : list string;
  rows : list RowSpec
}.

(** [UpsertIntoStmt.validate]: the loop from position [i] on. *)
Fixpoint validate_from (table : Table) (cs : list string) (i : nat)
  (selPosByColID : gmap N nat) : res (gmap N nat) :=
  match cs with
  | [] => Ok selPosByColID
  | c :: cs' =>
      do col <- GetColumnByName table c;
      match selPosByColID !! col_id col with
      | Some _ => Fail ErrDuplicatedColumn
      | None => validate_from table cs' (S i) (<[col_id col := i]> selPosByColID)
      end
  end.

Definition validate (stmt : UpsertIntoStmt) (table : Table) : res (gmap N nat) :=
  validate_from table (up_cols stmt) 0 ∅.

(** The state the compiler mutates in place: the table ([maxPK]) and the
    catalog's [mutated] flag. *)
Record CompState : Type := mkCompState {
  st_table : Table;
  st_mutated : bool
}.

Definition Table_with_maxPK (t : Table) (pk : Z) : Table :=
  mkTable (tbl_db_id t) (tbl_db_name t) (tbl_id t) (tbl_name t) (cols t) (colsByID t)
    (indexes t) (indexesByColID t) (primaryIndex t) (autoIncrementPK t) pk
    (GetColumnByName t).

Definition columnErr (table : Table) (col : Column) (e : error) : error :=
  ErrWrap ("error setting value for column " +:+ tbl_db_name table +:+ "."
           +:+ tbl_name table +:+ "." +:+ colName col) e.

Section Upsert.

Context `{Externals}.

(** Body of the loop over [table.colsByID] that fills [valuesByColID]. *)
Definition rowValue (stmt : UpsertIntoStmt) (e : Engine) (implicitDB : Database)
  (params : gmap string GoValue) (table : Table) (selPosByColID : gmap N nat)
  (row : RowSpec) (valuesByColID : gmap N TypedValue) (entry : N * Column)
  : res (gmap N TypedValue) :=
  let '(colID, col) := entry in
  match selPosByColID !! colID with
  | None =>
      if notNull col then Fail ErrNotNullableColumnCannotBeNull else Ok valuesByColID
  | Some colPos =>
      if isInsert stmt && autoIncrement col then Fail ErrNoValueForAutoIncrementalColumn
      else
        match rs_Values row !! colPos with
        | None => Fail ErrPanic
        | Some cVal =>
            do val <- substitute params cVal;
            do rval <- reduce (Some (catalog e)) None (db_name implicitDB) (tbl_name table) val;
            if isNullValue rval then
              (if notNull col then Fail ErrNotNullableColumnCannotBeNull else Ok valuesByColID)
            else Ok (<[colID := rval]> valuesByColID)
        end
  end.

Fixpoint rowValues (stmt : UpsertIntoStmt) (e : Engine) (implicitDB : Database)
  (params : gmap string GoValue) (table : Table) (selPosByColID : gmap N nat)
  (row : RowSpec) (entries : list (N * Column)) (valuesByColID : gmap N TypedValue)
  : res (gmap N TypedValue) :=
  match entries with
  | [] => Ok valuesByColID
  | entry :: entries' =>
      do values <- rowValue stmt e implicitDB params table selPosByColID row valuesByColID entry;
      rowValues stmt e implicitDB params table selPosByColID row entries' values
  end.

(** The loop encoding the primary key: [valbuf] after the loop. *)
Fixpoint encodePK (table : Table) (valuesByColID : gmap N TypedValue)
  (pkCols : list Column) (valbuf : list byte) : res (list byte) :=
  match pkCols with
  | [] => Ok valbuf
  | col :: pkCols' =>
      match valuesByColID !! col_id col with
      | None => Fail ErrPKCanNotBeNull
      | Some rval =>
          match EncodeAsKey (Value_ rval) (colType col) (MaxLen col) with
          | Fail err => Fail (columnErr table col err)
          | Ok encVal =>
              if (maxKeyLen <? Z.of_nat (length encVal))%Z then Fail ErrMaxKeyLengthExceeded
              else encodePK table valuesByColID pkCols' (valbuf ++ encVal)
          end
      end
  end.

(** The loop encoding the row payload: [valbuf] after the loop. *)
Fixpoint encodeRow (table : Table) (valuesByColID : gmap N TypedValue)
  (cs : list Column) (valbuf : list byte) : res (list byte) :=
  match cs with
  | [] => Ok valbuf
  | col :: cs' =>
      match valuesByColID !! col_id col with
      | None => encodeRow table valuesByColID cs' valbuf
      | Some rval =>
          match EncodeValue (Value_ rval) (colType col) (MaxLen col) with
          | Fail err => Fail (columnErr table col err)
          | Ok encVal =>
              encodeRow table valuesByColID cs' (valbuf ++ putUint32 (col_id col) ++ encVal)
          end
      end
  end.

(** The column values an index entry is keyed by: absent values are
    [NULL] of the column's type. *)
Definition indexValue (valuesByColID : gmap N TypedValue) (col : Column) : TypedValue :=
  match valuesByColID !! col_id col with
  | Some rval => rval
  | None => NullValue (colType col)
  end.

(** The prefix, the key fragments before the column values, the trailing
    fragment and the value of an index entry whose deletion flag is
    [flag]. *)
Definition indexPrefix (index : Index) : string :=
  if IsUnique index then UIndexPrefix else SIndexPrefix.

Definition indexKeyHead (table : Table) (index : Index) : list (list byte) :=
  [EncodeID (tbl_db_id table); EncodeID (tbl_id table); EncodeID (idx_id index)].

Definition indexKeyTail (index : Index) (pkEncVals : list byte) : list (list byte) :=
  if IsUnique index then [] else [pkEncVals].

Definition indexEntryValue (index : Index) (flag : byte) (pkEncVals : list byte) : list byte :=
  if IsUnique index then flag :: pkEncVals else [flag].

(** Inner loop of [deleteIndexEntriesFor]: [sameIndexKey] and the encoded
    current values.  The error of [EncodeAsKey] is dropped there; the
    fragment is then the empty slice. *)
Fixpoint currentIndexKey (curr : gmap N (option TypedValue)) (new : gmap N TypedValue)
  (idxCols : list Column) (sameIndexKey : bool) (encs : list (list byte))
  : res (bool * list (list byte)) :=
  match idxCols with
  | [] => Ok (sameIndexKey, encs)
  | col :: idxCols' =>
      do currVal <- match curr !! col_id col with
                    | None => Ok (NullValue (colType col))
                    | Some None => Fail ErrPanic
                    | Some (Some v) => Ok v
                    end;
      let newVal := indexValue new col in
      do r <- Compare currVal newVal;
      let encVal := match EncodeAsKey (Value_ currVal) (colType col) (MaxLen col) with
                    | Ok b => b
                    | Fail _ => []
                    end in
      currentIndexKey curr new idxCols' (sameIndexKey && (r =? 0)%Z) (encs ++ [encVal])
  end.

(** [deleteIndexEntriesFor]: the set of reusable index entries and the
    staged data entries after the call. *)
Fixpoint deleteIndexEntriesFor (e : Engine) (pkEncVals : list byte)
  (currValuesByColID : gmap N (option TypedValue)) (newValuesByColID : gmap N TypedValue)
  (table : Table) (idxs : list Index) (reusable : gset N) (des0 : list KV)
  : res (gset N * list KV) :=
  match idxs with
  | [] => Ok (reusable, des0)
  | index :: idxs' =>
      if IsPrimary index then
        deleteIndexEntriesFor e pkEncVals currValuesByColID newValuesByColID table idxs'
          reusable des0
      else
        do key <- currentIndexKey currValuesByColID newValuesByColID (idx_cols index) true [];
        let '(sameIndexKey, encs) := key in
        if (sameIndexKey : bool) then
          deleteIndexEntriesFor e pkEncVals currValuesByColID newValuesByColID table idxs'
            ({[idx_id index]} ∪ reusable) des0
        else
          let ie := mkKV (mapKey e (indexPrefix index)
                            (indexKeyHead table index ++ encs ++ indexKeyTail index pkEncVals))
                         (indexEntryValue index x01 pkEncVals) None in
          deleteIndexEntriesFor e pkEncVals currValuesByColID newValuesByColID table idxs'
            reusable (des0 ++ [ie])
  end.

(** Inner loop of the secondary-index loop of [compileUsing]. *)
Fixpoint newIndexKey (valuesByColID : gmap N TypedValue) (idxCols : list Column)
  (encs : list (list byte)) : res (list (list byte)) :=
  match idxCols with
  | [] => Ok encs
  | col :: idxCols' =>
      do encVal <- EncodeAsKey (Value_ (indexValue valuesByColID col)) (colType col) (MaxLen col);
      if (maxKeyLen <? Z.of_nat (length encVal))%Z then Fail ErrMaxKeyLengthExceeded
      else newIndexKey valuesByColID idxCols' (encs ++ [encVal])
  end.

(** The loop creating the entries of the secondary indexes. *)
Fixpoint secondaryEntries (e : Engine) (pkEncVals : list byte)
  (valuesByColID : gmap N TypedValue) (table : Table)
  (reusableIndexEntries : option (gset N)) (idxs : list Index) (des0 : list KV)
  : res (list KV) :=
  match idxs with
  | [] => Ok des0
  | index :: idxs' =>
      if IsPrimary index then
        secondaryEntries e pkEncVals valuesByColID table reusableIndexEntries idxs' des0
      else if match reusableIndexEntries with
              | Some reusable => bool_decide (idx_id index ∈ reusable)
              | None => false
              end
      then secondaryEntries e pkEncVals valuesByColID table reusableIndexEntries idxs' des0
      else
        do encs <- newIndexKey valuesByColID (idx_cols index) [];
        let constraint := if IsUnique index then Some CDeletedOrMustNotExist else None in
        let ie := mkKV (mapKey e (indexPrefix index)
                          (indexKeyHead table index ++ encs ++ indexKeyTail index pkEncVals))
                       (indexEntryValue index x00 pkEncVals) constraint in
        secondaryEntries e pkEncVals valuesByColID table reusableIndexEntries idxs'
          (des0 ++ [ie])
  end.

(** The constraint of the primary-index entry. *)
Definition primaryConstraint (isInsert autoIncrementPK : bool) : option KVConstraint :=
  let constraint := None in
  let constraint :=
    if isInsert && negb autoIncrementPK then Some CDeletedOrMustNotExist else constraint in
  let constraint :=
    if negb isInsert && autoIncrementPK then Some CMustExist else constraint in
  constraint.

(** [currValuesByColID] as [compileUsing] builds it from the current row: a
    column the row has no value for is mapped to the nil interface
    ([None]). *)
Definition currentValues (table : Table) (currPKRow : Row) : gmap N (option TypedValue) :=
  fold_left
    (fun (m : gmap N (option TypedValue)) col =>
       let encSel := EncodeSelector "" (tbl_db_name table) (tbl_name table) (colName col) in
       <[col_id col := Values currPKRow !! encSel]> m)
    (cols table) ∅.

(** "inject auto-incremental pk value": the state, [valuesByColID] and the
    summary after that block. *)
Definition injectPK (stmt : UpsertIntoStmt) (st : CompState)
  (valuesByColID : gmap N TypedValue) (summary : TxSummary)
  : CompState * res (gmap N TypedValue * TxSummary) :=
  let table := st_table st in
  if isInsert stmt && autoIncrementPK table then
    let pk := wrap64 (maxPK table + 1) in
    let st' := mkCompState (Table_with_maxPK table pk) true in
    match idx_cols (primaryIndex table) with
    | [] => (st', Fail ErrPanic)
    | pkCol :: _ =>
        (st', Ok (<[col_id pkCol := Number pk]> valuesByColID,
                  mkTxSummary (sm_db summary) (ces summary) (des summary)
                    (updatedRows summary)
                    (<[tbl_name table := pk]> (lastInsertedPKs summary))))
    end
  else (st, Ok (valuesByColID, summary)).

(** The rest of the loop body, from the encoding of the primary key on.
    [table.indexes] is a map, which [deleteIndexEntriesFor] and the loop of
    the secondary entries each range in an order of their own: the list
    [indexes table] stands for the order of both. *)
Definition rowEntries (stmt : UpsertIntoStmt) (e : Engine) (table : Table)
  (valuesByColID : gmap N TypedValue) (summary : TxSummary) : res TxSummary :=
  do pkEncVals <- encodePK table valuesByColID (idx_cols (primaryIndex table)) [];
  do reuse <-
    (if negb (isInsert stmt) && (1 <? length (indexes table))%nat then
       match fetchPKRow e table valuesByColID with
       | Fail err => if isErrNoMoreRows err then Ok (None, des summary) else Fail err
       | Ok currPKRow =>
           do r <- deleteIndexEntriesFor e pkEncVals (currentValues table currPKRow)
                     valuesByColID table (indexes table) ∅ (des summary);
           Ok (Some (fst r), snd r)
       end
     else Ok (None, des summary));
  let '(reusableIndexEntries, des1) := reuse in
  do valbuf <- encodeRow table valuesByColID (cols table)
                 (putUint32 (N.of_nat (size valuesByColID)));
  let mkey := mapKey e PIndexPrefix
                [EncodeID (tbl_db_id table); EncodeID (tbl_id table);
                 EncodeID (idx_id (primaryIndex table)); pkEncVals] in
  let pke := mkKV mkey (x00 :: valbuf)
               (primaryConstraint (isInsert stmt) (autoIncrementPK table)) in
  do des2 <- secondaryEntries e pkEncVals valuesByColID table reusableIndexEntries
               (indexes table) (des1 ++ [pke]);
  Ok (mkTxSummary (sm_db summary) (ces summary) des2 (updatedRows summary + 1)
        (lastInsertedPKs summary)).

(** Body of the loop over [stmt.rows]. *)
Definition compileRow (stmt : UpsertIntoStmt) (e : Engine) (implicitDB : Database)
  (params : gmap string GoValue) (selPosByColID : gmap N nat)
  (st : CompState) (summary : TxSummary) (row : RowSpec) : CompState * res TxSummary :=
  if negb (length (rs_Values row) =? length (up_cols stmt))%nat
  then (st, Fail ErrInvalidNumberOfValues)
  else
    match rowValues stmt e implicitDB params (st_table st) selPosByColID row
            (colsByID (st_table st)) ∅ with
    | Fail err => (st, Fail err)
    | Ok valuesByColID =>
        match injectPK stmt st valuesByColID summary with
        | (st', Fail err) => (st', Fail err)
        | (st', Ok (values, summary')) =>
            (st', rowEntries stmt e (st_table st') values summary')
        end
    end.

Fixpoint compileRows (stmt : UpsertIntoStmt) (e : Engine) (implicitDB : Database)
  (params : gmap string GoValue) (selPosByColID : gmap N nat)
  (st : CompState) (summary : TxSummary) (rs : list RowSpec) : CompState * res TxSummary :=
  match rs with
  | [] => (st, Ok summary)
  | row :: rs' =>
      match compileRow stmt e implicitDB params selPosByColID st summary row with
      | (st', Ok summary') => compileRows stmt e implicitDB params selPosByColID st' summary' rs'
      | (st', Fail err) => (st', Fail err)
      end
  end.

(** [UpsertIntoStmt.compileUsing]: the table and the catalog flag as the
    call leaves them (once the table is resolved), and the result. *)
Definition UpsertIntoStmt_compileUsing (stmt : UpsertIntoStmt) (e : Engine)
  (implicitDB : option Database) (params : gmap string GoValue)
  : option CompState * res TxSummary :=
  match implicitDB with
  | None => (None, Fail ErrNoDatabaseSelected)
  | Some db =>
      match referencedTable (up_tableRef stmt) e implicitDB with
      | Fail err => (None, Fail err)
      | Ok table =>
          let st := mkCompState table (mutated (catalog e)) in
          match validate stmt table with
          | Fail err => (Some st, Fail err)
          | Ok selPosByColID =>
              let '(st', r) := compileRows stmt e db params selPosByColID st
                                 (newTxSummary implicitDB) (rows stmt) in
              (Some st', r)
          end
      end
  end.

End Upsert.

(** ** SELECT *)

Record OrdCol : Type := mkOrdCol {
  oc_sel : ColSelector;
  descOrder : bool
}.

Inductive JoinType : Type := InnerJoin | LeftJoin | RightJoin.

(** A nil slice and a nil expression are [None]. *)
Inductive SelectStmt : Type :=
  mkSelectStmt (distinct : bool) (selectors : list Selector) (ds : DataSource)
    (indexOn : list string) (joins : list JoinSpec) (where_ : option ValueExp)
    (groupBy : option (list ColSelector)) (having : option ValueExp) (limit : Z)
    (orderBy : option (list OrdCol)) (as_ : string)
with DataSource : Type :=
  | DSTableRef (t : tableRef)
  | DSSelectStmt (s : SelectStmt)
with JoinSpec : Type :=
  mkJoinSpec (joinType : JoinType) (ds : DataSource) (cond : ValueExp) (indexOn : list string).

Definition stmt_ds (s : SelectStmt) : DataSource :=
  match s with mkSelectStmt _ _ ds _ _ _ _ _ _ _ _ => ds end.

Definition stmt_where (s : SelectStmt) : option ValueExp :=
  match s with mkSelectStmt _ _ _ _ _ w _ _ _ _ _ => w end.

Definition stmt_groupBy (s : SelectStmt) : option (list ColSelector) :=
  match s with mkSelectStmt _ _ _ _ _ _ g _ _ _ _ => g end.

Definition stmt_having (s : SelectStmt) : option ValueExp :=
  match s with mkSelectStmt _ _ _ _ _ _ _ h _ _ _ => h end.

Definition stmt_orderBy (s : SelectStmt) : option (list OrdCol) :=
  match s with mkSelectStmt _ _ _ _ _ _ _ _ _ o _ => o end.

(** [len] of a possibly nil slice. *)
Definition len {A : Type} (s : option (list A)) : nat :=
  match s with
  | None => 0
  | Some l => length l
  end.

Definition SelectStmt_compileUsing (stmt : SelectStmt) (e : Engine)
  (implicitDB : option Database) (params : gmap string GoValue) : res TxSummary :=
  match implicitDB with
  | None => Fail ErrNoDatabaseSelected
  | Some _ =>
      if match stmt_groupBy stmt, stmt_having stmt with
         | None, Some _ => true
         | _, _ => false
         end
      then Fail ErrHavingClauseRequiresGroupClause
      else if (1 <? len (stmt_groupBy stmt))%nat then Fail ErrLimitedGroupBy
      else if (1 <? len (stmt_orderBy stmt))%nat then Fail ErrLimitedOrderBy
      else
        match stmt_orderBy stmt with
        | Some (ord :: _) =>
            match stmt_ds stmt with
            | DSSelectStmt _ => Fail ErrLimitedOrderBy
            | DSTableRef tableRef =>
                do table <- referencedTable tableRef e implicitDB;
                do col <- GetColumnByName table (cs_col (oc_sel ord));
                match indexesByColID table !! col_id col with
                | None => Fail ErrLimitedOrderBy
                | Some _ => Ok (newTxSummary implicitDB)
                end
            end
        | _ => Ok (newTxSummary implicitDB)
        end
  end.

(** ** The conditional row reader *)

Section ConditionalReader.

Context `{Externals}.

(** Modelled from the spec: the conditional row reader is declared in
    another file of the package.  It "evaluates [WHERE] / [HAVING] per row
    and skips on false/null"; evaluating is [substitute] followed by
    [reduce] against
    the row, and a condition that is neither a boolean nor null is the
    error [InvalidCondition] of the spec's list.  The rows of the
    underlying reader are a list, the rows read a list. *)
Fixpoint conditionalRead (condition : ValueExp) (params : gmap string GoValue)
  (implicitDB implicitTable : string) (rs : list Row) : res (list Row) :=
  match rs with
  | [] => Ok []
  | row :: rs' =>
      do cond <- substitute params condition;
      do r <- reduce None (Some row) implicitDB implicitTable cond;
      match r with
      | Bool true =>
          do rest <- conditionalRead condition params implicitDB implicitTable rs';
          Ok (row :: rest)
      | Bool false | NullValue _ =>
          conditionalRead condition params implicitDB implicitTable rs'
      | _ => Fail ErrInvalidCondition
      end
  end.

End ConditionalReader.

(** ** The lexer *)

Module Lexer.

(** The token codes are constants of the generated parser; they are the
    constructors of [token] here, with [EOF] for the code 0 and [CHAR ch]
    for [int(ch)]. *)
Inductive token : Type :=
  | CREATE | USE | DATABASE | TABLE | INDEX | ON | ALTER | ADD | COLUMN
  | TYPE | ID | ERROR | STMT_SEPARATOR
  | EOF
  | CHAR (ch : byte).

Definition reservedWords : list (string * token) :=
  [("CREATE", CREATE); ("USE", USE); ("DATABASE", DATABASE); ("TABLE", TABLE);
   ("INDEX", INDEX); ("ON", ON); ("ALTER", ALTER); ("ADD", ADD); ("COLUMN", COLUMN)]%string.

Definition types : list string :=
  ["INTEGER"; "BOOLEAN"; "STRING"; "BLOB"; "TIMESTAMP"]%string.

(** [reservedWords[id]]: the keys of the map literal are distinct. *)
Fixpoint lookupWord (m : list (string * token)) (id : string) : option token :=
  match m with
  | [] => None
  | (k, tkn) :: m' => if String.eqb k id then Some tkn else lookupWord m' id
  end.

Definition isType (id : string) : bool :=
  existsb (String.eqb id) types.

(** An [io.ByteReader]: the bytes still to come and the error returned
    once they are consumed ([io.EOF] for the readers of [ParseString] and
    [ParseBytes]). *)
Record ByteReader : Type := mkByteReader {
  rd_buf : list byte;
  rd_err : error
}.

Definition ByteReader_ReadByte (r : ByteReader) : byte * option error * ByteReader :=
  match rd_buf r with
  | b :: buf' => (b, None, mkByteReader buf' (rd_err r))
  | [] => (x00, Some (rd_err r), r)
  end.

Record aheadByteReader : Type := mkAhead {
  nextChar : byte;
  nextErr : option error;
  ar_r : ByteReader
}.

Definition newAheadByteReader (r : ByteReader) : aheadByteReader :=
  let '(c, err, r') := ByteReader_ReadByte r in mkAhead c err r'.

Definition ReadByte (ar : aheadByteReader) : byte * option error * aheadByteReader :=
  (nextChar ar, nextErr ar,
   match nextErr ar with
   | None => let '(c, err, r') := ByteReader_ReadByte (ar_r ar) in mkAhead c err r'
   | Some _ => ar
   end).

Definition NextByte (ar : aheadByteReader) : byte * option error :=
  (nextChar ar, nextErr ar).

Definition byteIn (lo hi ch : byte) : bool :=
  (Byte.to_N lo <=? Byte.to_N ch)%N && (Byte.to_N ch <=? Byte.to_N hi)%N.

(* ';' = x3b, '\r' = x0d, '\n' = x0a, ' ' = x20, '_' = x5f *)
Definition isSeparator (ch : byte) : bool :=
  Byte.eqb x3b ch || Byte.eqb x0d ch || Byte.eqb x0a ch.

Definition isSpace (ch : byte) : bool := Byte.eqb x20 ch.

Definition isNumber (ch : byte) : bool := byteIn "0"%byte "9"%byte ch.

Definition isLetter (ch : byte) : bool :=
  byteIn "a"%byte "z"%byte ch || byteIn "A"%byte "Z"%byte ch || Byte.eqb ch x5f.

Record yySymType : Type := mkSym {
  sym_id : string;
  sym_err : option error
}.

Record lexer : Type := mkLexer {
  lx_r : aheadByteReader;
  lx_err : option error
}.

Definition newLexer (r : ByteReader) : lexer := mkLexer (newAheadByteReader r) None.

(** The number of [ReadByte] calls after which the reader only returns
    its error: the bound of the two loops below. *)
Definition pending (ar : aheadByteReader) : nat :=
  match nextErr ar with
  | None => S (length (rd_buf (ar_r ar)))
  | Some _ => 0
  end.

Inductive skipped : Type :=
  | SkipEOF
  | SkipErr (err : error)
  | SkipChar (ch : byte).

(** The first loop of [Lex]; [None] when [fuel] iterations do not reach
    its exit. *)
Fixpoint skipSpaces (fuel : nat) (ar : aheadByteReader) : option (skipped * aheadByteReader) :=
  match fuel with
  | O => None
  | S fuel' =>
      let '(ch, err, ar') := ReadByte ar in
      match err with
      | Some e => if isErrEOF e then Some (SkipEOF, ar') else Some (SkipErr e, ar')
      | None => if isSpace ch then skipSpaces fuel' ar' else Some (SkipChar ch, ar')
      end
  end.

(** The loop of [readWord], [b] being the buffer; [None] when [fuel]
    iterations do not reach its exit. *)
Fixpoint readWord_loop (fuel : nat) (ar : aheadByteReader) (b : list byte)
  : option (res string * aheadByteReader) :=
  match fuel with
  | O => None
  | S fuel' =>
      let '(ch, err) := NextByte ar in
      match err with
      | Some e =>
          if isErrEOF e then Some (Ok (string_of_list_byte b), ar)
          else Some (Fail e, ar)
      | None =>
          if negb (isLetter ch) && negb (isNumber ch) then Some (Ok (string_of_list_byte b), ar)
          else
            let '(ch', _, ar') := ReadByte ar in
            readWord_loop fuel' ar' (b ++ [ch'])
      end
  end.

Definition readWord (ar : aheadByteReader) : option (res string * aheadByteReader) :=
  readWord_loop (S (pending ar)) ar [].

(** [Lex]: the token, [lval] and the lexer after the call. *)
Definition Lex (l : lexer) (lval : yySymType) : option (token * yySymType * lexer) :=
  match skipSpaces (S (pending (lx_r l))) (lx_r l) with
  | None => None
  | Some (SkipEOF, ar) => Some (EOF, lval, mkLexer ar (lx_err l))
  | Some (SkipErr e, ar) => Some (ERROR, mkSym (sym_id lval) (Some e), mkLexer ar (lx_err l))
  | Some (SkipChar ch, ar) =>
      if isSeparator ch then
        let ar' := if Byte.eqb ch x0d && Byte.eqb (nextChar ar) x0a
                   then snd (ReadByte ar) else ar in
        Some (STMT_SEPARATOR, lval, mkLexer ar' (lx_err l))
      else if isLetter ch then
        match readWord ar with
        | None => None
        | Some (Fail e, ar') =>
            Some (ERROR, mkSym (sym_id lval) (Some e), mkLexer ar' (lx_err l))
        | Some (Ok tail, ar') =>
            let id := String (ascii_of_byte ch) tail in
            let lval' := mkSym id (sym_err lval) in
            if isType id then Some (TYPE, lval', mkLexer ar' (lx_err l))
            else
              match lookupWord reservedWords id with
              | None => Some (ID, lval', mkLexer ar' (lx_err l))
              | Some tkn => Some (tkn, lval', mkLexer ar' (lx_err l))
              end
        end
      else Some (CHAR ch, lval, mkLexer ar (lx_err l))
  end.

(** The first token of a string, as [ParseString] hands it to the lexer. *)
Definition firstToken (sql : string) : option token :=
  match Lex (newLexer (mkByteReader (list_byte_of_string sql) ErrEOF)) (mkSym "" None) with
  | Some (tkn, _, _) => Some tkn
  | None => None
  end.

End Lexer.

(** ** The encoders of the specification, and example data *)

Module Example.

(** [n] bytes, big-endian. *)
Fixpoint bigEndian (n : nat) (v : N) : list byte :=
  match n with
  | O => []
  | S n' => bigEndian n' (v / 256) ++ [byteOfN v]
  end.

(** Modelled from the spec: [EncodeID] is declared in another file of the
    package; "id encoding is 4 bytes big-endian". *)
Definition EncodeID (id : N) : list byte := bigEndian 4 id.

(** Modelled from the spec: [maxKeyLen] is declared in another file of the
    package, an "implementation-defined upper bound on a single encoded key
    fragment"; 256 here. *)
Definition maxKeyLen : Z := 256.

Definition padded (raw : list byte) (maxLen : Z) : res (list byte) :=
  let frag := raw ++ repeat x00 (Z.to_nat maxLen - length raw)
              ++ bigEndian 4 (N.of_nat (length raw)) in
  if (maxLen <? Z.of_nat (length raw))%Z || (maxKeyLen <? Z.of_nat (length frag))%Z
  then Fail ErrMaxKeyLengthExceeded
  else Ok frag.

(** Modelled from the spec: [EncodeAsKey] is declared in another file of
    the package.
    "INTEGER/TIMESTAMP: 8 bytes, big-endian, with the sign bit flipped;
    BOOLEAN: 1 byte; VARCHAR/BLOB: the raw bytes, right-padded with 0x00
    to exactly maxLen, followed by a 4-byte big-endian length suffix;
    fails with MaxKeyLengthExceeded if the produced fragment exceeds
    maxKeyLen".  The spec gives no encoding for a value that is nil, of
    another type than the column, or longer than maxLen: these are errors
    here. *)
Definition EncodeAsKey (val : GoValue) (t : SQLValueType) (maxLen : Z) : res (list byte) :=
  match t, val with
  | IntegerType, GInt64 z | TimestampType, GInt64 z =>
      Ok (bigEndian 8 (Z.to_N ((z + 2 ^ 63) mod 2 ^ 64)))
  | BooleanType, GBool b => Ok [if b then x01 else x00]
  | VarcharType, GString s => padded (list_byte_of_string s) maxLen
  | BLOBType, GBytes l => padded l maxLen
  | _, _ => Fail ErrInvalidValue
  end.

(** Modelled from the spec: [EncodeValue] is declared in another file of
    the package.
    "Fixed-size types: 4-byte big-endian length prefix (value 8 or 1) then
    the raw bytes; variable-size types: 4-byte big-endian length prefix
    then exactly that many bytes". *)
Definition EncodeValue (val : GoValue) (t : SQLValueType) (maxLen : Z) : res (list byte) :=
  match t, val with
  | IntegerType, GInt64 z | TimestampType, GInt64 z =>
      Ok (bigEndian 4 8 ++ bigEndian 8 (Z.to_N (z mod 2 ^ 64)))
  | BooleanType, GBool b => Ok (bigEndian 4 1 ++ [if b then x01 else x00])
  | VarcharType, GString s =>
      Ok (bigEndian 4 (N.of_nat (String.length s)) ++ list_byte_of_string s)
  | BLOBType, GBytes l => Ok (bigEndian 4 (N.of_nat (length l)) ++ l)
  | _, _ => Fail ErrInvalidValue
  end.

(** The externals used by the examples: the encoders above, a clock
    stopped at 0 and a [regexp] that matches nothing. *)
Definition externals : Externals :=
  Build_Externals EncodeID EncodeAsKey EncodeValue maxKeyLen 0
    (fun _ _ => Ok false).

(** Keys as the spec lays them out: the prefix, then the fragments. *)
Definition mapKey (prefix : string) (mappedKey : list (list byte)) : list byte :=
  list_byte_of_string prefix ++ concat mappedKey.

Definition col (id : N) (name : string) (t : SQLValueType) (maxLen : Z) (auto notnull : bool)
  : Column := mkColumn id name t maxLen auto notnull.

Definition byName (cs : list Column) (name : string) : res Column :=
  match List.find (fun c => String.eqb (colName c) name) cs with
  | Some c => Ok c
  | None => Fail ErrColumnDoesNotExist
  end.

Definition table (name : string) (cs : list Column) (pk : Index) (secondary : list Index)
  (auto : bool) (maxPK : Z) : Table :=
  mkTable 1 "db1" 1 name cs (List.map (fun c => (col_id c, c)) cs) (pk :: secondary)
    (list_to_map
       (List.map (fun c => (col_id c,
                            List.filter (fun i => existsb (fun c' => (col_id c' =? col_id c)%N)
                                                   (idx_cols i))
                              (pk :: secondary)))
          (List.filter (fun c => existsb (fun i => existsb (fun c' => (col_id c' =? col_id c)%N)
                                                     (idx_cols i)) (pk :: secondary)) cs)))
    pk auto maxPK (byName cs).

Definition database (t : Table) : Database :=
  mkDatabase 1 "db1"
    (fun name => if String.eqb name (tbl_name t) then Ok t else Fail ErrTableDoesNotExist).

Definition engine (t : Table) (current : res Row) : Engine :=
  mkEngine
    (mkCatalog (fun name => if String.eqb name "db1" then Ok (database t)
                            else Fail ErrDatabaseDoesNotExist) false)
    mapKey (fun _ _ => current).

(** [CREATE TABLE t (id INTEGER, email VARCHAR[64] NOT NULL, PRIMARY KEY id);
    CREATE UNIQUE INDEX ON t (email)] *)
Definition c_id : Column := col 1 "id" IntegerType 0 false false.
Definition c_email : Column := col 2 "email" VarcharType 64 false true.
Definition users : Table :=
  table "t" [c_id; c_email] (mkIndex 0 true [c_id]) [mkIndex 1 true [c_email]] false 0.

(** [CREATE TABLE t (id INTEGER, tag VARCHAR[8], PRIMARY KEY id);
    CREATE INDEX ON t (tag)] *)
Definition c_tag : Column := col 2 "tag" VarcharType 8 false false.
Definition tagged : Table :=
  table "t" [c_id; c_tag] (mkIndex 0 true [c_id]) [mkIndex 1 false [c_tag]] false 0.

(** [CREATE TABLE t (id INTEGER AUTO_INCREMENT, name VARCHAR[20], PRIMARY KEY id)] *)
Definition c_autoid : Column := col 1 "id" IntegerType 0 true false.
Definition c_name : Column := col 2 "name" VarcharType 20 false false.
Definition people : Table :=
  table "t" [c_autoid; c_name] (mkIndex 0 true [c_autoid]) [] true 0.

Definition rowOf (vals : list (string * TypedValue)) : Row :=
  mkRow (list_to_map (List.map (fun kv => (EncodeSelector "" "db1" "t" (fst kv), snd kv)) vals)).

Definition tref : tableRef := mkTableRef "" "t" 0 "".

Definition lit (v : TypedValue) : ValueExp := Val v.

Definition colRef (name : string) : ValueExp := Sel (ColSel (mkColSelector "" "" name "")).

(** [UPSERT INTO t (id, email) VALUES (1, 'b@x')] on [users], the store
    holding the row [(1, 'a@x')]. *)
Definition upsertEmail : UpsertIntoStmt :=
  mkUpsertIntoStmt false tref ["id"; "email"]
    [mkRowSpec [lit (Number 1); lit (Varchar "b@x")]].

Definition usersEngine : Engine :=
  engine users (Ok (rowOf [("id", Number 1); ("email", Varchar "a@x")])).

(** [UPSERT INTO t (id, tag) VALUES (1, 'blue')] on [tagged], the store
    holding the row [(1, 'red')]. *)
Definition upsertTag : UpsertIntoStmt :=
  mkUpsertIntoStmt false tref ["id"; "tag"]
    [mkRowSpec [lit (Number 1); lit (Varchar "blue")]].

Definition taggedEngine : Engine :=
  engine tagged (Ok (rowOf [("id", Number 1); ("tag", Varchar "red")])).

(** The positions of the columns [(id, x)] of the statements above. *)
Definition selPos12 : gmap N nat := <[2%N := 1]> (<[1%N := 0]> ∅).

(** [INSERT INTO t (name) VALUES ('alice'), ('bob')] and
    [INSERT INTO t (id, name) VALUES (7, 'alice')] on [people]. *)
Definition insertNames : UpsertIntoStmt :=
  mkUpsertIntoStmt true tref ["name"]
    [mkRowSpec [lit (Varchar "alice")]; mkRowSpec [lit (Varchar "bob")]].

Definition insertWithID : UpsertIntoStmt :=
  mkUpsertIntoStmt true tref ["id"; "name"]
    [mkRowSpec [lit (Number 7); lit (Varchar "alice")]].

Definition peopleEngine : Engine := engine people (Fail ErrNoMoreRows).

(** What is shown of a staged entry: the first two bytes of its key (the
    index prefix), the first byte of its value and its constraint. *)
Definition shape (kv : KV) : string * byte * option KVConstraint :=
  (string_of_list_byte (firstn 2 (Key kv)), hd x00 (Value kv), Constraint kv).

(** [id > n] and [id < n]. *)
Definition idGT (n : Z) : ValueExp := CmpBoolExp GT (colRef "id") (lit (Number n)).
Definition idLT (n : Z) : ValueExp := CmpBoolExp LT (colRef "id") (lit (Number n)).

(** The range [(l, h)] with exclusive bounds, an absent bound being [None]. *)
Definition open (l h : option Z) : typedValueRange :=
  mkRange (option_map (fun n => mkSemiRange (Number n) false) l)
          (option_map (fun n => mkSemiRange (Number n) false) h).

End Example.

(** ** Vocabulary of the properties *)

(** Two types pass the guard of [NullValue.Compare]. *)
Definition typesAgree (t1 t2 : SQLValueType) : bool :=
  SQLValueType_eqb t1 AnyType || SQLValueType_eqb t2 AnyType || SQLValueType_eqb t1 t2.

(** The condition [col = NULL], the literal being typed [tl]. *)
Definition eqNull (sel : ColSelector) (tl : SQLValueType) : ValueExp :=
  CmpBoolExp EQ (Sel (ColSel sel)) (Val (NullValue tl)).

(** The key under which a row holds the value of a column selector. *)
Definition selectorKey (sel : ColSelector) (implicitDB implicitTable : string) : string :=
  let '(aggFn, db, table, col) := ColSelector_resolve sel implicitDB implicitTable in
  EncodeSelector aggFn db table col.

Definition colIsNull (key : string) (row : Row) : bool :=
  match Values row !! key with
  | Some v => isNullValue v
  | None => false
  end.

(** [strings.ToLower] on the ASCII letters. *)
Definition lowerByte (c : ascii) : ascii :=
  let n := nat_of_ascii c in
  if (65 <=? n)%nat && (n <=? 90)%nat then ascii_of_nat (n + 32) else c.

Fixpoint ToLower (s : string) : string :=
  match s with
  | EmptyString => EmptyString
  | String c s' => String (lowerByte c) (ToLower s')
  end.

(** The token of a word matched as it is written: what [Lex] does with
    [lval.id]. *)
Definition wordToken (id : string) : Lexer.token :=
  if Lexer.isType id then Lexer.TYPE
  else match Lexer.lookupWord Lexer.reservedWords id with
       | Some tkn => tkn
       | None => Lexer.ID
       end.

Definition wordByte (ch : byte) : bool := Lexer.isLetter ch || Lexer.isNumber ch.

(** The look-ahead reader [ParseBytes] starts the lexer with. *)
Definition aheadOf (input : list byte) : Lexer.aheadByteReader :=
  Lexer.newAheadByteReader (Lexer.mkByteReader input ErrEOF).

(** A [HAVING] clause comes with a [GROUP BY] clause. *)
Definition havingHasGroup (stmt : SelectStmt) : Prop :=
  stmt_groupBy stmt = None -> stmt_having stmt = None.

(** The index is in the set of reusable entries, when there is one. *)
Definition isReusable (reusableIndexEntries : option (gset N)) (index : Index) : bool :=
  match reusableIndexEntries with
  | Some reusable => bool_decide (idx_id index ∈ reusable)
  | None => false
  end.

Section EntriesVocabulary.

Context `{Externals}.

(** The value an index entry of the stored row is keyed by. *)
Definition currValueOf (curr : gmap N (option TypedValue)) (col : Column) : TypedValue :=
  match curr !! col_id col with
  | Some (Some v) => v
  | _ => NullValue (colType col)
  end.

Definition encodedOr (v : TypedValue) (col : Column) : list byte :=
  match EncodeAsKey (Value_ v) (colType col) (MaxLen col) with
  | Ok b => b
  | Fail _ => []
  end.

(** "The old and new index-column values compare equal." *)
Definition sameIndexValues (curr : gmap N (option TypedValue)) (new : gmap N TypedValue)
  (index : Index) : bool :=
  forallb (fun col => match Compare (currValueOf curr col) (indexValue new col) with
                      | Ok r => (r =? 0)%Z
                      | Fail _ => false
                      end)
    (idx_cols index).

(** The entry of [index] keyed by the column values [vals], with deletion
    flag [flag]. *)
Definition indexEntry (e : Engine) (table : Table) (pkEncVals : list byte)
  (vals : Column -> TypedValue) (flag : byte) (constraint : option KVConstraint)
  (index : Index) : KV :=
  mkKV (mapKey e (indexPrefix index)
          (indexKeyHead table index
           ++ List.map (fun col => encodedOr (vals col) col) (idx_cols index)
           ++ indexKeyTail index pkEncVals))
       (indexEntryValue index flag pkEncVals) constraint.

(** "A tombstone entry (leading value byte 1) keyed by the old
    index-column values." *)
Definition tombstoneEntry (e : Engine) (table : Table) (pkEncVals : list byte)
  (curr : gmap N (option TypedValue)) (index : Index) : KV :=
  indexEntry e table pkEncVals (currValueOf curr) x01 None index.

(** "A new live entry keyed by the new index-column values." *)
Definition liveEntry (e : Engine) (table : Table) (pkEncVals : list byte)
  (new : gmap N TypedValue) (index : Index) : KV :=
  indexEntry e table pkEncVals (indexValue new) x00
    (if IsUnique index then Some CDeletedOrMustNotExist else None) index.

Definition primaryEntry (stmt : UpsertIntoStmt) (e : Engine) (table : Table)
  (pkEncVals valbuf : list byte) : KV :=
  mkKV (mapKey e PIndexPrefix
          [EncodeID (tbl_db_id table); EncodeID (tbl_id table);
           EncodeID (idx_id (primaryIndex table)); pkEncVals])
       (x00 :: valbuf)
       (primaryConstraint (isInsert stmt) (autoIncrementPK table)).

(** The row the statement finds in the store, when it looks for one: an
    [UPSERT] into a table with a secondary index. *)
Definition storedRow (stmt : UpsertIntoStmt) (e : Engine) (table : Table)
  (values : gmap N TypedValue) : option Row :=
  if negb (isInsert stmt) && (1 <? length (indexes table))%nat then
    match fetchPKRow e table values with
    | Ok row => Some row
    | Fail _ => None
    end
  else None.

(** The secondary indexes whose key the row changes. *)
Definition changedIndexes (table : Table) (curr : gmap N (option TypedValue))
  (new : gmap N TypedValue) : list Index :=
  List.filter (fun i => negb (IsPrimary i) && negb (sameIndexValues curr new i))
    (indexes table).

Definition secondaryIndexes (table : Table) : list Index :=
  List.filter (fun i => negb (IsPrimary i)) (indexes table).

End EntriesVocabulary.

(** ** The layout of the secondary-index entries *)

(** The definitions of this section are the terms in which the entries
    that an [UPSERT] stages are specified: they read the stored row, the
    values of the new row and the catalog, and none of the compiler's
    loops. *)
Section IndexEntryLayout.

Context `{Externals}.










End IndexEntryLayout.

(** ** Further definitions *)

(** [typedValueRange.unitary]: the result of [Compare] is read without its
    error, and every failing [Compare] returns 0. *)
Definition unitary (r : typedValueRange) : bool :=
  match lRange r, hRange r with
  | Some l, Some h =>
      let res := match Compare (sr_val l) (sr_val h) with
                 | Ok c => c
                 | Fail _ => 0%Z
                 end in
      (res =? 0)%Z && inclusive l && inclusive h
  | _, _ => false
  end.

(** [reduceSelectors]: the column selectors that [row] has a value for are
    replaced by that value.  [ColSelector.reduceSelectors] dereferences
    [row]: on a nil row it panics. *)
Fixpoint reduceSelectors (row : option Row) (implicitDB implicitTable : string)
  (e : ValueExp) : res ValueExp :=
  match e with
  | Sel (ColSel sel) =>
      match row with
      | None => Fail ErrPanic
      | Some row =>
          let '(aggFn, db, table, col) := ColSelector_resolve sel implicitDB implicitTable in
          match Values row !! EncodeSelector aggFn db table col with
          | None => Ok e
          | Some v => Ok (Val v)
          end
      end
  | NumExp op l r =>
      do l' <- reduceSelectors row implicitDB implicitTable l;
      do r' <- reduceSelectors row implicitDB implicitTable r;
      Ok (NumExp op l' r')
  | NotBoolExp x =>
      do x' <- reduceSelectors row implicitDB implicitTable x;
      Ok (NotBoolExp x')
  | CmpBoolExp op l r =>
      do l' <- reduceSelectors row implicitDB implicitTable l;
      do r' <- reduceSelectors row implicitDB implicitTable r;
      Ok (CmpBoolExp op l' r')
  | BinBoolExp op l r =>
      do l' <- reduceSelectors row implicitDB implicitTable l;
      do r' <- reduceSelectors row implicitDB implicitTable r;
      Ok (BinBoolExp op l' r')
  | _ => Ok e
  end.

(** [TxSummary.add]: [s] after the call.  A nil [summary] is [None].
    [updatedRows] counts rows, an [int] taken as [Z] as in the loop of
    [compileUsing]; the loop over [summary.lastInsertedPKs] writes one key
    per iteration, in the order of [map_fold]. *)
Definition TxSummary_add (s : TxSummary) (summary : option TxSummary) : res TxSummary :=
  match summary with
  | None => Fail ErrIllegalArguments
  | Some summary =>
      Ok (mkTxSummary (sm_db summary)
            (ces s ++ ces summary)
            (des s ++ des summary)
            (updatedRows s + updatedRows summary)
            (map_fold (fun t pk (m : gmap string Z) => <[t := pk]> m)
               (lastInsertedPKs s) (lastInsertedPKs summary)))
  end.

(** [TxStmt.compileUsing].  The statements are values of the interface
    [SQLStmt]; what the block uses of one is its [compileUsing], which
    reads and mutates the engine and returns a summary (possibly nil) or an
    error.  [EngineState] is whatever the engine holds. *)
Section TxStmt.

Context {EngineState : Type}.




End TxStmt.

(** ** Type inference

    [inferType] and [requiresType] write into the [params] map, also when
    they fail, and [NullValue.requiresType] sets the type of the [NULL]
    literal it is called on: the functions return the expression and the
    parameter types as the call leaves them, next to the result.  Of a
    [ColDescriptor] only the [Type] is read: [cols] maps an encoded selector
    to it.  [CmpBoolExp] calls [requiresType] on an operand after
    [inferType], and [CmpBoolExp.requiresType] calls [inferType] on the
    same node: the recursion is bounded by [fuel], [None] meaning that the
    fuel ran out. *)

Definition ColSelector_inferType (cols : gmap string SQLValueType) (sel : ColSelector)
  (implicitDB implicitTable : string) : res SQLValueType :=
  let '(_, db, table, col) := ColSelector_resolve sel implicitDB implicitTable in
  match cols !! EncodeSelector "" db table col with
  | None => Fail ErrInvalidColumn
  | Some descType => Ok descType
  end.

Definition ColSelector_requiresType (t : SQLValueType) (cols : gmap string SQLValueType)
  (sel : ColSelector) (implicitDB implicitTable : string) : option error :=
  let '(_, db, table, col) := ColSelector_resolve sel implicitDB implicitTable in
  match cols !! EncodeSelector "" db table col with
  | None => Some ErrInvalidColumn
  | Some descType => if negb (SQLValueType_eqb descType t) then Some ErrInvalidTypes else None
  end.

Definition AggColSelector_inferType (cols : gmap string SQLValueType) (sel : AggColSelector)
  (implicitDB implicitTable : string) : res SQLValueType :=
  if String.eqb (as_aggFn sel) COUNT then Ok IntegerType
  else
    let colSelector := mkColSelector (as_db sel) (as_table sel) (as_col sel) "" in
    if String.eqb (as_aggFn sel) SUM || String.eqb (as_aggFn sel) AVG then
      match ColSelector_requiresType IntegerType cols colSelector implicitDB implicitTable with
      | Some _ => Fail ErrInvalidTypes
      | None => Ok IntegerType
      end
    else ColSelector_inferType cols colSelector implicitDB implicitTable.

Definition AggColSelector_requiresType (t : SQLValueType) (cols : gmap string SQLValueType)
  (sel : AggColSelector) (implicitDB implicitTable : string) : option error :=
  if String.eqb (as_aggFn sel) COUNT then
    (if negb (SQLValueType_eqb t IntegerType) then Some ErrInvalidTypes else None)
  else
    let colSelector := mkColSelector (as_db sel) (as_table sel) (as_col sel) "" in
    if String.eqb (as_aggFn sel) SUM || String.eqb (as_aggFn sel) AVG then
      ColSelector_requiresType IntegerType cols colSelector implicitDB implicitTable
    else ColSelector_requiresType t cols colSelector implicitDB implicitTable.

Definition Param_inferType (params : gmap string SQLValueType) (id : string)
  : gmap string SQLValueType * res SQLValueType :=
  match params !! id with
  | None => (<[id := AnyType]> params, Ok AnyType)
  | Some t => (params, Ok t)
  end.

Definition Param_requiresType (t : SQLValueType) (params : gmap string SQLValueType)
  (id : string) : gmap string SQLValueType * option error :=
  match params !! id with
  | Some currT =>
      if negb (SQLValueType_eqb currT t) && negb (SQLValueType_eqb currT AnyType)
      then (params, Some ErrInferredMultipleTypes)
      else (<[id := t]> params, None)
  | None => (<[id := t]> params, None)
  end.

(** [requiresType] of the five literals. *)
Definition TypedValue_requiresType (t : SQLValueType) (v : TypedValue)
  : TypedValue * option error :=
  match v with
  | NullValue vt =>
      if SQLValueType_eqb vt t then (v, None)
      else if negb (SQLValueType_eqb vt AnyType) then (v, Some ErrInvalidTypes)
      else (NullValue t, None)
  | Number _ => (v, if negb (SQLValueType_eqb t IntegerType) then Some ErrInvalidTypes else None)
  | Varchar _ => (v, if negb (SQLValueType_eqb t VarcharType) then Some ErrInvalidTypes else None)
  | Bool _ => (v, if negb (SQLValueType_eqb t BooleanType) then Some ErrInvalidTypes else None)
  | Blob _ => (v, if negb (SQLValueType_eqb t BLOBType) then Some ErrInvalidTypes else None)
  end.

(** What a call leaves: the expression, the parameter types, the result. *)
Definition Typing (A : Type) : Type := option (ValueExp * gmap string SQLValueType * A).

(** [left.requiresType(t, ...)] then [right.requiresType(t, ...)], the
    second only when the first succeeds. *)
Definition requireBoth
  (require : gmap string SQLValueType -> ValueExp -> Typing (option error))
  (params : gmap string SQLValueType) (l r : ValueExp)
  : option (ValueExp * ValueExp * gmap string SQLValueType * option error) :=
  match require params l with
  | None => None
  | Some (l', params1, Some err) => Some (l', r, params1, Some err)
  | Some (l', params1, None) =>
      match require params1 r with
      | None => None
      | Some (r', params2, err) => Some (l', r', params2, err)
      end
  end.

Fixpoint inferType (fuel : nat) (cols params : gmap string SQLValueType)
  (implicitDB implicitTable : string) (e : ValueExp) {struct fuel}
  : Typing (res SQLValueType) :=
  match fuel with
  | O => None
  | S fuel' =>
      match e with
      | Val (NullValue t) => Some (e, params, Ok t)
      | Val (Number _) => Some (e, params, Ok IntegerType)
      | Val (Varchar _) => Some (e, params, Ok VarcharType)
      | Val (Bool _) => Some (e, params, Ok BooleanType)
      | Val (Blob _) => Some (e, params, Ok BLOBType)
      | SysFn fn =>
          if String.eqb (ToUpper fn) "NOW" then Some (e, params, Ok IntegerType)
          else Some (e, params, Fail ErrIllegalArguments)
      | Param id _ =>
          let '(params', t) := Param_inferType params id in Some (e, params', t)
      | Sel (ColSel sel) =>
          Some (e, params, ColSelector_inferType cols sel implicitDB implicitTable)
      | Sel (AggSel sel) =>
          Some (e, params, AggColSelector_inferType cols sel implicitDB implicitTable)
      | NumExp op l r =>
          match requireBoth
                  (fun params e => requiresType fuel' IntegerType cols params
                                     implicitDB implicitTable e) params l r with
          | None => None
          | Some (l', r', params', Some err) => Some (NumExp op l' r', params', Fail err)
          | Some (l', r', params', None) => Some (NumExp op l' r', params', Ok IntegerType)
          end
      | NotBoolExp x =>
          match requiresType fuel' BooleanType cols params implicitDB implicitTable x with
          | None => None
          | Some (x', params', Some err) => Some (NotBoolExp x', params', Fail err)
          | Some (x', params', None) => Some (NotBoolExp x', params', Ok BooleanType)
          end
      | LikeBoolExp _ _ => Some (e, params, Ok BooleanType)
      | CmpBoolExp op l r =>
          match inferType fuel' cols params implicitDB implicitTable l with
          | None => None
          | Some (l1, params1, Fail err) => Some (CmpBoolExp op l1 r, params1, Fail err)
          | Some (l1, params1, Ok tleft) =>
              match inferType fuel' cols params1 implicitDB implicitTable r with
              | None => None
              | Some (r1, params2, Fail err) => Some (CmpBoolExp op l1 r1, params2, Fail err)
              | Some (r1, params2, Ok tright) =>
                  (* unification step *)
                  if SQLValueType_eqb tleft tright
                  then Some (CmpBoolExp op l1 r1, params2, Ok BooleanType)
                  else if negb (SQLValueType_eqb tleft AnyType)
                          && negb (SQLValueType_eqb tright AnyType)
                  then Some (CmpBoolExp op l1 r1, params2, Fail ErrInvalidTypes)
                  else
                    match (if SQLValueType_eqb tleft AnyType
                           then requiresType fuel' tright cols params2
                                  implicitDB implicitTable l1
                           else Some (l1, params2, None)) with
                    | None => None
                    | Some (l2, params3, Some err) =>
                        Some (CmpBoolExp op l2 r1, params3, Fail err)
                    | Some (l2, params3, None) =>
                        match (if SQLValueType_eqb tright AnyType
                               then requiresType fuel' tleft cols params3
                                      implicitDB implicitTable r1
                               else Some (r1, params3, None)) with
                        | None => None
                        | Some (r2, params4, Some err) =>
                            Some (CmpBoolExp op l2 r2, params4, Fail err)
                        | Some (r2, params4, None) =>
                            Some (CmpBoolExp op l2 r2, params4, Ok BooleanType)
                        end
                    end
              end
          end
      | BinBoolExp op l r =>
          match requireBoth
                  (fun params e => requiresType fuel' BooleanType cols params
                                     implicitDB implicitTable e) params l r with
          | None => None
          | Some (l', r', params', Some err) => Some (BinBoolExp op l' r', params', Fail err)
          | Some (l', r', params', None) => Some (BinBoolExp op l' r', params', Ok BooleanType)
          end
      | ExistsBoolExp => Some (e, params, Fail (ErrNew "not yet supported"))
      end
  end
with requiresType (fuel : nat) (t : SQLValueType) (cols params : gmap string SQLValueType)
  (implicitDB implicitTable : string) (e : ValueExp) {struct fuel}
  : Typing (option error) :=
  match fuel with
  | O => None
  | S fuel' =>
      match e with
      | Val v => let '(v', err) := TypedValue_requiresType t v in Some (Val v', params, err)
      | SysFn fn =>
          if String.eqb (ToUpper fn) "NOW" then
            (if negb (SQLValueType_eqb t IntegerType) then Some (e, params, Some ErrInvalidTypes)
             else Some (e, params, None))
          else Some (e, params, Some ErrIllegalArguments)
      | Param id _ =>
          let '(params', err) := Param_requiresType t params id in Some (e, params', err)
      | Sel (ColSel sel) =>
          Some (e, params, ColSelector_requiresType t cols sel implicitDB implicitTable)
      | Sel (AggSel sel) =>
          Some (e, params, AggColSelector_requiresType t cols sel implicitDB implicitTable)
      | NumExp op l r =>
          if negb (SQLValueType_eqb t IntegerType) then Some (e, params, Some ErrInvalidTypes)
          else
            match requireBoth
                    (fun params e => requiresType fuel' IntegerType cols params
                                       implicitDB implicitTable e) params l r with
            | None => None
            | Some (l', r', params', err) => Some (NumExp op l' r', params', err)
            end
      | NotBoolExp x =>
          if negb (SQLValueType_eqb t BooleanType) then Some (e, params, Some ErrInvalidTypes)
          else
            match requiresType fuel' BooleanType cols params implicitDB implicitTable x with
            | None => None
            | Some (x', params', err) => Some (NotBoolExp x', params', err)
            end
      | LikeBoolExp _ _ =>
          if negb (SQLValueType_eqb t BooleanType) then Some (e, params, Some ErrInvalidTypes)
          else Some (e, params, None)
      | CmpBoolExp _ _ _ =>
          if negb (SQLValueType_eqb t BooleanType) then Some (e, params, Some ErrInvalidTypes)
          else
            match inferType fuel' cols params implicitDB implicitTable e with
            | None => None
            | Some (e', params', Fail err) => Some (e', params', Some err)
            | Some (e', params', Ok _) => Some (e', params', None)
            end
      | BinBoolExp op l r =>
          if negb (SQLValueType_eqb t BooleanType) then Some (e, params, Some ErrInvalidTypes)
          else
            match requireBoth
                    (fun params e => requiresType fuel' BooleanType cols params
                                       implicitDB implicitTable e) params l r with
            | None => None
            | Some (l', r', params', err) => Some (BinBoolExp op l' r', params', err)
            end
      | ExistsBoolExp => Some (e, params, Some (ErrNew "not yet supported"))
      end
  end.

(** The nesting depth of an expression; twice the depth is fuel enough. *)
Fixpoint depth (e : ValueExp) : nat :=
  match e with
  | NumExp _ l r | CmpBoolExp _ l r | BinBoolExp _ l r => S (Nat.max (depth l) (depth r))
  | NotBoolExp x => S (depth x)
  | _ => 1
  end.

Definition ValueExp_inferType (cols params : gmap string SQLValueType)
  (implicitDB implicitTable : string) (e : ValueExp) : Typing (res SQLValueType) :=
  inferType (2 * depth e) cols params implicitDB implicitTable e.

Definition ValueExp_requiresType (t : SQLValueType) (cols params : gmap string SQLValueType)
  (implicitDB implicitTable : string) (e : ValueExp) : Typing (option error) :=
  requiresType (2 * depth e) t cols params implicitDB implicitTable e.

(** ** The scan of a SELECT *)

Record ScanSpecs : Type := mkScanSpecs {
  ss_index : Index;
  ss_rangesByColID : gmap N typedValueRange;
  includeDeleted : bool;
  ss_descOrder : bool
}.

Definition stmt_indexOn (s : SelectStmt) : list string :=
  match s with mkSelectStmt _ _ _ i _ _ _ _ _ _ _ => i end.

Definition tableRef_Alias (stmt : tableRef) : string :=
  if String.eqb (tr_as stmt) "" then tr_table stmt else tr_as stmt.

(** The loop of [genScanSpecs] that looks the columns of [USE INDEX] up. *)
Fixpoint columnsNamed (table : Table) (names : list string) : res (list Column) :=
  match names with
  | [] => Ok []
  | colName :: names' =>
      do col <- GetColumnByName table colName;
      do cols <- columnsNamed table names';
      Ok (col :: cols)
  end.

Section GenScanSpecs.

Context `{Externals}.

(** From another file of the package: [table.indexes[indexKeyFrom(cols)]],
    the index of the table on exactly these columns, and
    [idx.sortableUsing(colID, rangesByColID)]. *)
Variable indexOnColumns : Table -> list Column -> option Index.
Variable sortableUsing : Index -> N -> gmap N typedValueRange -> bool.

(** The loop over [table.indexesByColID[col.id]]: the first index that
    passes the two tests, or [sortingIndex] as it was. *)
Fixpoint firstSortable (colID : N) (rangesByColID : gmap N typedValueRange)
  (preferredIndex : option Index) (idxs : list Index) (sortingIndex : option Index)
  : option Index :=
  match idxs with
  | [] => sortingIndex
  | idx :: idxs' =>
      if sortableUsing idx colID rangesByColID
         && match preferredIndex with
            | None => true
            | Some preferred => (idx_id idx =? idx_id preferred)%N
            end
      then Some idx
      else firstSortable colID rangesByColID preferredIndex idxs' sortingIndex
  end.

(** [genScanSpecs]; [Ok None] is the result [nil, nil]. *)
Definition genScanSpecs (stmt : SelectStmt) (e : Engine) (implicitDB : option Database)
  (params : gmap string GoValue) : res (option ScanSpecs) :=
  match stmt_ds stmt with
  | DSSelectStmt _ => Ok None
  | DSTableRef tableRef =>
      do table <- referencedTable tableRef e implicitDB;
      do rangesByColID <-
        match stmt_where stmt with
        | Some where_ => selectorRanges where_ table (tableRef_Alias tableRef) params ∅
        | None => Ok ∅
        end;
      do preferredIndex <-
        (if (0 <? length (stmt_indexOn stmt))%nat then
           do cols <- columnsNamed table (stmt_indexOn stmt);
           match indexOnColumns table cols with
           | None => Fail ErrNoAvailableIndex
           | Some index => Ok (Some index)
           end
         else Ok None);
      let sortingIndex :=
        match stmt_orderBy stmt with
        | None =>
            match preferredIndex with
            | None => Some (primaryIndex table)
            | Some index => Some index
            end
        | Some _ => None
        end in
      do sorting <-
        match stmt_orderBy stmt with
        | Some (ord :: _) =>
            do col <- GetColumnByName table (cs_col (oc_sel ord));
            Ok (firstSortable (col_id col) rangesByColID preferredIndex
                  (default [] (indexesByColID table !! col_id col)) sortingIndex,
                descOrder ord)
        | _ => Ok (sortingIndex, false)
        end;
      match fst sorting with
      | None => Fail ErrNoAvailableIndex
      | Some index => Ok (Some (mkScanSpecs index rangesByColID false (snd sorting)))
      end
  end.

End GenScanSpecs.

(** ** The local-connections check of the server interceptors *)

Module Auth.

(** What [peer.FromContext] hands over of a peer: [p.Addr.String()]. *)
Record Peer : Type := mkPeer {
  Addr : string
}.

(** [strings.Split(s, ":")] of Go's library: the pieces of [s] between its
    colons, one more than there are colons. *)
Fixpoint Split (s : string) : list string :=
  match s with
  | EmptyString => [EmptyString]
  | String c s' =>
      if Ascii.eqb c ":" then EmptyString :: Split s'
      else
        match Split s' with
        | piece :: pieces => String c piece :: pieces
        | [] => [String c EmptyString]
        end
  end.

(** The result of the check: [nil], the status error, or the panic of
    indexing an empty slice. *)
Inductive verdict : Type :=
  | Accepted
  | PermissionDenied (msg : string)
  | IndexOutOfRange.

(** [isLocalClient], given the two results [p, ok] of [peer.FromContext].
    In the condition [&&] binds tighter than [||]: [ipAndPort[0]] is
    compared with ["bufconn"] also when the slice is empty. *)
Definition isLocalClient (p : option Peer) (ok : bool) : verdict :=
  let denied := PermissionDenied "server only accepts local connections" in
  match ok, p with
  | true, Some p =>
      let ipAndPort := Split (Addr p) in
      match ipAndPort with
      | [] => IndexOutOfRange
      | first :: _ =>
          if (0 <? length ipAndPort)%nat && String.eqb first "127.0.0.1"
             || String.eqb first "bufconn"
          then Accepted
          else denied
      end
  | _, _ => denied
  end.

End Auth.

(** *** Vocabulary of the further properties *)

(** The complement of a comparison operator, and the operator with its
    operands exchanged. *)
Definition negOp (op : CmpOperator) : CmpOperator :=
  match op with
  | EQ => NE | NE => EQ | LT => GE | GE => LT | GT => LE | LE => GT
  end.

Definition flipOp (op : CmpOperator) : CmpOperator :=
  match op with
  | LT => GT | GT => LT | LE => GE | GE => LE | EQ => EQ | NE => NE
  end.

(** A value lies within a range: above the low bound and below the high
    bound, each taken inclusively or not as the bound says. *)
Definition aboveLow (v : TypedValue) (l : option typedValueSemiRange) : bool :=
  match l with
  | None => true
  | Some b =>
      match Compare v (sr_val b) with
      | Ok c => if inclusive b then (0 <=? c)%Z else (0 <? c)%Z
      | Fail _ => false
      end
  end.

Definition belowHigh (v : TypedValue) (h : option typedValueSemiRange) : bool :=
  match h with
  | None => true
  | Some b =>
      match Compare v (sr_val b) with
      | Ok c => if inclusive b then (c <=? 0)%Z else (c <? 0)%Z
      | Fail _ => false
      end
  end.

Definition withinRange (v : TypedValue) (r : typedValueRange) : bool :=
  aboveLow v (lRange r) && belowHigh v (hRange r).

(** The expression names a statement parameter. *)
Fixpoint hasParam (e : ValueExp) : bool :=
  match e with
  | Param _ _ => true
  | NumExp _ l r | CmpBoolExp _ l r | BinBoolExp _ l r => hasParam l || hasParam r
  | NotBoolExp x => hasParam x
  | _ => false
  end.

(** The parameters an expression names, left to right. *)
Fixpoint paramsOf (e : ValueExp) : list string :=
  match e with
  | Param id _ => [id]
  | NumExp _ l r | CmpBoolExp _ l r | BinBoolExp _ l r => paramsOf l ++ paramsOf r
  | NotBoolExp x => paramsOf x
  | _ => []
  end.

(** The expression reads rows only through column selectors (no aggregate
    selector, no [LIKE]). *)
Fixpoint onlyColSelectors (e : ValueExp) : bool :=
  match e with
  | Sel (AggSel _) | LikeBoolExp _ _ => false
  | NumExp _ l r | CmpBoolExp _ l r | BinBoolExp _ l r =>
      onlyColSelectors l && onlyColSelectors r
  | NotBoolExp x => onlyColSelectors x
  | _ => true
  end.

(** The value a row of the statement supplies for the column [colID]: the
    expression at the column's position, its parameters substituted,
    reduced; nothing when that value is [NULL] or the column is not named. *)
Definition suppliedValue `{Externals} (e : Engine) (implicitDB : Database)
  (params : gmap string GoValue) (table : Table) (selPosByColID : gmap N nat)
  (row : RowSpec) (colID : N) : option TypedValue :=
  match selPosByColID !! colID with
  | None => None
  | Some colPos =>
      match rs_Values row !! colPos with
      | None => None
      | Some cVal =>
          match substitute params cVal with
          | Fail _ => None
          | Ok val =>
              match reduce (Some (catalog e)) None (db_name implicitDB) (tbl_name table) val with
              | Fail _ => None
              | Ok rval => if isNullValue rval then None else Some rval
              end
          end
      end
  end.


(** What is left of the input after a separator [ch]: a line feed that
    follows a carriage return goes with it. *)
Definition afterSeparator (ch : byte) (rest : list byte) : list byte :=
  match rest with
  | c :: rest' => if Byte.eqb ch x0d && Byte.eqb c x0a then rest' else rest
  | [] => rest
  end.

(** The expression with the type of every [NULL] literal forgotten: what
    type inference leaves unchanged. *)
Fixpoint eraseNull (e : ValueExp) : ValueExp :=
  match e with
  | Val (NullValue _) => Val (NullValue AnyType)
  | NumExp op l r => NumExp op (eraseNull l) (eraseNull r)
  | NotBoolExp x => NotBoolExp (eraseNull x)
  | CmpBoolExp op l r => CmpBoolExp op (eraseNull l) (eraseNull r)
  | BinBoolExp op l r => BinBoolExp op (eraseNull l) (eraseNull r)
  | _ => e
  end.

(** The expression has no parameter, no [NULL] literal, no aggregation and
    no [LIKE]. *)
Fixpoint plainExp (e : ValueExp) : bool :=
  match e with
  | Val v => negb (isNullValue v)
  | Param _ _ | Sel (AggSel _) | LikeBoolExp _ _ => false
  | NumExp _ l r | CmpBoolExp _ l r | BinBoolExp _ l r => plainExp l && plainExp r
  | NotBoolExp x => plainExp x
  | _ => true
  end.

(** The row has a value that is not [NULL], of the described type, for
    every described column. *)
Definition rowOfTypes (cols : gmap string SQLValueType) (row : Row) : Prop :=
  forall k t, cols !! k = Some t ->
    exists v, Values row !! k = Some v /\ Type_ v = t /\ isNullValue v = false.

(** The parameter types [params'] keep what [params] has inferred: every
    typed parameter stays typed, with the same type unless it was
    [AnyType]. *)
Definition keepsTypes (params params' : gmap string SQLValueType) : Prop :=
  forall id t, params !! id = Some t ->
    exists t', params' !! id = Some t' /\ (t <> AnyType -> t' = t).

(** Every parameter of the expression has a type. *)
Definition paramsTyped (params : gmap string SQLValueType) (e : ValueExp) : Prop :=
  Forall (fun id => is_Some (params !! id)) (paramsOf e).

(** The expression reduces on the row to a value of type [t] that is not
    [NULL], or the reduction divides by zero. *)
Definition reducesTo `{Externals} (catalog : option Catalog) (row : Row)
  (implicitDB implicitTable : string) (e : ValueExp) (t : SQLValueType) : Prop :=
  (exists v, reduce catalog (Some row) implicitDB implicitTable e = Ok v
             /\ Type_ v = t /\ isNullValue v = false)
  \/ reduce catalog (Some row) implicitDB implicitTable e = Fail ErrDivisionByZero.

(** The character occurs in the string. *)
Fixpoint occurs (c : ascii) (s : string) : bool :=
  match s with
  | EmptyString => false
  | String a s' => Ascii.eqb a c || occurs c s'
  end.

(** The string is made of the bytes of the lexer's words: letters, digits
    and the underscore. *)
Definition wordString (s : string) : bool :=
  forallb wordByte (list_byte_of_string s).

(** The address is the host alone, or the host, a colon and more. *)
Definition hasHost (host addr : string) : Prop :=
  addr = host \/ exists rest, addr = host +:+ String ":" rest.

(* ================================================================== *)
(** * Part II: properties                                              *)
(* ================================================================== *)

(** ** Typed comparison *)

Lemma SQLValueType_eqb_eq (a b : SQLValueType) : SQLValueType_eqb a b = true <-> a = b.
Proof. destruct a, b; simpl; split; intros; congruence. Qed.

Lemma SQLValueType_eqb_refl (a : SQLValueType) : SQLValueType_eqb a a = true.
Proof. destruct a; reflexivity. Qed.

Lemma SQLValueType_eqb_neq (a b : SQLValueType) : a <> b -> SQLValueType_eqb a b = false.
Proof.
  intros Hne. destruct (SQLValueType_eqb a b) eqn:E; [|reflexivity].
  apply SQLValueType_eqb_eq in E. contradiction.
Qed.

Lemma Compare_null_left (t : SQLValueType) (w : TypedValue) :
  Compare (NullValue t) w =
    if typesAgree t (Type_ w)
    then Ok (if isNullValue w then 0 else -1)%Z
    else Fail ErrNotComparableValues.
Proof.
  unfold typesAgree. simpl.
  destruct (SQLValueType_eqb t AnyType), (SQLValueType_eqb (Type_ w) AnyType),
    (SQLValueType_eqb t (Type_ w)); simpl; destruct w; reflexivity.
Qed.

Lemma Compare_null_right (v : TypedValue) (t : SQLValueType) :
  isNullValue v = false -> Compare v (NullValue t) = Ok 1%Z.
Proof. destruct v; simpl; intros; congruence. Qed.

(** C6, as the specification states it, fails: two [NULL]s whose types are
    both concrete and differ are not comparable, and neither are a typed
    [NULL] and a non-null value of another type. *)
Lemma Compare_null_of_any_type_counterexample :
  Compare (NullValue IntegerType) (NullValue VarcharType) = Fail ErrNotComparableValues
  /\ Compare (NullValue IntegerType) (NullValue VarcharType) <> Ok 0%Z
  /\ Compare (NullValue IntegerType) (Varchar "a") = Fail ErrNotComparableValues
  /\ Compare (NullValue IntegerType) (Varchar "a") <> Ok (-1)%Z.
Proof. repeat split; try reflexivity; discriminate. Qed.

(** C6 (amended): [Compare] of a [NULL] on the left requires the two types
    to be identical or one of them to be [ANY]; it then finds the [NULL]
    equal to another [NULL] and strictly less than a non-null value, and
    otherwise fails with [NotComparableValues].  A non-null value on the
    left is greater than a [NULL] of any type, and two non-null values of
    different types fail with [NotComparableValues]. *)
Theorem Compare_typed (v w : TypedValue) :
  (forall t, v = NullValue t ->
     Compare v w = if typesAgree t (Type_ w)
                   then Ok (if isNullValue w then 0 else -1)%Z
                   else Fail ErrNotComparableValues)
  /\ (isNullValue v = false -> isNullValue w = true -> Compare v w = Ok 1%Z)
  /\ (isNullValue v = false -> isNullValue w = false -> Type_ v <> Type_ w ->
      Compare v w = Fail ErrNotComparableValues).
Proof.
  split; [|split].
  - intros t ->. apply Compare_null_left.
  - intros Hv Hw. destruct w; try discriminate. now apply Compare_null_right.
  - intros Hv Hw Hne.
    destruct v; try discriminate; destruct w; try discriminate;
      simpl in *; congruence.
Qed.

Lemma Compare_typed_witness :
  Compare (NullValue AnyType) (NullValue VarcharType) = Ok 0%Z
  /\ Compare (Number 1) (NullValue VarcharType) = Ok 1%Z
  /\ Compare (Number 1) (Varchar "a") = Fail ErrNotComparableValues.
Proof.
  destruct (Compare_typed (NullValue AnyType) (NullValue VarcharType)) as (H1 & _ & _).
  destruct (Compare_typed (Number 1) (NullValue VarcharType)) as (_ & H2 & _).
  destruct (Compare_typed (Number 1) (Varchar "a")) as (_ & _ & H3).
  split; [exact (H1 AnyType eq_refl)|].
  split; [exact (H2 eq_refl eq_refl)|].
  apply H3; [reflexivity | reflexivity | discriminate].
Defined.

(** ** The store constraint *)

(** C4: [deletedOrMustNotExist] accepts a key that is absent, accepts a key
    that is present with tombstone byte 1, and rejects with
    [KeyAlreadyExists] a key that is present and live. *)
Theorem deletedOrMustNotExist_verdict (key rest : list byte) :
  (forall currValue, deletedOrMustNotExist key currValue (Some ErrKeyNotFound) = None)
  /\ deletedOrMustNotExist key (x01 :: rest) None = None
  /\ deletedOrMustNotExist key (x00 :: rest) None = Some ErrKeyAlreadyExists.
Proof. repeat split. Qed.

(** ** [col = NULL] *)

Section EqNull.

Context `{Externals}.

Lemma substitute_eqNull sel tl params :
  substitute params (eqNull sel tl) = Ok (eqNull sel tl).
Proof. reflexivity. Qed.

Lemma reduce_eqNull sel tl db table row v :
  Values row !! selectorKey sel db table = Some v ->
  reduce None (Some row) db table (eqNull sel tl) =
    if isNullValue v
    then (if typesAgree (Type_ v) tl then Ok (Bool true) else Fail ErrNotComparableValues)
    else Ok (Bool false).
Proof.
  unfold selectorKey, eqNull. simpl.
  destruct (ColSelector_resolve sel db table) as [[[aggFn d] t] c].
  intros ->. simpl.
  destruct v as [t'| | | |]; try reflexivity.
  rewrite Compare_null_left. simpl.
  destruct (typesAgree t' tl); reflexivity.
Qed.

End EqNull.

(** C1, as the specification states it, fails: against a row whose column
    is [NULL], [col = NULL] reduces to true, and the conditional reader
    returns the row. *)
Lemma where_eq_null_counterexample :
  let row := Example.rowOf [("id", Number 1); ("tag", NullValue VarcharType)] in
  let cond := eqNull (mkColSelector "" "" "tag" "") AnyType in
  reduce (H := Example.externals) None (Some row) "db1" "t" cond = Ok (Bool true)
  /\ conditionalRead (H := Example.externals) cond ∅ "db1" "t" [row] = Ok [row]
  /\ conditionalRead (H := Example.externals) cond ∅ "db1" "t" [row] <> Ok [].
Proof.
  assert (E : reduce (H := Example.externals) None
                (Some (Example.rowOf [("id", Number 1); ("tag", NullValue VarcharType)]))
                "db1" "t" (eqNull (mkColSelector "" "" "tag" "") AnyType) = Ok (Bool true)).
  { erewrite reduce_eqNull; [|vm_compute; reflexivity]. reflexivity. }
  cbv zeta. split; [exact E|].
  assert (E' : conditionalRead (H := Example.externals)
                 (eqNull (mkColSelector "" "" "tag" "") AnyType) ∅ "db1" "t"
                 [Example.rowOf [("id", Number 1); ("tag", NullValue VarcharType)]]
               = Ok [Example.rowOf [("id", Number 1); ("tag", NullValue VarcharType)]]).
  { unfold conditionalRead. rewrite substitute_eqNull. unfold bind at 1.
    rewrite E. reflexivity. }
  split; [exact E'|]. rewrite E'. discriminate.
Qed.

(** C1 (amended): against a row that holds the value [v] for [col], the
    condition [col = NULL] reduces to false when [v] is not null and to
    true when [v] is [NULL] (of the literal's type, or one of the two types
    being [ANY]): [NULL] compares equal to [NULL].  So
    [SELECT * FROM t WHERE col = NULL] returns exactly the rows whose [col]
    value is [NULL]: the conditional reader rejects the rows with a
    non-null value and keeps the others. *)
Theorem where_eq_null_keeps_null_rows `{Externals} sel tl params db table (rs : list Row) :
  (forall row v, Values row !! selectorKey sel db table = Some v ->
     reduce None (Some row) db table (eqNull sel tl)
     = if isNullValue v
       then (if typesAgree (Type_ v) tl then Ok (Bool true) else Fail ErrNotComparableValues)
       else Ok (Bool false))
  /\ (Forall (fun row => exists v, Values row !! selectorKey sel db table = Some v
                          /\ (isNullValue v = true -> typesAgree (Type_ v) tl = true)) rs ->
      conditionalRead (eqNull sel tl) params db table rs
      = Ok (List.filter (colIsNull (selectorKey sel db table)) rs)).
Proof.
  split; [intros row v; apply reduce_eqNull|].
  induction 1 as [|row rs (v & Hv & Hty) _ IH]; [reflexivity|].
  cbn [conditionalRead List.filter]. rewrite substitute_eqNull. unfold bind at 1.
  rewrite (reduce_eqNull _ _ _ _ _ _ Hv). unfold colIsNull at 1. rewrite Hv.
  destruct (isNullValue v).
  - rewrite (Hty eq_refl). unfold bind at 1. rewrite IH. reflexivity.
  - unfold bind at 1. exact IH.
Qed.

Lemma where_eq_null_keeps_null_rows_witness :
  let r1 := Example.rowOf [("id", Number 1); ("tag", NullValue VarcharType)] in
  let r2 := Example.rowOf [("id", Number 2); ("tag", Varchar "red")] in
  let cond := eqNull (mkColSelector "" "" "tag" "") AnyType in
  reduce (H := Example.externals) None (Some r1) "db1" "t" cond = Ok (Bool true)
  /\ reduce (H := Example.externals) None (Some r2) "db1" "t" cond = Ok (Bool false)
  /\ conditionalRead (H := Example.externals) cond ∅ "db1" "t" [r1; r2] = Ok [r1].
Proof.
  cbv zeta.
  destruct (where_eq_null_keeps_null_rows (H := Example.externals)
              (mkColSelector "" "" "tag" "") AnyType ∅ "db1" "t"
              [Example.rowOf [("id", Number 1); ("tag", NullValue VarcharType)];
               Example.rowOf [("id", Number 2); ("tag", Varchar "red")]]) as [Hred Hread].
  split; [|split].
  - rewrite (Hred _ (NullValue VarcharType)); [reflexivity | vm_compute; reflexivity].
  - rewrite (Hred _ (Varchar "red")); [reflexivity | vm_compute; reflexivity].
  - rewrite Hread.
    + vm_compute. reflexivity.
    + repeat constructor.
      * exists (NullValue VarcharType). split; [vm_compute; reflexivity | reflexivity].
      * exists (Varchar "red"). split; [vm_compute; reflexivity | discriminate].
Defined.

(** ** Ranges of a comparison *)

(** C10: [selectorRanges] of a comparison contributes a range only when
    the left operand is a column selector and the right operand is
    constant: with a constant on the left and the selector on the right,
    [rangesByColID] is unchanged, because both attempts of the matching
    function inspect the same operands, [bexp.left] and [bexp.right]. *)
Theorem CmpBoolExp_selectorRanges_left_only `{Externals}
  (op : CmpOperator) (l r : ValueExp) (table : Table) (asTable : string)
  (params : gmap string GoValue) (ranges : gmap N typedValueRange) :
  (forall sel, isConstant l = true ->
     selectorRanges (CmpBoolExp op l (Sel (ColSel sel))) table asTable params ranges
     = Ok ranges)
  /\ (selectorRanges (CmpBoolExp op l r) table asTable params ranges <> Ok ranges ->
      (exists sel, l = Sel (ColSel sel)) /\ isConstant r = true)
  /\ (forall a b, matchingFunc l r a b = None <-> matchingFunc l r b a = None).
Proof.
  split; [|split].
  - intros sel Hl. simpl. unfold CmpBoolExp_selectorRanges, matchingFunc.
    destruct l as [| | |[s|s]| | | | | |]; try reflexivity; discriminate.
  - intros Hne.
    destruct l as [| | |[s|s]| | | | | |];
      try (exfalso; apply Hne; reflexivity).
    split; [eauto|].
    destruct (isConstant r) eqn:Hr; [reflexivity|].
    exfalso. apply Hne. simpl. unfold CmpBoolExp_selectorRanges, matchingFunc.
    rewrite Hr. reflexivity.
  - intros a b. unfold matchingFunc.
    destruct l as [| | |[s|s]| | | | | |]; try tauto.
    destruct (isConstant r); split; intros; congruence.
Qed.

Lemma CmpBoolExp_selectorRanges_left_only_witness :
  selectorRanges (H := Example.externals)
    (CmpBoolExp EQ (Example.lit (Number 1)) (Example.colRef "id"))
    Example.users "t" ∅ ∅ = Ok ∅
  /\ (exists sel, Example.colRef "id" = Sel (ColSel sel))
  /\ isConstant (Example.lit (Number 1)) = true.
Proof.
  split.
  - apply (CmpBoolExp_selectorRanges_left_only (H := Example.externals)
             EQ (Example.lit (Number 1)) (Example.lit (Number 1))
             Example.users "t" ∅ ∅).
    reflexivity.
  - apply (CmpBoolExp_selectorRanges_left_only (H := Example.externals)
             GT (Example.colRef "id") (Example.lit (Number 1))
             Example.users "t" ∅ ∅).
    intros E. vm_compute in E. discriminate E.
Defined.

(** ** Restrictions on SELECT *)

(** C8, as the specification states it, fails: a [SELECT] with no
    [GROUP BY], [HAVING] or [ORDER BY] clause does not compile when no
    database is selected. *)
Lemma SelectStmt_compileUsing_counterexample :
  let q := mkSelectStmt false [] (DSTableRef (mkTableRef "db1" "t" 0 "")) [] []
             None None None 0 None "" in
  stmt_groupBy q = None /\ stmt_having q = None /\ stmt_orderBy q = None
  /\ SelectStmt_compileUsing q (Example.engine Example.users (Fail ErrNoMoreRows)) None ∅
     = Fail ErrNoDatabaseSelected.
Proof. repeat split. Qed.

(** C8 (amended): without a selected database compiling a [SELECT] fails
    with [NoDatabaseSelected].  With one, the checks are made in this
    order: [HAVING] without [GROUP BY] fails with
    [HavingClauseRequiresGroupClause]; more than one [GROUP BY] column
    fails with [LimitedGroupBy]; more than one [ORDER BY] column fails with
    [LimitedOrderBy]; a single [ORDER BY] column fails with
    [LimitedOrderBy] when the data source is not a table reference or
    when, table and column being resolved, no index covers the column.  A
    [SELECT] passing these checks compiles without error when it has no
    [ORDER BY] column, or when its table and [ORDER BY] column resolve;
    when the table, or in it the column, does not resolve, the error of
    the failed lookup is returned. *)
Theorem SelectStmt_compileUsing_restrictions (stmt : SelectStmt) (e : Engine)
  (db : Database) (params : gmap string GoValue) :
  SelectStmt_compileUsing stmt e None params = Fail ErrNoDatabaseSelected
  /\ (stmt_groupBy stmt = None -> stmt_having stmt <> None ->
      SelectStmt_compileUsing stmt e (Some db) params = Fail ErrHavingClauseRequiresGroupClause)
  /\ (1 < len (stmt_groupBy stmt) ->
      SelectStmt_compileUsing stmt e (Some db) params = Fail ErrLimitedGroupBy)
  /\ (havingHasGroup stmt -> len (stmt_groupBy stmt) <= 1 -> 1 < len (stmt_orderBy stmt) ->
      SelectStmt_compileUsing stmt e (Some db) params = Fail ErrLimitedOrderBy)
  /\ (havingHasGroup stmt -> len (stmt_groupBy stmt) <= 1 ->
      forall ord q, stmt_orderBy stmt = Some [ord] -> stmt_ds stmt = DSSelectStmt q ->
      SelectStmt_compileUsing stmt e (Some db) params = Fail ErrLimitedOrderBy)
  /\ (havingHasGroup stmt -> len (stmt_groupBy stmt) <= 1 ->
      forall ord tableRef table col,
      stmt_orderBy stmt = Some [ord] -> stmt_ds stmt = DSTableRef tableRef ->
      referencedTable tableRef e (Some db) = Ok table ->
      GetColumnByName table (cs_col (oc_sel ord)) = Ok col ->
      SelectStmt_compileUsing stmt e (Some db) params =
        match indexesByColID table !! col_id col with
        | None => Fail ErrLimitedOrderBy
        | Some _ => Ok (newTxSummary (Some db))
        end)
  /\ (havingHasGroup stmt -> len (stmt_groupBy stmt) <= 1 -> len (stmt_orderBy stmt) = 0 ->
      SelectStmt_compileUsing stmt e (Some db) params = Ok (newTxSummary (Some db)))
  /\ (havingHasGroup stmt -> len (stmt_groupBy stmt) <= 1 ->
      forall ord tableRef err,
      stmt_orderBy stmt = Some [ord] -> stmt_ds stmt = DSTableRef tableRef ->
      referencedTable tableRef e (Some db) = Fail err ->
      SelectStmt_compileUsing stmt e (Some db) params = Fail err)
  /\ (havingHasGroup stmt -> len (stmt_groupBy stmt) <= 1 ->
      forall ord tableRef table err,
      stmt_orderBy stmt = Some [ord] -> stmt_ds stmt = DSTableRef tableRef ->
      referencedTable tableRef e (Some db) = Ok table ->
      GetColumnByName table (cs_col (oc_sel ord)) = Fail err ->
      SelectStmt_compileUsing stmt e (Some db) params = Fail err).
Proof.
  destruct stmt as [dist sels ds ixOn js wh gb hv lim ob asn].
  unfold SelectStmt_compileUsing, havingHasGroup. simpl.
  split; [reflexivity|].
  split.
  { intros -> Hhv. destruct hv; [reflexivity | congruence]. }
  split.
  { intros Hgb. destruct gb as [g|]; [|simpl in Hgb; lia].
    simpl in *. destruct (Nat.ltb_spec 1 (length g)); [reflexivity | lia]. }
  assert (Hpre : (gb = None -> hv = None) -> len gb <= 1 ->
          (if match gb, hv with None, Some _ => true | _, _ => false end
           then Fail ErrHavingClauseRequiresGroupClause
           else if (1 <? len gb)%nat then Fail ErrLimitedGroupBy
           else if (1 <? len ob)%nat then Fail ErrLimitedOrderBy
           else match ob with
                | Some (ord :: _) =>
                    match ds with
                    | DSSelectStmt _ => Fail ErrLimitedOrderBy
                    | DSTableRef tableRef =>
                        do table <- referencedTable tableRef e (Some db);
                        do col <- GetColumnByName table (cs_col (oc_sel ord));
                        match indexesByColID table !! col_id col with
                        | None => Fail ErrLimitedOrderBy
                        | Some _ => Ok (newTxSummary (Some db))
                        end
                    end
                | _ => Ok (newTxSummary (Some db))
                end)
          = (if (1 <? len ob)%nat then Fail ErrLimitedOrderBy
             else match ob with
                  | Some (ord :: _) =>
                      match ds with
                      | DSSelectStmt _ => Fail ErrLimitedOrderBy
                      | DSTableRef tableRef =>
                          do table <- referencedTable tableRef e (Some db);
                          do col <- GetColumnByName table (cs_col (oc_sel ord));
                          match indexesByColID table !! col_id col with
                          | None => Fail ErrLimitedOrderBy
                          | Some _ => Ok (newTxSummary (Some db))
                          end
                      end
                  | _ => Ok (newTxSummary (Some db))
                  end)).
  { intros Hh Hg.
    assert (E1 : match gb, hv with None, Some _ => true | _, _ => false end = false).
    { destruct gb; [reflexivity|]. rewrite (Hh eq_refl). reflexivity. }
    rewrite E1. destruct (Nat.ltb_spec 1 (len gb)); [lia | reflexivity]. }
  split.
  { intros Hh Hg Ho. rewrite (Hpre Hh Hg).
    destruct (Nat.ltb_spec 1 (len ob)); [reflexivity | lia]. }
  split.
  { intros Hh Hg ord q -> ->. rewrite (Hpre Hh Hg). reflexivity. }
  split.
  { intros Hh Hg ord tr table col -> -> Ht Hc. rewrite (Hpre Hh Hg). simpl.
    rewrite Ht. simpl. rewrite Hc. reflexivity. }
  split.
  { intros Hh Hg Ho. rewrite (Hpre Hh Hg).
    destruct ob as [[|ord ob]|]; simpl in *; try reflexivity; lia. }
  split.
  { intros Hh Hg ord tr err -> -> Ht. rewrite (Hpre Hh Hg). simpl.
    rewrite Ht. reflexivity. }
  intros Hh Hg ord tr table err -> -> Ht Hc. rewrite (Hpre Hh Hg). simpl.
  rewrite Ht. simpl. rewrite Hc. reflexivity.
Qed.

Lemma SelectStmt_compileUsing_restrictions_witness :
  let e := Example.engine Example.tagged (Fail ErrNoMoreRows) in
  let db := Example.database Example.tagged in
  let sel := mkColSelector "" "" "tag" "" in
  let q (gb : option (list ColSelector)) (hv : option ValueExp) (ob : option (list OrdCol)) :=
    mkSelectStmt false [] (DSTableRef Example.tref) [] [] None gb hv 0 ob "" in
  SelectStmt_compileUsing (q None (Some (Example.lit (Bool true))) None) e (Some db) ∅
    = Fail ErrHavingClauseRequiresGroupClause
  /\ SelectStmt_compileUsing (q (Some [sel; sel]) None None) e (Some db) ∅
     = Fail ErrLimitedGroupBy
  /\ SelectStmt_compileUsing (q None None (Some [mkOrdCol sel false; mkOrdCol sel false]))
       e (Some db) ∅ = Fail ErrLimitedOrderBy
  /\ SelectStmt_compileUsing (q None None (Some [mkOrdCol sel false])) e (Some db) ∅
     = Ok (newTxSummary (Some db))
  /\ SelectStmt_compileUsing (q None None None) e (Some db) ∅
     = Ok (newTxSummary (Some db))
  /\ SelectStmt_compileUsing
       (q None None (Some [mkOrdCol (mkColSelector "" "" "age" "") false])) e (Some db) ∅
     = Fail ErrColumnDoesNotExist
  /\ SelectStmt_compileUsing
       (mkSelectStmt false [] (DSTableRef (mkTableRef "db2" "t" 0 "")) [] [] None None None 0
          (Some [mkOrdCol sel false]) "") e (Some db) ∅
     = Fail ErrDatabaseDoesNotExist.
Proof.
  cbv zeta.
  set (e := Example.engine Example.tagged (Fail ErrNoMoreRows)).
  set (db := Example.database Example.tagged).
  set (sel := mkColSelector "" "" "tag" "").
  set (q := fun gb hv ob =>
              mkSelectStmt false [] (DSTableRef Example.tref) [] [] None gb hv 0 ob "").
  split.
  { pose proof (SelectStmt_compileUsing_restrictions
                  (q None (Some (Example.lit (Bool true))) None) e db ∅)
      as (_ & Hh & _).
    apply Hh; [reflexivity | discriminate]. }
  split.
  { pose proof (SelectStmt_compileUsing_restrictions (q (Some [sel; sel]) None None) e db ∅)
      as (_ & _ & Hg & _).
    apply Hg. simpl. lia. }
  split.
  { pose proof (SelectStmt_compileUsing_restrictions
                  (q None None (Some [mkOrdCol sel false; mkOrdCol sel false])) e db ∅)
      as (_ & _ & _ & Ho & _).
    apply Ho; [intros _; reflexivity | simpl; lia | simpl; lia]. }
  split.
  { pose proof (SelectStmt_compileUsing_restrictions
                  (q None None (Some [mkOrdCol sel false])) e db ∅)
      as (_ & _ & _ & _ & _ & Hix & _).
    rewrite (Hix (fun _ => eq_refl) (le_S _ _ (le_n 0)) _ _ Example.tagged Example.c_tag
               eq_refl eq_refl eq_refl eq_refl).
    vm_compute. reflexivity. }
  split.
  { pose proof (SelectStmt_compileUsing_restrictions (q None None None) e db ∅)
      as (_ & _ & _ & _ & _ & _ & Hn & _).
    apply Hn; [intros _; reflexivity | simpl; lia | reflexivity]. }
  split.
  { pose proof (SelectStmt_compileUsing_restrictions
                  (q None None (Some [mkOrdCol (mkColSelector "" "" "age" "") false])) e db ∅)
      as (_ & _ & _ & _ & _ & _ & _ & _ & Hcol).
    apply (Hcol (fun _ => eq_refl) (le_S _ _ (le_n 0))
             (mkOrdCol (mkColSelector "" "" "age" "") false) Example.tref Example.tagged);
      reflexivity. }
  pose proof (SelectStmt_compileUsing_restrictions
                (mkSelectStmt false [] (DSTableRef (mkTableRef "db2" "t" 0 "")) [] [] None
                   None None 0 (Some [mkOrdCol sel false]) "") e db ∅)
    as (_ & _ & _ & _ & _ & _ & _ & Htab & _).
  apply (Htab (fun _ => eq_refl) (le_S _ _ (le_n 0)) (mkOrdCol sel false)
           (mkTableRef "db2" "t" 0 "")); reflexivity.
Defined.

(** ** The lexer matches words as they are written *)

Lemma isLetter_not_space (ch : byte) :
  Lexer.isLetter ch = true -> Lexer.isSpace ch = false /\ Lexer.isSeparator ch = false.
Proof. destruct ch; vm_compute; intros; try discriminate; split; reflexivity. Qed.

Lemma aheadOf_cons (c : byte) (s : list byte) :
  aheadOf (c :: s) = Lexer.mkAhead c None (Lexer.mkByteReader s ErrEOF).
Proof. reflexivity. Qed.

Lemma ReadByte_aheadOf (c : byte) (s : list byte) :
  Lexer.ReadByte (aheadOf (c :: s)) = (c, None, aheadOf s).
Proof. destruct s; reflexivity. Qed.

Lemma pending_aheadOf (s : list byte) : Lexer.pending (aheadOf s) = length s.
Proof. destruct s; reflexivity. Qed.

(** The loop of [readWord] reads the longest run of letters and digits,
    and does so within its bound. *)
Lemma readWord_loop_word (w rest : list byte) :
  Forall (fun c => wordByte c = true) w ->
  (rest = [] \/ exists c rest', rest = c :: rest' /\ wordByte c = false) ->
  forall (b : list byte) (fuel : nat), length w < fuel ->
  Lexer.readWord_loop fuel (aheadOf (w ++ rest)) b
  = Some (Ok (string_of_list_byte (b ++ w)), aheadOf rest).
Proof.
  intros Hw Hrest. induction Hw as [|c w Hc _ IH]; intros b fuel Hfuel.
  - destruct fuel as [|fuel]; [simpl in Hfuel; lia|].
    rewrite app_nil_r. simpl app.
    destruct Hrest as [->|(c & rest' & -> & Hc)].
    + reflexivity.
    + unfold wordByte in Hc. apply orb_false_iff in Hc as [Hl Hn].
      rewrite aheadOf_cons. simpl. rewrite Hl, Hn. reflexivity.
  - destruct fuel as [|fuel]; [simpl in Hfuel; lia|].
    simpl in Hfuel.
    change ((c :: w) ++ rest) with (c :: (w ++ rest)).
    cbn [Lexer.readWord_loop]. unfold Lexer.NextByte.
    rewrite ReadByte_aheadOf. rewrite !aheadOf_cons. cbn [Lexer.nextChar Lexer.nextErr].
    unfold wordByte in Hc.
    replace (negb (Lexer.isLetter c) && negb (Lexer.isNumber c)) with false
      by (destruct (Lexer.isLetter c), (Lexer.isNumber c); simpl in *; congruence).
    rewrite IH by lia. rewrite <- app_assoc. reflexivity.
Qed.

(** The bounds of the two loops suffice: [Lex] always returns. *)
Lemma pending_ReadByte (ar : Lexer.aheadByteReader) :
  Lexer.nextErr ar = None ->
  S (Lexer.pending (snd (Lexer.ReadByte ar))) = Lexer.pending ar.
Proof.
  destruct ar as [c err [buf rerr]]. simpl. intros ->.
  unfold Lexer.ReadByte, Lexer.pending. simpl. destruct buf; reflexivity.
Qed.

Lemma skipSpaces_total (fuel : nat) :
  forall ar, Lexer.pending ar < fuel -> Lexer.skipSpaces fuel ar <> None.
Proof.
  induction fuel as [|fuel IH]; intros ar Hlt; [lia|].
  cbn [Lexer.skipSpaces].
  destruct (Lexer.ReadByte ar) as [[ch err] ar'] eqn:Hrb.
  assert (Herr : err = Lexer.nextErr ar) by (unfold Lexer.ReadByte in Hrb; congruence).
  destruct err as [e|].
  - destruct (isErrEOF e); discriminate.
  - destruct (Lexer.isSpace ch); [|discriminate].
    apply IH. pose proof (pending_ReadByte ar (eq_sym Herr)) as Hp.
    rewrite Hrb in Hp. simpl in Hp. lia.
Qed.

Lemma readWord_loop_total (fuel : nat) :
  forall ar b, Lexer.pending ar < fuel -> Lexer.readWord_loop fuel ar b <> None.
Proof.
  induction fuel as [|fuel IH]; intros ar b Hlt; [lia|].
  cbn [Lexer.readWord_loop]. unfold Lexer.NextByte.
  destruct (Lexer.nextErr ar) as [e|] eqn:Herr.
  - destruct (isErrEOF e); discriminate.
  - destruct (negb (Lexer.isLetter (Lexer.nextChar ar))
              && negb (Lexer.isNumber (Lexer.nextChar ar))); [discriminate|].
    destruct (Lexer.ReadByte ar) as [[ch err] ar'] eqn:Hrb.
    apply IH. pose proof (pending_ReadByte ar Herr) as Hp.
    rewrite Hrb in Hp. simpl in Hp. lia.
Qed.

Lemma Lex_total (l : Lexer.lexer) (lval : Lexer.yySymType) : Lexer.Lex l lval <> None.
Proof.
  unfold Lexer.Lex.
  pose proof (skipSpaces_total (S (Lexer.pending (Lexer.lx_r l))) (Lexer.lx_r l)
                (Nat.lt_succ_diag_r _)) as Hs.
  destruct (Lexer.skipSpaces (S (Lexer.pending (Lexer.lx_r l))) (Lexer.lx_r l))
    as [[[| |ch] ar]|]; try discriminate; [|congruence].
  destruct (Lexer.isSeparator ch); [discriminate|].
  destruct (Lexer.isLetter ch); [|discriminate].
  unfold Lexer.readWord.
  pose proof (readWord_loop_total (S (Lexer.pending ar)) ar [] (Nat.lt_succ_diag_r _)) as Hr.
  destruct (Lexer.readWord_loop (S (Lexer.pending ar)) ar []) as [[[tail|e] ar']|];
    [|discriminate|congruence].
  destruct (Lexer.isType _); [discriminate|].
  destruct (Lexer.lookupWord _ _); discriminate.
Qed.

(** C9, as the specification states it, fails: the lower-case word
    [create] is an identifier, not the token of [CREATE]. *)
Lemma Lex_lower_case_counterexample :
  Lexer.firstToken "create" = Some Lexer.ID
  /\ Lexer.firstToken "CREATE" = Some Lexer.CREATE
  /\ Lexer.firstToken "Create" = Some Lexer.ID
  /\ Lexer.firstToken "integer" = Some Lexer.ID
  /\ Lexer.firstToken "INTEGER" = Some Lexer.TYPE.
Proof. repeat split. Qed.

(** C9 (amended): lexing matches reserved keywords and type names as they
    are written, without case normalization.  A word (a letter followed by
    letters and digits, up to the end of the input or a byte that is
    neither) is lexed with [lval.id] the word itself, as [TYPE] when it is
    one of the type names, as the token of the reserved word it is equal
    to, and as [ID] otherwise; so every reserved word and type name is
    recognised in its upper-case spelling, and its lower-case spelling is
    an identifier. *)
Theorem Lex_word_as_written (ch : byte) (tail rest : list byte)
  (lval : Lexer.yySymType) (err : option error) :
  Lexer.isLetter ch = true ->
  Forall (fun c => wordByte c = true) tail ->
  (rest = [] \/ exists c rest', rest = c :: rest' /\ wordByte c = false) ->
  Lexer.Lex (Lexer.mkLexer (aheadOf (ch :: tail ++ rest)) err) lval
  = Some (wordToken (string_of_list_byte (ch :: tail)),
          Lexer.mkSym (string_of_list_byte (ch :: tail)) (Lexer.sym_err lval),
          Lexer.mkLexer (aheadOf rest) err)
  /\ Forall (fun kw => Lexer.firstToken (fst kw) = Some (snd kw)
                       /\ Lexer.firstToken (ToLower (fst kw)) = Some Lexer.ID)
       Lexer.reservedWords
  /\ Forall (fun t => Lexer.firstToken t = Some Lexer.TYPE
                      /\ Lexer.firstToken (ToLower t) = Some Lexer.ID)
       Lexer.types.
Proof.
  intros Hch Htail Hrest. split; [|split; repeat constructor].
  destruct (isLetter_not_space ch Hch) as [Hsp Hsep].
  unfold Lexer.Lex. cbn [Lexer.lx_r Lexer.lx_err].
  rewrite pending_aheadOf. cbn [Lexer.skipSpaces].
  rewrite ReadByte_aheadOf. rewrite Hsp, Hsep, Hch.
  unfold Lexer.readWord. rewrite pending_aheadOf.
  rewrite (readWord_loop_word tail rest Htail Hrest [] (S (length (tail ++ rest))))
    by (rewrite length_app; lia).
  unfold wordToken. cbn [app string_of_list_byte List.map string_of_list_ascii].
  change (string_of_list_ascii (List.map ascii_of_byte tail)) with (string_of_list_byte tail).
  destruct (Lexer.isType (String (ascii_of_byte ch) (string_of_list_byte tail)));
    [reflexivity|].
  destruct (Lexer.lookupWord Lexer.reservedWords
              (String (ascii_of_byte ch) (string_of_list_byte tail))); reflexivity.
Qed.

Lemma Lex_word_as_written_witness :
  Lexer.Lex (Lexer.mkLexer (aheadOf (list_byte_of_string "create table")) None)
    (Lexer.mkSym "" None)
  = Some (Lexer.ID, Lexer.mkSym "create" None,
          Lexer.mkLexer (aheadOf (list_byte_of_string " table")) None).
Proof.
  pose proof (Lex_word_as_written "c"%byte (list_byte_of_string "reate")
                (list_byte_of_string " table") (Lexer.mkSym "" None) None) as Hlex.
  destruct Hlex as [Hlex _].
  - reflexivity.
  - repeat constructor.
  - right. exists " "%byte, (list_byte_of_string "table"). split; reflexivity.
  - exact Hlex.
Defined.

(** ** The entries staged for a row *)

Section RowEntries.

Context `{Externals}.

Lemma currentIndexKey_spec curr new idxCols :
  forall same encs same' encs',
  currentIndexKey curr new idxCols same encs = Ok (same', encs') ->
  same' = same
          && forallb (fun col => match Compare (currValueOf curr col) (indexValue new col) with
                                 | Ok r => (r =? 0)%Z
                                 | Fail _ => false
                                 end) idxCols
  /\ encs' = encs ++ List.map (fun col => encodedOr (currValueOf curr col) col) idxCols.
Proof.
  induction idxCols as [|col idxCols IH]; intros same encs same' encs' Hk; simpl in Hk.
  - injection Hk as <- <-. simpl. rewrite andb_true_r, app_nil_r. auto.
  - cbn [forallb List.map].
    assert (Hv : forall v, match curr !! col_id col with
                           | None => Ok (NullValue (colType col))
                           | Some None => Fail ErrPanic
                           | Some (Some v) => Ok v
                           end = Ok v -> currValueOf curr col = v).
    { intros v. unfold currValueOf. destruct (curr !! col_id col) as [[w|]|]; congruence. }
    destruct (match curr !! col_id col with
              | None => Ok (NullValue (colType col))
              | Some None => Fail ErrPanic
              | Some (Some v) => Ok v
              end) as [v|err] eqn:Hc; simpl in Hk; [|discriminate].
    rewrite (Hv v eq_refl).
    destruct (Compare v (indexValue new col)) as [r|err]; simpl in Hk; [|discriminate].
    apply IH in Hk as [-> ->]. unfold encodedOr at 2.
    rewrite <- app_assoc, andb_assoc. auto.
Qed.

Lemma deleteIndexEntriesFor_spec e pkEncVals curr new table idxs :
  forall reusable des0 reusable' des',
  deleteIndexEntriesFor e pkEncVals curr new table idxs reusable des0 = Ok (reusable', des') ->
  des' = des0 ++ List.map (tombstoneEntry e table pkEncVals curr)
                   (List.filter (fun i => negb (IsPrimary i)
                                          && negb (sameIndexValues curr new i)) idxs)
  /\ (forall id, id ∈ reusable' <->
                 id ∈ reusable
                 \/ exists i, In i idxs /\ IsPrimary i = false
                              /\ sameIndexValues curr new i = true /\ idx_id i = id).
Proof.
  induction idxs as [|index idxs IH]; intros reusable des0 reusable' des' Hd; simpl in Hd.
  - injection Hd as <- <-. simpl. rewrite app_nil_r. split; [reflexivity|].
    intros id. split; [auto|]. intros [?|(i & [] & _)]. assumption.
  - cbn [List.filter]. destruct (IsPrimary index) eqn:Hp; simpl.
    + apply IH in Hd as [-> Hr]. split; [reflexivity|].
      intros id. rewrite Hr. split.
      * intros [?|(i & Hi & ?)]; [auto|]. right. exists i. simpl. auto.
      * intros [?|(i & [<-|Hi] & Hi' & ?)]; [auto| congruence |]. right. exists i. auto.
    + destruct (currentIndexKey curr new (idx_cols index) true []) as [[same encs]|err] eqn:Hk;
        simpl in Hd; [|discriminate].
      apply currentIndexKey_spec in Hk as [Hs He]. simpl in Hs, He.
      fold (sameIndexValues curr new index) in Hs. subst same encs.
      destruct (sameIndexValues curr new index) eqn:Hsame; simpl.
      * apply IH in Hd as [-> Hr]. split; [reflexivity|].
        intros id. rewrite Hr. rewrite elem_of_union, elem_of_singleton. split.
        -- intros [[->|?]|(i & Hi & ?)]; [|auto|].
           ++ right. exists index. simpl. auto.
           ++ right. exists i. simpl. auto.
        -- intros [?|(i & [<-|Hi] & Hi1 & Hi2 & <-)]; [auto|auto|].
           right. exists i. auto.
      * apply IH in Hd as [-> Hr]. split.
        -- rewrite <- app_assoc. reflexivity.
        -- intros id. rewrite Hr. split.
           ++ intros [?|(i & Hi & ?)]; [auto|]. right. exists i. simpl. auto.
           ++ intros [?|(i & [<-|Hi] & Hi1 & Hi2 & ?)]; [auto| congruence |].
              right. exists i. auto.
Qed.

Lemma newIndexKey_spec new idxCols :
  forall encs encs',
  newIndexKey new idxCols encs = Ok encs' ->
  encs' = encs ++ List.map (fun col => encodedOr (indexValue new col) col) idxCols.
Proof.
  induction idxCols as [|col idxCols IH]; intros encs encs' Hk; simpl in Hk.
  - injection Hk as <-. simpl. now rewrite app_nil_r.
  - cbn [List.map]. unfold encodedOr at 1.
    destruct (EncodeAsKey (Value_ (indexValue new col)) (colType col) (MaxLen col))
      as [encVal|err]; simpl in Hk; [|discriminate].
    destruct (maxKeyLen <? Z.of_nat (length encVal))%Z; [discriminate|].
    apply IH in Hk as ->. now rewrite <- app_assoc.
Qed.

Lemma secondaryEntries_spec e pkEncVals new table reuse idxs :
  forall des0 des',
  secondaryEntries e pkEncVals new table reuse idxs des0 = Ok des' ->
  des' = des0 ++ List.map (liveEntry e table pkEncVals new)
                   (List.filter (fun i => negb (IsPrimary i) && negb (isReusable reuse i)) idxs).
Proof.
  induction idxs as [|index idxs IH]; intros des0 des' Hs; simpl in Hs.
  - injection Hs as <-. simpl. now rewrite app_nil_r.
  - cbn [List.filter]. destruct (IsPrimary index) eqn:Hp; simpl.
    + now apply IH in Hs.
    + fold (isReusable reuse index) in Hs.
      destruct (isReusable reuse index) eqn:Hr; simpl.
      * now apply IH in Hs.
      * destruct (newIndexKey new (idx_cols index) []) as [encs|err] eqn:Hk;
          simpl in Hs; [|discriminate].
        apply newIndexKey_spec in Hk. simpl in Hk. subst encs.
        apply IH in Hs as ->. rewrite <- app_assoc. reflexivity.
Qed.

Lemma rowEntries_spec stmt e table values summary summary' :
  rowEntries stmt e table values summary = Ok summary' ->
  exists pkEncVals valbuf reuse tombs,
    encodePK table values (idx_cols (primaryIndex table)) [] = Ok pkEncVals
    /\ match storedRow stmt e table values with
       | Some row =>
           let curr := currentValues table row in
           tombs = List.map (tombstoneEntry e table pkEncVals curr)
                     (changedIndexes table curr values)
           /\ exists reusable, reuse = Some reusable
              /\ forall id, id ∈ reusable <->
                    exists i, In i (indexes table) /\ IsPrimary i = false
                              /\ sameIndexValues curr values i = true /\ idx_id i = id
       | None => tombs = [] /\ reuse = None
       end
    /\ des summary' =
         des summary ++ tombs
         ++ primaryEntry stmt e table pkEncVals valbuf
            :: List.map (liveEntry e table pkEncVals values)
                 (List.filter (fun i => negb (IsPrimary i) && negb (isReusable reuse i))
                    (indexes table))
    /\ ces summary' = ces summary
    /\ updatedRows summary' = (updatedRows summary + 1)%Z
    /\ lastInsertedPKs summary' = lastInsertedPKs summary
    /\ sm_db summary' = sm_db summary.
Proof.
  unfold rowEntries, storedRow. intros Hr.
  destruct (encodePK table values (idx_cols (primaryIndex table)) []) as [pkEncVals|err];
    simpl in Hr; [|discriminate].
  exists pkEncVals.
  destruct (negb (isInsert stmt) && (1 <? length (indexes table))%nat).
  - destruct (fetchPKRow e table values) as [row|err] eqn:Hf.
    + destruct (deleteIndexEntriesFor e pkEncVals (currentValues table row) values table
                  (indexes table) ∅ (des summary)) as [[reusable des1]|err] eqn:Hd;
        simpl in Hr; [|discriminate].
      apply deleteIndexEntriesFor_spec in Hd as [-> Hreuse].
      destruct (encodeRow table values (cols table) (putUint32 (N.of_nat (size values))))
        as [valbuf|err]; simpl in Hr; [|discriminate].
      match type of Hr with
      | bind ?x _ = _ => destruct x as [des2|err] eqn:Hs; simpl in Hr; [|discriminate]
      end.
      apply secondaryEntries_spec in Hs. injection Hr as <-. simpl.
      exists valbuf, (Some reusable). eexists. split; [reflexivity|].
      split.
      { split; [reflexivity|]. exists reusable. split; [reflexivity|].
        intros id. rewrite Hreuse. split.
        - intros [Hin|?]; [|assumption]. now apply not_elem_of_empty in Hin.
        - auto. }
      split; [|auto].
      rewrite Hs. rewrite <- !app_assoc. reflexivity.
    + destruct (isErrNoMoreRows err); simpl in Hr; [|discriminate].
      destruct (encodeRow table values (cols table) (putUint32 (N.of_nat (size values))))
        as [valbuf|err']; simpl in Hr; [|discriminate].
      match type of Hr with
      | bind ?x _ = _ => destruct x as [des2|err'] eqn:Hs; simpl in Hr; [|discriminate]
      end.
      apply secondaryEntries_spec in Hs. injection Hr as <-. simpl.
      exists valbuf, None, []. split; [reflexivity|]. split; [auto|].
      split; [|auto]. rewrite Hs. rewrite <- !app_assoc. reflexivity.
  - simpl in Hr.
    destruct (encodeRow table values (cols table) (putUint32 (N.of_nat (size values))))
      as [valbuf|err']; simpl in Hr; [|discriminate].
    match type of Hr with
    | bind ?x _ = _ => destruct x as [des2|err'] eqn:Hs; simpl in Hr; [|discriminate]
    end.
    apply secondaryEntries_spec in Hs. injection Hr as <-. simpl.
    exists valbuf, None, []. split; [reflexivity|]. split; [auto|].
    split; [|auto]. rewrite Hs. rewrite <- !app_assoc. reflexivity.
Qed.

(** The state and the values a row is staged with. *)
Lemma injectPK_spec stmt st values0 summary st' values summary1 :
  injectPK stmt st values0 summary = (st', Ok (values, summary1)) ->
  des summary1 = des summary /\ ces summary1 = ces summary
  /\ updatedRows summary1 = updatedRows summary /\ sm_db summary1 = sm_db summary
  /\ if isInsert stmt && autoIncrementPK (st_table st) then
       let pk := wrap64 (maxPK (st_table st) + 1) in
       st' = mkCompState (Table_with_maxPK (st_table st) pk) true
       /\ lastInsertedPKs summary1 = <[tbl_name (st_table st) := pk]> (lastInsertedPKs summary)
       /\ exists pkCol rest, idx_cols (primaryIndex (st_table st)) = pkCol :: rest
                             /\ values = <[col_id pkCol := Number pk]> values0
     else st' = st /\ values = values0 /\ summary1 = summary.
Proof.
  unfold injectPK. destruct (isInsert stmt && autoIncrementPK (st_table st)).
  - destruct (idx_cols (primaryIndex (st_table st))) as [|pkCol rest] eqn:Hpk;
      [discriminate|].
    intros Hi. injection Hi as <- <- <-. simpl. repeat split; eauto.
  - intros Hi. injection Hi as <- <- <-. auto 10.
Qed.

Lemma compileRow_inv stmt e implicitDB params selPos st summary row st' summary' :
  compileRow stmt e implicitDB params selPos st summary row = (st', Ok summary') ->
  length (rs_Values row) = length (up_cols stmt)
  /\ exists values0 values summary1,
       rowValues stmt e implicitDB params (st_table st) selPos row (colsByID (st_table st)) ∅
       = Ok values0
       /\ injectPK stmt st values0 summary = (st', Ok (values, summary1))
       /\ rowEntries stmt e (st_table st') values summary1 = Ok summary'.
Proof.
  unfold compileRow.
  destruct (Nat.eqb_spec (length (rs_Values row)) (length (up_cols stmt))) as [Hlen|Hlen];
    simpl; [|discriminate].
  destruct (rowValues stmt e implicitDB params (st_table st) selPos row
              (colsByID (st_table st)) ∅) as [values0|err]; [|discriminate].
  destruct (injectPK stmt st values0 summary) as [st1 [[values summary1]|err]] eqn:Hi;
    [|discriminate].
  intros Hc. injection Hc as <- Hr. split; [assumption|].
  exists values0, values, summary1. auto.
Qed.

End RowEntries.

Lemma Table_with_maxPK_same (t : Table) : Table_with_maxPK t (maxPK t) = t.
Proof. destruct t; reflexivity. Qed.

Lemma injectPK_table `{Externals} stmt st values0 summary st' values summary1 :
  injectPK stmt st values0 summary = (st', Ok (values, summary1)) ->
  st_table st' = Table_with_maxPK (st_table st) (maxPK (st_table st')).
Proof.
  intros Hi. apply injectPK_spec in Hi as (_ & _ & _ & _ & Hi).
  destruct (isInsert stmt && autoIncrementPK (st_table st)).
  - destruct Hi as (-> & _). reflexivity.
  - destruct Hi as (-> & _). now rewrite Table_with_maxPK_same.
Qed.


(** ** Tombstones on UPSERT *)


Section StoredRow.

Context `{Externals}.














End StoredRow.



(** ** Constraints of the staged entries *)

(** C2, as the specification states it, fails: the tombstone that an
    [UPSERT] stages for the old key of a unique secondary index carries no
    constraint. *)
Lemma upsert_entry_constraints_counterexample :
  exists summary,
    snd (UpsertIntoStmt_compileUsing (H := Example.externals) Example.upsertEmail
           Example.usersEngine (Some (Example.database Example.users)) ∅) = Ok summary
    /\ List.map Example.shape (des summary)
       = [("U.", x01, None); ("P.", x00, None); ("U.", x00, Some CDeletedOrMustNotExist)].
Proof. eexists. split; [vm_compute; reflexivity|]. vm_compute. reflexivity. Qed.

(** C2 (amended): when a row is compiled, the constraint of the
    primary-index entry is determined by the statement kind and by whether
    the primary key is auto-incremental: [INSERT] without auto-increment
    attaches [deletedOrMustNotExist], [INSERT] with auto-increment none,
    [UPSERT] without auto-increment none, [UPSERT] with auto-increment
    [MustExist].  The entries staged for the row are tombstones of
    secondary indexes, which carry no constraint, then the primary entry,
    then live entries of secondary indexes, each of which carries
    [deletedOrMustNotExist] when its index is unique and no constraint
    otherwise. *)
Theorem upsert_entry_constraints `{Externals}
  (stmt : UpsertIntoStmt) (e : Engine) (implicitDB : Database)
  (params : gmap string GoValue) (selPos : gmap N nat) (st st' : CompState)
  (summary summary' : TxSummary) (row : RowSpec) :
  (primaryConstraint true false = Some CDeletedOrMustNotExist
   /\ primaryConstraint true true = None
   /\ primaryConstraint false false = None
   /\ primaryConstraint false true = Some CMustExist)
  /\ (compileRow stmt e implicitDB params selPos st summary row = (st', Ok summary') ->
      exists pkEncVals valbuf tombs lives,
        des summary'
        = des summary ++ tombs ++ primaryEntry stmt e (st_table st') pkEncVals valbuf :: lives
        /\ Constraint (primaryEntry stmt e (st_table st') pkEncVals valbuf)
           = primaryConstraint (isInsert stmt) (autoIncrementPK (st_table st))
        /\ Forall (fun kv => exists index curr,
                      In index (secondaryIndexes (st_table st))
                      /\ kv = tombstoneEntry e (st_table st') pkEncVals curr index
                      /\ Constraint kv = None) tombs
        /\ Forall (fun kv => exists index values,
                      In index (secondaryIndexes (st_table st))
                      /\ kv = liveEntry e (st_table st') pkEncVals values index
                      /\ Constraint kv = if IsUnique index
                                         then Some CDeletedOrMustNotExist else None) lives).
Proof.
  split; [repeat split|].
  intros Hc.
  apply compileRow_inv in Hc as (_ & values0 & values & summary1 & _ & Hi & Hr).
  pose proof (injectPK_table _ _ _ _ _ _ _ Hi) as Ht.
  apply injectPK_spec in Hi as (Hd & _).
  apply rowEntries_spec in Hr
    as (pkEncVals & valbuf & reuse & tombs & _ & Hstored & Hdes & _).
  assert (Hix : indexes (st_table st') = indexes (st_table st)) by (rewrite Ht; reflexivity).
  assert (Hai : autoIncrementPK (st_table st') = autoIncrementPK (st_table st))
    by (rewrite Ht; reflexivity).
  exists pkEncVals, valbuf, tombs. eexists. split; [|split; [|split]].
  - rewrite Hdes, Hd. reflexivity.
  - simpl. now rewrite Hai.
  - destruct (storedRow stmt e (st_table st') values) as [currRow|].
    + destruct Hstored as (-> & _). apply Forall_forall. intros kv Hkv.
      apply list_elem_of_In, in_map_iff in Hkv as (index & <- & Hin).
      unfold changedIndexes in Hin. apply filter_In in Hin as [Hin Hp].
      exists index, (currentValues (st_table st') currRow).
      split; [|split; reflexivity].
      unfold secondaryIndexes. rewrite <- Hix. apply filter_In. split; [assumption|].
      now apply andb_true_iff in Hp as [Hp _].
    + destruct Hstored as (-> & _). constructor.
  - apply Forall_forall. intros kv Hkv.
    apply list_elem_of_In, in_map_iff in Hkv as (index & <- & Hin).
    apply filter_In in Hin as [Hin Hp].
    exists index, values. split; [|split; reflexivity].
    unfold secondaryIndexes. rewrite <- Hix. apply filter_In. split; [assumption|].
    now apply andb_true_iff in Hp as [Hp _].
Qed.

Lemma upsert_entry_constraints_witness :
  exists st' summary',
    compileRow (H := Example.externals) Example.upsertEmail Example.usersEngine
      (Example.database Example.users) ∅ Example.selPos12
      (mkCompState Example.users false)
      (newTxSummary (Some (Example.database Example.users)))
      (mkRowSpec [Example.lit (Number 1); Example.lit (Varchar "b@x")])
    = (st', Ok summary')
    /\ exists pkEncVals valbuf tombs lives,
         des summary' = tombs ++ primaryEntry (H := Example.externals) Example.upsertEmail
                                  Example.usersEngine (st_table st') pkEncVals valbuf :: lives
         /\ Constraint (primaryEntry (H := Example.externals) Example.upsertEmail
                          Example.usersEngine (st_table st') pkEncVals valbuf) = None.
Proof.
  assert (Hc : compileRow (H := Example.externals) Example.upsertEmail Example.usersEngine
                 (Example.database Example.users) ∅ Example.selPos12
                 (mkCompState Example.users false)
                 (newTxSummary (Some (Example.database Example.users)))
                 (mkRowSpec [Example.lit (Number 1); Example.lit (Varchar "b@x")])
               = (mkCompState Example.users false,
                  rowEntries (H := Example.externals) Example.upsertEmail Example.usersEngine
                    Example.users (<[2%N := Varchar "b@x"]> (<[1%N := Number 1]> ∅))
                    (newTxSummary (Some (Example.database Example.users))))).
  { vm_compute. reflexivity. }
  destruct (rowEntries (H := Example.externals) Example.upsertEmail Example.usersEngine
              Example.users (<[2%N := Varchar "b@x"]> (<[1%N := Number 1]> ∅))
              (newTxSummary (Some (Example.database Example.users))))
    as [summary'|err] eqn:Hr; [|vm_compute in Hr; discriminate Hr].
  exists (mkCompState Example.users false), summary'. split; [exact Hc|].
  destruct (upsert_entry_constraints (H := Example.externals) Example.upsertEmail
              Example.usersEngine (Example.database Example.users) ∅ Example.selPos12
              (mkCompState Example.users false) (mkCompState Example.users false)
              (newTxSummary (Some (Example.database Example.users))) summary'
              (mkRowSpec [Example.lit (Number 1); Example.lit (Varchar "b@x")]))
    as (_ & Hrow).
  destruct (Hrow Hc) as (pkEncVals & valbuf & tombs & lives & Hdes & Hpk & _).
  exists pkEncVals, valbuf, tombs, lives. split; [exact Hdes | exact Hpk].
Defined.

(** ** Auto-incremental primary keys *)


Section AutoIncrement.

Context `{Externals}.








End AutoIncrement.




(** ** Ranges of [AND], [OR] and [!=] *)

Section RangesOfBinBoolExp.

Context `{Externals}.

(** [AND] hands the one map to its left and then to its right operand. *)
Lemma selectorRanges_AND l r table asTable params ranges :
  selectorRanges (BinBoolExp AND l r) table asTable params ranges
  = (do ranges' <- selectorRanges l table asTable params ranges;
     selectorRanges r table asTable params ranges').
Proof. reflexivity. Qed.

(** A comparison on a column that has a range refines that range. *)
Lemma updateRangeFor_refines colID val cmp ranges curr :
  ranges !! colID = Some curr ->
  updateRangeFor colID val cmp ranges
  = match cmp with
    | NE => Ok ranges
    | _ =>
        do refined <-
          refineWith curr
            (match cmp with
             | EQ => mkRange (Some (mkSemiRange val true)) (Some (mkSemiRange val true))
             | LT => mkRange None (Some (mkSemiRange val false))
             | LE => mkRange None (Some (mkSemiRange val true))
             | GT => mkRange (Some (mkSemiRange val false)) None
             | _ => mkRange (Some (mkSemiRange val true)) None
             end);
        Ok (<[colID := refined]> ranges)
    end.
Proof. intros Hc. unfold updateRangeFor. rewrite Hc. destruct cmp; reflexivity. Qed.

(** [!=] contributes no range. *)
Lemma selectorRanges_NE l r table asTable params ranges ranges' :
  selectorRanges (CmpBoolExp NE l r) table asTable params ranges = Ok ranges' ->
  ranges' = ranges.
Proof.
  simpl. unfold CmpBoolExp_selectorRanges.
  destruct (match matchingFunc l r l r with
            | Some m => Some m
            | None => matchingFunc l r r l
            end) as [[sel c]|]; [|congruence].
  destruct (ColSelector_resolve sel (tbl_db_name table) (tbl_name table)) as [[[aggFn db] t] col].
  destruct (negb (aggFn =? "")%string || negb (db =? tbl_db_name table)%string
            || negb (t =? asTable)%string); [congruence|].
  destruct (GetColumnByName table col) as [column|err]; simpl; [|discriminate].
  destruct (substitute params c) as [val|err].
  - destruct (reduce None None (tbl_db_name table) (tbl_name table) val) as [rval|err];
      simpl; congruence.
  - destruct (isErrMissingParameter err); congruence.
Qed.

(** [OR] gives a column the union ([extendWith]) of its two ranges when
    both sides range it, and leaves the map as it was for any other
    column. *)
Lemma extendRanges_lookup (lRanges rRanges ranges ranges' : gmap N typedValueRange) :
  extendRanges lRanges rRanges ranges = Ok ranges' ->
  forall colID,
    match lRanges !! colID, rRanges !! colID with
    | Some lr, Some rr => exists ext, extendWith lr rr = Ok ext /\ ranges' !! colID = Some ext
    | _, _ => ranges' !! colID = ranges !! colID
    end.
Proof.
  unfold extendRanges. revert ranges'.
  apply (map_fold_weak_ind
           (fun (acc : res (gmap N typedValueRange)) (m : gmap N typedValueRange) =>
              forall ranges', acc = Ok ranges' ->
              forall colID,
                match m !! colID, rRanges !! colID with
                | Some lr, Some rr =>
                    exists ext, extendWith lr rr = Ok ext /\ ranges' !! colID = Some ext
                | _, _ => ranges' !! colID = ranges !! colID
                end)).
  - intros ranges' Hr colID. injection Hr as <-. now rewrite lookup_empty.
  - intros i lr m acc Hi IH ranges' Hacc colID.
    destruct acc as [ranges0|err]; simpl in Hacc; [|discriminate].
    specialize (IH ranges0 eq_refl).
    destruct (decide (i = colID)) as [->|Hne].
    + rewrite lookup_insert_eq. specialize (IH colID). rewrite Hi in IH.
      destruct (rRanges !! colID) as [rr|].
      * destruct (extendWith lr rr) as [ext|err]; simpl in Hacc; [|discriminate].
        injection Hacc as <-. exists ext. now rewrite lookup_insert_eq.
      * injection Hacc as <-. exact IH.
    + rewrite lookup_insert_ne by assumption. specialize (IH colID).
      destruct (rRanges !! i) as [rr|].
      * destruct (extendWith lr rr) as [ext|err]; simpl in Hacc; [|discriminate].
        injection Hacc as <-. rewrite lookup_insert_ne by assumption. exact IH.
      * injection Hacc as <-. exact IH.
Qed.

End RangesOfBinBoolExp.

(** C5: the code departs from the claim.  For
    [WHERE id > 1 AND (id < 5 OR id < 10)] the two sides of the [AND]
    derive the ranges [(1, -)] and [(-, 10)] for [id], whose intersection
    ([refineWith]) is [(1, 10)]; the [OR], evaluated second, overwrites the
    range the left side had accumulated, and the result is [(-, 10)].
    With the operands of the [AND] swapped the result is [(1, 10)]. *)
Theorem selectorRanges_or_under_and_overwrites :
  let ranges (e : ValueExp) :=
    selectorRanges (H := Example.externals) e Example.users "t" ∅ ∅ in
  let l := Example.idGT 1 in
  let r := BinBoolExp OR (Example.idLT 5) (Example.idLT 10) in
  ranges l = Ok {[1%N := Example.open (Some 1%Z) None]}
  /\ ranges r = Ok {[1%N := Example.open None (Some 10%Z)]}
  /\ refineWith (Example.open (Some 1%Z) None) (Example.open None (Some 10%Z))
     = Ok (Example.open (Some 1%Z) (Some 10%Z))
  /\ ranges (BinBoolExp AND l r) = Ok {[1%N := Example.open None (Some 10%Z)]}
  /\ ranges (BinBoolExp AND r l) = Ok {[1%N := Example.open (Some 1%Z) (Some 10%Z)]}.
Proof. cbv zeta. repeat split; vm_compute; reflexivity. Qed.

(* ================================================================== *)
(** * Part III: further properties of the code                         *)
(* ================================================================== *)

(** ** [Compare] as an order *)

Lemma bytesCompare_refl (a : list byte) : bytesCompare a a = 0%Z.
Proof.
  induction a as [|x a IH]; [reflexivity|]. simpl.
  rewrite N.ltb_irrefl. exact IH.
Qed.

Lemma bytesCompare_range (a b : list byte) :
  bytesCompare a b = (-1)%Z \/ bytesCompare a b = 0%Z \/ bytesCompare a b = 1%Z.
Proof.
  revert b. induction a as [|x a IH]; intros [|y b]; simpl; auto.
  destruct (Byte.to_N x <? Byte.to_N y)%N; [auto|].
  destruct (Byte.to_N y <? Byte.to_N x)%N; auto.
Qed.

Lemma bytesCompare_antisym (a b : list byte) :
  bytesCompare b a = (- bytesCompare a b)%Z.
Proof.
  revert b. induction a as [|x a IH]; intros [|y b]; simpl; try reflexivity.
  destruct (N.ltb_spec (Byte.to_N x) (Byte.to_N y)),
           (N.ltb_spec (Byte.to_N y) (Byte.to_N x)); try reflexivity; try lia.
  apply IH.
Qed.

Lemma bytesCompare_eq (a b : list byte) : bytesCompare a b = 0%Z -> a = b.
Proof.
  revert b. induction a as [|x a IH]; intros [|y b]; simpl; try discriminate; [reflexivity|].
  destruct (N.ltb_spec (Byte.to_N x) (Byte.to_N y)); [discriminate|].
  destruct (N.ltb_spec (Byte.to_N y) (Byte.to_N x)); [discriminate|].
  intros Hc. f_equal; [|now apply IH].
  assert (Hxy : Byte.to_N x = Byte.to_N y) by lia.
  apply (f_equal Byte.of_N) in Hxy. rewrite !Byte.of_to_N in Hxy. congruence.
Qed.

Lemma list_byte_of_string_inj (s t : string) :
  list_byte_of_string s = list_byte_of_string t -> s = t.
Proof.
  intros Hst. rewrite <- (string_of_list_byte_of_string s),
                <- (string_of_list_byte_of_string t). now rewrite Hst.
Qed.

Lemma Compare_refl (v : TypedValue) : Compare v v = Ok 0%Z.
Proof.
  destruct v as [t| n | s | b | l]; simpl.
  - destruct t; reflexivity.
  - now rewrite Z.eqb_refl.
  - now rewrite bytesCompare_refl.
  - now rewrite Bool.eqb_reflx.
  - now rewrite bytesCompare_refl.
Qed.

Lemma Compare_range (v w : TypedValue) (c : Z) :
  Compare v w = Ok c -> c = (-1)%Z \/ c = 0%Z \/ c = 1%Z.
Proof.
  destruct v as [t| n | s | b | l], w as [t'| n' | s' | b' | l'];
    simpl; try (intros Hc; injection Hc as <-; auto; fail); try discriminate.
  - destruct (_ && _); [discriminate|]. intros Hc; injection Hc as <-; auto.
  - destruct (_ && _); [discriminate|]. intros Hc; injection Hc as <-; auto.
  - destruct (_ && _); [discriminate|]. intros Hc; injection Hc as <-; auto.
  - destruct (_ && _); [discriminate|]. intros Hc; injection Hc as <-; auto.
  - destruct (_ && _); [discriminate|]. intros Hc; injection Hc as <-; auto.
  - destruct (n =? n')%Z; [|destruct (n >? n')%Z]; intros Hc; injection Hc as <-; auto.
  - intros Hc; injection Hc as <-. apply bytesCompare_range.
  - destruct (Bool.eqb b b'); [|destruct b]; intros Hc; injection Hc as <-; auto.
  - intros Hc; injection Hc as <-. apply bytesCompare_range.
Qed.

Lemma Compare_opposite (v w : TypedValue) (c c' : Z) :
  Compare v w = Ok c -> Compare w v = Ok c' -> c' = (- c)%Z.
Proof.
  destruct v as [t| n | s | b | l], w as [t'| n' | s' | b' | l'];
    simpl; try discriminate;
    try (destruct (_ && _); [discriminate|]);
    try (destruct (_ && _); [discriminate|]);
    try (intros Hc Hc'; injection Hc as <-; injection Hc' as <-; reflexivity).
  - destruct (Z.eqb_spec n n'), (Z.eqb_spec n' n); try lia;
      [intros Hc Hc'; injection Hc as <-; injection Hc' as <-; reflexivity|].
    destruct (Z.gtb_spec n n'), (Z.gtb_spec n' n); try lia;
      intros Hc Hc'; injection Hc as <-; injection Hc' as <-; reflexivity.
  - intros Hc Hc'; injection Hc as <-; injection Hc' as <-. apply bytesCompare_antisym.
  - destruct b, b'; simpl; intros Hc Hc'; injection Hc as <-; injection Hc' as <-;
      reflexivity.
  - intros Hc Hc'; injection Hc as <-; injection Hc' as <-. apply bytesCompare_antisym.
Qed.

Lemma Compare_equal_Value (v w : TypedValue) :
  Compare v w = Ok 0%Z -> Value_ v = Value_ w.
Proof.
  destruct v as [t| n | s | b | l], w as [t'| n' | s' | b' | l'];
    simpl; try discriminate; try reflexivity;
    try (destruct (_ && _); discriminate).
  - destruct (Z.eqb_spec n n'); [congruence|]. destruct (n >? n')%Z; discriminate.
  - intros Hc. injection Hc as Hc. apply bytesCompare_eq, list_byte_of_string_inj in Hc.
    congruence.
  - destruct b, b'; simpl; try discriminate; reflexivity.
  - intros Hc. injection Hc as Hc. apply bytesCompare_eq in Hc. congruence.
Qed.

(** X1: [Compare] is a three-way comparison.  Every value compares equal
    to itself; a result is -1, 0 or 1; when both [a.Compare(b)] and
    [b.Compare(a)] succeed their results are opposite; and two values that
    compare equal have the same [Value()], [NULL]s of different types
    included. *)
Theorem Compare_three_way (v w : TypedValue) :
  Compare v v = Ok 0%Z
  /\ (forall c, Compare v w = Ok c -> c = (-1)%Z \/ c = 0%Z \/ c = 1%Z)
  /\ (forall c c', Compare v w = Ok c -> Compare w v = Ok c' -> c' = (- c)%Z)
  /\ (Compare v w = Ok 0%Z -> Value_ v = Value_ w).
Proof.
  split; [apply Compare_refl|]. split; [apply Compare_range|].
  split; [apply Compare_opposite | apply Compare_equal_Value].
Qed.

Lemma Compare_three_way_witness :
  Compare (Varchar "ab") (Varchar "b") = Ok (-1)%Z
  /\ Compare (Varchar "b") (Varchar "ab") = Ok 1%Z
  /\ Value_ (NullValue AnyType) = Value_ (NullValue IntegerType).
Proof.
  destruct (Compare_three_way (Varchar "ab") (Varchar "b")) as (_ & _ & Hanti & _).
  destruct (Compare_three_way (NullValue AnyType) (NullValue IntegerType)) as (_ & _ & _ & Heq).
  split; [reflexivity|]. split; [|exact (Heq eq_refl)].
  destruct (Compare (Varchar "b") (Varchar "ab")) as [c'|err] eqn:Hc; [|discriminate Hc].
  now rewrite (Hanti (-1)%Z c' eq_refl eq_refl).
Defined.

(** ** Comparisons as conditions *)

Lemma cmpSatisfiesOp_negOp (c : Z) (op : CmpOperator) :
  c = (-1)%Z \/ c = 0%Z \/ c = 1%Z ->
  cmpSatisfiesOp c (negOp op) = negb (cmpSatisfiesOp c op).
Proof. intros [->|[->| ->]]; destruct op; reflexivity. Qed.

Lemma cmpSatisfiesOp_flipOp (c : Z) (op : CmpOperator) :
  c = (-1)%Z \/ c = 0%Z \/ c = 1%Z ->
  cmpSatisfiesOp (- c) (flipOp op) = cmpSatisfiesOp c op.
Proof. intros [->|[->| ->]]; destruct op; reflexivity. Qed.

(** X2: a comparison that evaluates yields a boolean, never [NULL], and its
    complement ([=] and [!=], [<] and [>=], [>] and [<=]) then evaluates to
    the opposite boolean, whatever the operands, [NULL] included; and when
    the comparison with the operands exchanged evaluates too
    ([a < b] and [b > a]), the two agree. *)
Theorem CmpBoolExp_reduce_laws `{Externals} (catalog : option Catalog) (row : option Row)
  (db table : string) (op : CmpOperator) (l r : ValueExp) (v : TypedValue) :
  reduce catalog row db table (CmpBoolExp op l r) = Ok v ->
  exists b, v = Bool b
    /\ reduce catalog row db table (CmpBoolExp (negOp op) l r) = Ok (Bool (negb b))
    /\ forall v', reduce catalog row db table (CmpBoolExp (flipOp op) r l) = Ok v' ->
                  v' = Bool b.
Proof.
  simpl.
  destruct (reduce catalog row db table l) as [vl|]; simpl; [|discriminate].
  destruct (reduce catalog row db table r) as [vr|]; simpl; [|discriminate].
  destruct (Compare vl vr) as [c|] eqn:Hc; simpl; [|discriminate].
  intros Hv. injection Hv as <-. eexists. split; [reflexivity|].
  pose proof (Compare_range _ _ _ Hc) as Hrange. split.
  - now rewrite cmpSatisfiesOp_negOp.
  - intros v'. destruct (Compare vr vl) as [c'|] eqn:Hc'; simpl; [|discriminate].
    intros Hv'. injection Hv' as <-.
    rewrite (Compare_opposite _ _ _ _ Hc Hc'). now rewrite cmpSatisfiesOp_flipOp.
Qed.

Lemma CmpBoolExp_reduce_laws_witness :
  let row := Example.rowOf [("id", Number 1); ("tag", NullValue VarcharType)] in
  let cond op := CmpBoolExp op (Example.colRef "tag") (Example.lit (NullValue AnyType)) in
  reduce (H := Example.externals) None (Some row) "db1" "t" (cond EQ) = Ok (Bool true)
  /\ reduce (H := Example.externals) None (Some row) "db1" "t" (cond NE) = Ok (Bool false).
Proof.
  cbv zeta. split; [vm_compute; reflexivity|].
  destruct (CmpBoolExp_reduce_laws (H := Example.externals) None
              (Some (Example.rowOf [("id", Number 1); ("tag", NullValue VarcharType)]))
              "db1" "t" EQ (Example.colRef "tag") (Example.lit (NullValue AnyType))
              (Bool true)) as (b & Hb & Hneg & _).
  - vm_compute. reflexivity.
  - injection Hb as <-. exact Hneg.
Defined.

(** ** Index keys of values that compare equal *)

(** X3: when [deleteIndexEntriesFor] finds the key of an index unchanged
    ([sameIndexKey]: every current value compares equal to the new one),
    the key fragments it encoded from the current values are the ones
    [compileUsing] encodes from the new values: the entry it leaves in
    place is the entry of the new row. *)
Theorem unchanged_index_key_is_the_new_key `{Externals}
  (curr : gmap N (option TypedValue)) (new : gmap N TypedValue) (idxCols : list Column)
  (encs encs' : list (list byte)) :
  currentIndexKey curr new idxCols true [] = Ok (true, encs) ->
  newIndexKey new idxCols [] = Ok encs' ->
  encs = encs'.
Proof.
  assert (Hgen : forall acc acc' same,
            currentIndexKey curr new idxCols same acc = Ok (true, encs) ->
            newIndexKey new idxCols acc' = Ok encs' ->
            acc = acc' -> encs = encs').
  { induction idxCols as [|col idxCols IH]; intros acc acc' same Hc Hn Hacc; simpl in Hc, Hn.
    - congruence.
    - destruct (match curr !! col_id col with
                | None => Ok (NullValue (colType col))
                | Some None => Fail ErrPanic
                | Some (Some v) => Ok v
                end) as [currVal|]; simpl in Hc; [|discriminate].
      destruct (Compare currVal (indexValue new col)) as [r|] eqn:Hr; simpl in Hc;
        [|discriminate].
      destruct (EncodeAsKey (Value_ (indexValue new col)) (colType col) (MaxLen col))
        as [encVal|] eqn:He; simpl in Hn; [|discriminate].
      destruct (maxKeyLen <? Z.of_nat (length encVal))%Z; [discriminate|].
      destruct (Z.eqb_spec r 0) as [->|Hne].
      + apply Compare_equal_Value in Hr. rewrite Hr, He in Hc.
        eapply IH; eauto. congruence.
      + rewrite andb_false_r in Hc.
        destruct (currentIndexKey_spec _ _ _ _ _ _ _ Hc) as [Hs _]. discriminate. }
  intros Hc Hn. eapply Hgen; eauto.
Qed.

Lemma unchanged_index_key_is_the_new_key_witness :
  exists encs,
    currentIndexKey (H := Example.externals) {[2%N := Some (Varchar "red")]}
      {[2%N := Varchar "red"]} [Example.c_tag] true [] = Ok (true, encs)
    /\ newIndexKey (H := Example.externals) {[2%N := Varchar "red"]} [Example.c_tag] []
       = Ok encs.
Proof.
  destruct (currentIndexKey (H := Example.externals) {[2%N := Some (Varchar "red")]}
              {[2%N := Varchar "red"]} [Example.c_tag] true []) as [[same encs]|] eqn:Hc;
    [|vm_compute in Hc; discriminate Hc].
  assert (Hs : same = true) by (vm_compute in Hc; congruence). subst same.
  destruct (newIndexKey (H := Example.externals) {[2%N := Varchar "red"]} [Example.c_tag] [])
    as [encs'|] eqn:Hn; [|vm_compute in Hn; discriminate Hn].
  exists encs. split; [reflexivity|].
  now rewrite (unchanged_index_key_is_the_new_key (H := Example.externals) _ _ _ _ _ Hc Hn).
Defined.

(** ** Bounds of ranges *)

Lemma maxSemiRange_value (or1 or2 m : typedValueSemiRange) :
  maxSemiRange or1 or2 = Ok m ->
  (sr_val m = sr_val or1 \/ sr_val m = sr_val or2)
  /\ inclusive m = inclusive or1 && inclusive or2.
Proof.
  unfold maxSemiRange. destruct (Compare (sr_val or1) (sr_val or2)) as [r|]; simpl;
    [|discriminate].
  intros Hm. injection Hm as <-. simpl. destruct (r <? 0)%Z; auto.
Qed.

Lemma minSemiRange_value (or1 or2 m : typedValueSemiRange) :
  minSemiRange or1 or2 = Ok m ->
  (sr_val m = sr_val or1 \/ sr_val m = sr_val or2)
  /\ inclusive m = inclusive or1 || inclusive or2.
Proof.
  unfold minSemiRange. destruct (Compare (sr_val or1) (sr_val or2)) as [r|]; simpl;
    [|discriminate].
  intros Hm. injection Hm as <-. simpl. destruct (r >? 0)%Z; auto.
Qed.

(** X4: [refineWith] keeps every bound ([r] refined has a low bound exactly
    when [r] or the refining range has one, and likewise a high bound),
    [extendWith] keeps a bound only when both ranges have it, and both
    leave a range unchanged when it is combined with itself. *)
Theorem refineWith_extendWith_bounds (r1 r2 r : typedValueRange) :
  (refineWith r1 r2 = Ok r ->
     (lRange r = None <-> lRange r1 = None /\ lRange r2 = None)
     /\ (hRange r = None <-> hRange r1 = None /\ hRange r2 = None))
  /\ (extendWith r1 r2 = Ok r ->
      (lRange r = None <-> lRange r1 = None \/ lRange r2 = None)
      /\ (hRange r = None <-> hRange r1 = None \/ hRange r2 = None))
  /\ refineWith r1 r1 = Ok r1
  /\ extendWith r1 r1 = Ok r1.
Proof.
  destruct r1 as [[[v1 i1]|] [[w1 j1]|]], r2 as [[[v2 i2]|] [[w2 j2]|]];
    unfold refineWith, extendWith, maxSemiRange, minSemiRange; simpl;
    rewrite ?Compare_refl; simpl; rewrite ?andb_diag, ?orb_diag;
    repeat match goal with
           | |- context [Compare ?a ?b] => destruct (Compare a b); simpl
           end;
    (split; [|split; [|split]]); try reflexivity; try discriminate;
    intros Hr; injection Hr as <-; simpl;
    (split; split; try tauto; try discriminate; intros [? ?] || intros [?|?] || intros ?);
    try discriminate; try tauto.
Qed.

Lemma refineWith_extendWith_bounds_witness :
  (lRange (Example.open (Some 1%Z) (Some 10%Z)) = None
   <-> lRange (Example.open (Some 1%Z) None) = None
       /\ lRange (Example.open None (Some 10%Z)) = None)
  /\ (lRange (Example.open None None) = None
      <-> lRange (Example.open (Some 1%Z) None) = None
          \/ lRange (Example.open None (Some 10%Z)) = None).
Proof.
  split.
  - apply (refineWith_extendWith_bounds (Example.open (Some 1%Z) None)
             (Example.open None (Some 10%Z)) (Example.open (Some 1%Z) (Some 10%Z))).
    reflexivity.
  - apply (refineWith_extendWith_bounds (Example.open (Some 1%Z) None)
             (Example.open None (Some 10%Z)) (Example.open None None)).
    reflexivity.
Defined.

(** X5: the range that [selectorRanges] records, starting from no range,
    for a comparison [col op c] of a column with a literal contains every
    value of the column for which the comparison reduces to true. *)
Theorem comparison_range_contains_satisfying_values `{Externals}
  (op : CmpOperator) (sel : ColSelector) (c : TypedValue) (table : Table)
  (asTable db implicitTable : string) (params : gmap string GoValue)
  (row : Row) (v : TypedValue) (ranges' : gmap N typedValueRange) :
  Values row !! selectorKey sel db implicitTable = Some v ->
  reduce None (Some row) db implicitTable (CmpBoolExp op (Sel (ColSel sel)) (Val c))
  = Ok (Bool true) ->
  selectorRanges (CmpBoolExp op (Sel (ColSel sel)) (Val c)) table asTable params ∅
  = Ok ranges' ->
  forall colID range, ranges' !! colID = Some range -> withinRange v range = true.
Proof.
  intros Hv Hred Hsel colID range Hrange.
  cbn [reduce] in Hred. unfold Selector_reduce in Hred. unfold selectorKey in Hv.
  destruct (ColSelector_resolve sel db implicitTable) as [[[aggFn d] t] col].
  rewrite Hv in Hred. simpl in Hred.
  destruct (Compare v c) as [r|] eqn:Hc; simpl in Hred; [|discriminate].
  injection Hred as Hsat. pose proof (Compare_range _ _ _ Hc) as Hr.
  simpl in Hsel. unfold CmpBoolExp_selectorRanges, matchingFunc in Hsel. simpl in Hsel.
  match type of Hsel with
  | (if ?cond then _ else _) = _ => destruct cond
  end.
  { injection Hsel as <-. now rewrite lookup_empty in Hrange. }
  destruct (GetColumnByName table (cs_col sel)) as [column|]; simpl in Hsel; [|discriminate].
  unfold updateRangeFor in Hsel. rewrite lookup_empty in Hsel.
  unfold withinRange, aboveLow, belowHigh.
  destruct op; injection Hsel as <-;
    try (now rewrite lookup_empty in Hrange);
    (destruct (decide (colID = col_id column)) as [Heq|Hne];
     [subst colID; rewrite lookup_insert_eq in Hrange; injection Hrange as <-; simpl;
      rewrite ?Hc; destruct Hr as [->|[->| ->]]; simpl in Hsat; try discriminate; reflexivity
     |rewrite lookup_insert_ne, lookup_empty in Hrange by congruence; discriminate]).
Qed.

Lemma comparison_range_contains_satisfying_values_witness :
  let row := Example.rowOf [("id", Number 3); ("tag", Varchar "red")] in
  exists range,
    selectorRanges (H := Example.externals) (Example.idLT 5) Example.tagged "t" ∅ ∅
    = Ok {[1%N := range]}
    /\ withinRange (Number 3) range = true.
Proof.
  cbv zeta. exists (Example.open None (Some 5%Z)). split; [vm_compute; reflexivity|].
  apply (comparison_range_contains_satisfying_values (H := Example.externals)
           LT (mkColSelector "" "" "id" "") (Number 5) Example.tagged "t" "db1" "t" ∅
           (Example.rowOf [("id", Number 3); ("tag", Varchar "red")]) (Number 3)
           {[1%N := Example.open None (Some 5%Z)]}) with (colID := 1%N).
  - vm_compute. reflexivity.
  - vm_compute. reflexivity.
  - vm_compute. reflexivity.
  - vm_compute. reflexivity.
Defined.

(** X6: refining a low bound takes the conjunction of the two inclusive
    flags even when the bounds differ.  For [b < a], the conditions
    [col >= a] and then [col > b] record the low bound [a] as exclusive:
    the value [a] satisfies both comparisons and lies outside the range
    recorded for them. *)
Theorem refined_low_bound_excludes_its_value (colID : N) (a b : Z) :
  (b < a)%Z ->
  (do ranges <- updateRangeFor colID (Number a) GE ∅;
   updateRangeFor colID (Number b) GT ranges)
  = Ok {[colID := mkRange (Some (mkSemiRange (Number a) false)) None]}
  /\ (exists r, Compare (Number a) (Number a) = Ok r /\ cmpSatisfiesOp r GE = true)
  /\ (exists r, Compare (Number a) (Number b) = Ok r /\ cmpSatisfiesOp r GT = true)
  /\ withinRange (Number a) (mkRange (Some (mkSemiRange (Number a) false)) None) = false.
Proof.
  intros Hlt. split; [|split; [|split]].
  - unfold updateRangeFor. rewrite lookup_empty. simpl. rewrite lookup_insert_eq.
    unfold refineWith, maxSemiRange. simpl.
    destruct (Z.eqb_spec a b); [lia|]. destruct (Z.gtb_spec a b); [|lia]. simpl.
    now rewrite insert_insert_eq.
  - exists 0%Z. split; [apply Compare_refl | reflexivity].
  - exists 1%Z. split; [|reflexivity]. simpl.
    destruct (Z.eqb_spec a b); [lia|]. destruct (Z.gtb_spec a b); [reflexivity|lia].
  - unfold withinRange, aboveLow. simpl. now rewrite Z.eqb_refl.
Qed.

Lemma refined_low_bound_excludes_its_value_witness :
  selectorRanges (H := Example.externals)
    (BinBoolExp AND (CmpBoolExp GE (Example.colRef "id") (Example.lit (Number 5)))
                    (Example.idGT 3))
    Example.tagged "t" ∅ ∅
  = Ok {[1%N := mkRange (Some (mkSemiRange (Number 5) false)) None]}
  /\ withinRange (Number 5) (mkRange (Some (mkSemiRange (Number 5) false)) None) = false.
Proof.
  destruct (refined_low_bound_excludes_its_value 1%N 5 3) as (Hr & _ & _ & Hout); [lia|].
  split; [|exact Hout].
  transitivity (do ranges <- updateRangeFor 1%N (Number 5) GE ∅;
                updateRangeFor 1%N (Number 3) GT ranges);
    [vm_compute; reflexivity | exact Hr].
Defined.

(** X7: on a column without a range, the range recorded for [col = c] is
    unitary and the range recorded for [<], [<=], [>] or [>=] is not.
    [unitary] reads the result of [Compare] without its error: a range
    whose two inclusive bounds are not comparable counts as unitary. *)
Theorem unitary_ranges (colID : N) (c : TypedValue) (op : CmpOperator)
  (ranges' : gmap N typedValueRange) (l h : TypedValue) :
  (updateRangeFor colID c op ∅ = Ok ranges' ->
   forall range, ranges' !! colID = Some range -> unitary range = CmpOperator_eqb op EQ)
  /\ ((forall r, Compare l h <> Ok r) ->
      unitary (mkRange (Some (mkSemiRange l true)) (Some (mkSemiRange h true))) = true).
Proof.
  split.
  - unfold updateRangeFor. rewrite lookup_empty.
    destruct op; intros Hu; injection Hu as <-; intros range;
      rewrite ?lookup_insert_eq, ?lookup_empty; intros Hr; try discriminate;
      injection Hr as <-; unfold unitary; simpl; rewrite ?Compare_refl; reflexivity.
  - intros Hf. unfold unitary. simpl. destruct (Compare l h) as [r|]; [|reflexivity].
    now destruct (Hf r).
Qed.

Lemma unitary_ranges_witness :
  unitary (mkRange (Some (mkSemiRange (Number 1) true)) (Some (mkSemiRange (Number 1) true)))
  = true
  /\ unitary (mkRange (Some (mkSemiRange (Number 1) true))
                       (Some (mkSemiRange (Varchar "a") true))) = true.
Proof.
  destruct (unitary_ranges 1%N (Number 1) EQ
              {[1%N := mkRange (Some (mkSemiRange (Number 1) true))
                               (Some (mkSemiRange (Number 1) true))]}
              (Number 1) (Varchar "a")) as [Heq Hinc].
  split.
  - apply (Heq eq_refl). apply lookup_insert_eq.
  - apply Hinc. intros r. discriminate.
Defined.

(** ** Ranges are never dropped *)

Lemma updateRangeFor_keeps colID val cmp ranges ranges' c :
  updateRangeFor colID val cmp ranges = Ok ranges' ->
  is_Some (ranges !! c) -> is_Some (ranges' !! c).
Proof.
  unfold updateRangeFor. intros Hu Hc.
  assert (Hins : forall r, is_Some (<[colID := r]> ranges !! c)).
  { intros r. destruct (decide (colID = c)) as [->|Hne].
    - rewrite lookup_insert_eq. eauto.
    - now rewrite lookup_insert_ne. }
  destruct cmp; try (injection Hu as <-; assumption);
    (destruct (ranges !! colID) as [curr|];
     [match type of Hu with
      | bind ?x _ = _ => destruct x; simpl in Hu; [|discriminate]
      end|]; injection Hu as <-; apply Hins).
Qed.

(** X8: [selectorRanges] never drops a range: a column that has a range
    before the call has one after it, whatever the expression. *)
Theorem selectorRanges_keeps_ranged_columns `{Externals} (e : ValueExp) (table : Table)
  (asTable : string) (params : gmap string GoValue) (colID : N) :
  forall ranges ranges',
  selectorRanges e table asTable params ranges = Ok ranges' ->
  is_Some (ranges !! colID) -> is_Some (ranges' !! colID).
Proof.
  induction e as [| | | | | | |op l _ r _|op l IHl r IHr|]; intros ranges ranges' Hs Hc;
    try (injection Hs as <-; assumption).
  - simpl in Hs. unfold CmpBoolExp_selectorRanges in Hs.
    destruct (match matchingFunc l r l r with
              | Some m => Some m
              | None => matchingFunc l r r l
              end) as [[sel c]|]; [|injection Hs as <-; assumption].
    destruct (ColSelector_resolve sel (tbl_db_name table) (tbl_name table))
      as [[[aggFn db] t] col].
    destruct (negb (aggFn =? "")%string || negb (db =? tbl_db_name table)%string
              || negb (t =? asTable)%string); [injection Hs as <-; assumption|].
    destruct (GetColumnByName table col) as [column|]; simpl in Hs; [|discriminate].
    destruct (substitute params c) as [val|err].
    + destruct (reduce None None (tbl_db_name table) (tbl_name table) val) as [rval|];
        simpl in Hs; [|discriminate].
      eapply updateRangeFor_keeps; eauto.
    + destruct (isErrMissingParameter err); [injection Hs as <-; assumption|discriminate].
  - destruct op; simpl in Hs.
    + destruct (selectorRanges l table asTable params ranges) as [ranges1|] eqn:Hl;
        simpl in Hs; [|discriminate].
      eapply IHr; [exact Hs|]. eapply IHl; eauto.
    + destruct (selectorRanges l table asTable params ∅) as [lRanges|]; simpl in Hs;
        [|discriminate].
      destruct (selectorRanges r table asTable params ∅) as [rRanges|]; simpl in Hs;
        [|discriminate].
      pose proof (extendRanges_lookup _ _ _ _ Hs colID) as Hl.
      destruct (lRanges !! colID), (rRanges !! colID); try (now rewrite Hl).
      destruct Hl as (ext & _ & ->). eauto.
Qed.

Lemma selectorRanges_keeps_ranged_columns_witness :
  exists ranges',
    selectorRanges (H := Example.externals)
      (BinBoolExp OR (Example.idLT 5) (Example.idLT 10)) Example.tagged "t" ∅
      {[1%N := Example.open (Some 1%Z) None; 2%N := Example.open None None]} = Ok ranges'
    /\ is_Some (ranges' !! 2%N).
Proof.
  destruct (selectorRanges (H := Example.externals)
              (BinBoolExp OR (Example.idLT 5) (Example.idLT 10)) Example.tagged "t" ∅
              {[1%N := Example.open (Some 1%Z) None; 2%N := Example.open None None]})
    as [ranges'|] eqn:Hs; [|vm_compute in Hs; discriminate Hs].
  exists ranges'. split; [reflexivity|].
  apply (selectorRanges_keeps_ranged_columns (H := Example.externals) _ _ _ _ 2%N _ _ Hs).
  vm_compute. eauto.
Defined.

(** ** Substitution of parameters *)

Lemma Param_substitute_closed params id e' :
  Param_substitute params id = Ok e' -> exists v, e' = Val v.
Proof.
  unfold Param_substitute. destruct (params !! id) as [[]|]; try discriminate;
    intros He; injection He as <-; eauto.
Qed.

(** X9: a substituted expression is closed.  When [substitute] succeeds
    the result names no parameter, substituting it again, with any
    parameters, returns it unchanged, and it is constant exactly when the
    expression was. *)
Theorem substitute_closes (params : gmap string GoValue) (e e' : ValueExp) :
  substitute params e = Ok e' ->
  hasParam e' = false
  /\ (forall params', substitute params' e' = Ok e')
  /\ isConstant e' = isConstant e.
Proof.
  revert e'. induction e as [| |id pos| |op l IHl r IHr|x IHx| |op l IHl r IHr|op l IHl r IHr|];
    intros e' Hs; simpl in Hs;
    try (injection Hs as <-; repeat split; reflexivity).
  - apply Param_substitute_closed in Hs as [v ->]. repeat split.
  - destruct (substitute params l) as [l'|]; simpl in Hs; [|discriminate].
    destruct (substitute params r) as [r'|]; simpl in Hs; [|discriminate].
    injection Hs as <-.
    destruct (IHl l' eq_refl) as (Hl1 & Hl2 & Hl3), (IHr r' eq_refl) as (Hr1 & Hr2 & Hr3).
    simpl. rewrite Hl1, Hr1, Hl3, Hr3. repeat split.
    intros params'. now rewrite Hl2, Hr2.
  - destruct (substitute params x) as [x'|]; simpl in Hs; [|discriminate].
    injection Hs as <-. destruct (IHx x' eq_refl) as (Hx1 & Hx2 & Hx3).
    simpl. repeat split; auto. intros params'. now rewrite Hx2.
  - destruct (substitute params l) as [l'|]; simpl in Hs; [|discriminate].
    destruct (substitute params r) as [r'|]; simpl in Hs; [|discriminate].
    injection Hs as <-.
    destruct (IHl l' eq_refl) as (Hl1 & Hl2 & Hl3), (IHr r' eq_refl) as (Hr1 & Hr2 & Hr3).
    simpl. rewrite Hl1, Hr1, Hl3, Hr3. repeat split.
    intros params'. now rewrite Hl2, Hr2.
  - destruct (substitute params l) as [l'|]; simpl in Hs; [|discriminate].
    destruct (substitute params r) as [r'|]; simpl in Hs; [|discriminate].
    injection Hs as <-.
    destruct (IHl l' eq_refl) as (Hl1 & Hl2 & Hl3), (IHr r' eq_refl) as (Hr1 & Hr2 & Hr3).
    simpl. rewrite Hl1, Hr1, Hl3, Hr3. repeat split.
    intros params'. now rewrite Hl2, Hr2.
Qed.

Lemma substitute_closes_witness :
  let e := CmpBoolExp EQ (Example.colRef "id") (Param "p" 1) in
  let e' := CmpBoolExp EQ (Example.colRef "id") (Example.lit (Number 7)) in
  substitute {["p" := GInt 7]} e = Ok e'
  /\ hasParam e' = false
  /\ substitute ∅ e' = Ok e'.
Proof.
  cbv zeta.
  assert (Hs : substitute {["p" := GInt 7]}
                 (CmpBoolExp EQ (Example.colRef "id") (Param "p" 1))
               = Ok (CmpBoolExp EQ (Example.colRef "id") (Example.lit (Number 7))))
    by (vm_compute; reflexivity).
  destruct (substitute_closes _ _ _ Hs) as (Hp & Hidem & _).
  split; [exact Hs|]. split; [exact Hp | apply Hidem].
Defined.

(** X10: [substitute] fails only with [MissingParameter] or
    [UnsupportedParameter], and it succeeds when every parameter the
    expression names has a value of a supported kind (nil, bool, string,
    int, uint, uint64, int64 or bytes). *)
Theorem substitute_errors (params : gmap string GoValue) (e : ValueExp) :
  (forall err, substitute params e = Fail err ->
     err = ErrMissingParameter \/ err = ErrUnsupportedParameter)
  /\ (Forall (fun id => exists val, params !! id = Some val /\ val <> GOther) (paramsOf e) ->
      exists e', substitute params e = Ok e').
Proof.
  induction e as [| |id pos| |op l IHl r IHr|x IHx| |op l IHl r IHr|op l IHl r IHr|];
    simpl; try (split; [discriminate | eauto]).
  - unfold Param_substitute. split.
    + intros err. destruct (params !! id) as [[]|]; try discriminate;
        intros He; injection He as <-; auto.
    + intros Hf. apply Forall_cons in Hf as [(val & -> & Hval) _].
      destruct val; eauto. congruence.
  - destruct IHl as [IHl1 IHl2], IHr as [IHr1 IHr2]. split.
    + intros err. destruct (substitute params l) as [l'|el]; simpl; [|intros [= <-]; auto].
      destruct (substitute params r) as [r'|er]; simpl; [discriminate|intros [= <-]; auto].
    + intros Hf. apply Forall_app in Hf as [Hl Hr].
      destruct (IHl2 Hl) as [l' ->], (IHr2 Hr) as [r' ->]. simpl. eauto.
  - destruct IHx as [IHx1 IHx2]. split.
    + intros err. destruct (substitute params x) as [x'|ex]; simpl;
        [discriminate|intros [= <-]; auto].
    + intros Hf. destruct (IHx2 Hf) as [x' ->]. simpl. eauto.
  - destruct IHl as [IHl1 IHl2], IHr as [IHr1 IHr2]. split.
    + intros err. destruct (substitute params l) as [l'|el]; simpl; [|intros [= <-]; auto].
      destruct (substitute params r) as [r'|er]; simpl; [discriminate|intros [= <-]; auto].
    + intros Hf. apply Forall_app in Hf as [Hl Hr].
      destruct (IHl2 Hl) as [l' ->], (IHr2 Hr) as [r' ->]. simpl. eauto.
  - destruct IHl as [IHl1 IHl2], IHr as [IHr1 IHr2]. split.
    + intros err. destruct (substitute params l) as [l'|el]; simpl; [|intros [= <-]; auto].
      destruct (substitute params r) as [r'|er]; simpl; [discriminate|intros [= <-]; auto].
    + intros Hf. apply Forall_app in Hf as [Hl Hr].
      destruct (IHl2 Hl) as [l' ->], (IHr2 Hr) as [r' ->]. simpl. eauto.
Qed.

Lemma substitute_errors_witness :
  substitute ∅ (NotBoolExp (Param "p" 1)) = Fail ErrMissingParameter
  /\ exists e', substitute {["p" := GBool true]} (NotBoolExp (Param "p" 1)) = Ok e'.
Proof.
  split; [reflexivity|].
  apply (substitute_errors {["p" := GBool true]} (NotBoolExp (Param "p" 1))).
  repeat constructor. exists (GBool true). split; [reflexivity | discriminate].
Defined.

(** ** Partial evaluation against a row *)

Lemma reduceSelectors_total (row : Row) (db t : string) (e : ValueExp) :
  exists e', reduceSelectors (Some row) db t e = Ok e'.
Proof.
  induction e as [| | |[sel|sel]|op l [l' IHl] r [r' IHr]|x [x' IHx]|
                  |op l [l' IHl] r [r' IHr]|op l [l' IHl] r [r' IHr]|];
    simpl; eauto;
    try (rewrite IHl, IHr; simpl; eauto).
  - destruct (Values row !! _); eauto.
  - rewrite IHx. simpl. eauto.
Qed.

Lemma reduceSelectors_sound `{Externals} (catalog : option Catalog) (row1 row : Row)
  (db t : string) (e : ValueExp) :
  forall e',
  reduceSelectors (Some row1) db t e = Ok e' ->
  (forall k v, Values row1 !! k = Some v -> Values row !! k = Some v) ->
  reduce catalog (Some row) db t e' = reduce catalog (Some row) db t e.
Proof.
  intros e' Hr Hext. revert e' Hr.
  induction e as [| | |[sel|sel]|op l IHl r IHr|x IHx| |op l IHl r IHr|op l IHl r IHr|];
    intros e' Hr; simpl in Hr;
    try (injection Hr as <-; reflexivity).
  - destruct (Values row1 !! _) as [v|] eqn:Hv; injection Hr as <-; [|reflexivity].
    simpl. now rewrite (Hext _ _ Hv).
  - destruct (reduceSelectors (Some row1) db t l) as [l'|]; simpl in Hr; [|discriminate].
    destruct (reduceSelectors (Some row1) db t r) as [r'|]; simpl in Hr; [|discriminate].
    injection Hr as <-. simpl. now rewrite (IHl l' eq_refl), (IHr r' eq_refl).
  - destruct (reduceSelectors (Some row1) db t x) as [x'|]; simpl in Hr; [|discriminate].
    injection Hr as <-. simpl. now rewrite (IHx x' eq_refl).
  - destruct (reduceSelectors (Some row1) db t l) as [l'|]; simpl in Hr; [|discriminate].
    destruct (reduceSelectors (Some row1) db t r) as [r'|]; simpl in Hr; [|discriminate].
    injection Hr as <-. simpl. now rewrite (IHl l' eq_refl), (IHr r' eq_refl).
  - destruct (reduceSelectors (Some row1) db t l) as [l'|]; simpl in Hr; [|discriminate].
    destruct (reduceSelectors (Some row1) db t r) as [r'|]; simpl in Hr; [|discriminate].
    injection Hr as <-. simpl. now rewrite (IHl l' eq_refl), (IHr r' eq_refl).
Qed.

Lemma reduceSelectors_independent `{Externals} (catalog : option Catalog)
  (row1 row row' : Row) (db t : string) (e : ValueExp) :
  forall e',
  onlyColSelectors e = true ->
  reduceSelectors (Some row1) db t e = Ok e' ->
  (forall k, Values row1 !! k = None -> Values row !! k = Values row' !! k) ->
  reduce catalog (Some row) db t e' = reduce catalog (Some row') db t e'.
Proof.
  intros e' Hc Hr Hsame. revert e' Hc Hr.
  induction e as [| | |[sel|sel]|op l IHl r IHr|x IHx| |op l IHl r IHr|op l IHl r IHr|];
    intros e' Hc Hr; simpl in Hr, Hc; try discriminate;
    try (injection Hr as <-; reflexivity).
  - destruct (Values row1 !! _) as [v|] eqn:Hv; injection Hr as <-; [reflexivity|].
    simpl. now rewrite (Hsame _ Hv).
  - apply andb_prop in Hc as [Hcl Hcr].
    destruct (reduceSelectors (Some row1) db t l) as [l'|]; simpl in Hr; [|discriminate].
    destruct (reduceSelectors (Some row1) db t r) as [r'|]; simpl in Hr; [|discriminate].
    injection Hr as <-. simpl. now rewrite (IHl l' Hcl eq_refl), (IHr r' Hcr eq_refl).
  - destruct (reduceSelectors (Some row1) db t x) as [x'|]; simpl in Hr; [|discriminate].
    injection Hr as <-. simpl. now rewrite (IHx x' Hc eq_refl).
  - apply andb_prop in Hc as [Hcl Hcr].
    destruct (reduceSelectors (Some row1) db t l) as [l'|]; simpl in Hr; [|discriminate].
    destruct (reduceSelectors (Some row1) db t r) as [r'|]; simpl in Hr; [|discriminate].
    injection Hr as <-. simpl. now rewrite (IHl l' Hcl eq_refl), (IHr r' Hcr eq_refl).
  - apply andb_prop in Hc as [Hcl Hcr].
    destruct (reduceSelectors (Some row1) db t l) as [l'|]; simpl in Hr; [|discriminate].
    destruct (reduceSelectors (Some row1) db t r) as [r'|]; simpl in Hr; [|discriminate].
    injection Hr as <-. simpl. now rewrite (IHl l' Hcl eq_refl), (IHr r' Hcr eq_refl).
Qed.

(** X11: [reduceSelectors] is a sound partial evaluation.  Against a row
    it always returns an expression [e']; on every row that holds the
    values of that row, [e'] reduces exactly as the expression does (same
    value, same error); and when the expression reads rows only through
    column selectors, [e'] no longer reads the columns of the row: two rows
    that differ only there give it the same result.  So a join condition
    reduced with the left row and then evaluated on the right row alone is
    the condition evaluated on the joint row. *)
Theorem reduceSelectors_partial_evaluation `{Externals} (catalog : option Catalog)
  (row1 row2 : Row) (db t : string) (e : ValueExp) :
  exists e',
    reduceSelectors (Some row1) db t e = Ok e'
    /\ (forall row,
          (forall k v, Values row1 !! k = Some v -> Values row !! k = Some v) ->
          reduce catalog (Some row) db t e' = reduce catalog (Some row) db t e)
    /\ (onlyColSelectors e = true ->
        reduce catalog (Some row2) db t e'
        = reduce catalog (Some (mkRow (Values row1 ∪ Values row2))) db t e).
Proof.
  destruct (reduceSelectors_total row1 db t e) as [e' He'].
  exists e'. split; [exact He'|]. split.
  - intros row Hext. eapply reduceSelectors_sound; eauto.
  - intros Hc.
    rewrite <- (reduceSelectors_sound catalog row1 (mkRow (Values row1 ∪ Values row2))
                  db t e e' He').
    + eapply reduceSelectors_independent; eauto.
      intros k Hk. simpl. symmetry. now apply lookup_union_r.
    + intros k v Hv. simpl. now apply lookup_union_Some_l.
Qed.

Lemma reduceSelectors_partial_evaluation_witness :
  let cond := CmpBoolExp EQ (Sel (ColSel (mkColSelector "" "a" "id" "")))
                            (Sel (ColSel (mkColSelector "" "b" "id" ""))) in
  let left := mkRow {[EncodeSelector "" "db" "a" "id" := Number 7]} in
  let right := mkRow {[EncodeSelector "" "db" "b" "id" := Number 7]} in
  exists e',
    reduceSelectors (Some left) "db" "a" cond = Ok e'
    /\ reduce (H := Example.externals) None (Some right) "db" "a" e' = Ok (Bool true).
Proof.
  cbv zeta.
  destruct (reduceSelectors_partial_evaluation (H := Example.externals) None
              (mkRow {[EncodeSelector "" "db" "a" "id" := Number 7]})
              (mkRow {[EncodeSelector "" "db" "b" "id" := Number 7]}) "db" "a"
              (CmpBoolExp EQ (Sel (ColSel (mkColSelector "" "a" "id" "")))
                             (Sel (ColSel (mkColSelector "" "b" "id" "")))))
    as (e' & He' & _ & Hjoin).
  exists e'. split; [exact He'|].
  rewrite (Hjoin eq_refl). vm_compute. reflexivity.
Defined.

(** ** Constant expressions *)

(** X12: a constant expression reduces to the same result whatever the
    catalog, the row, the implicit database and table, the clock and the
    regular-expression matcher are. *)
Theorem constant_reduce_independent (X X' : Externals) (catalog catalog' : option Catalog)
  (row row' : option Row) (db db' t t' : string) (e : ValueExp) :
  isConstant e = true ->
  reduce (H := X) catalog row db t e = reduce (H := X') catalog' row' db' t' e.
Proof.
  induction e as [| | | |op l IHl r IHr|x IHx| |op l IHl r IHr|op l IHl r IHr|];
    simpl; intros Hc; try discriminate; try reflexivity.
  - apply andb_prop in Hc as [Hl Hr]. now rewrite (IHl Hl), (IHr Hr).
  - now rewrite (IHx Hc).
  - apply andb_prop in Hc as [Hl Hr]. now rewrite (IHl Hl), (IHr Hr).
  - apply andb_prop in Hc as [Hl Hr]. now rewrite (IHl Hl), (IHr Hr).
Qed.

Lemma constant_reduce_independent_witness :
  let e := CmpBoolExp LT (NumExp ADDOP (Val (Number 1)) (Val (Number 2))) (Val (Number 4)) in
  reduce (H := Example.externals) None (Some (Example.rowOf []))
    "db1" "users" e = Ok (Bool true).
Proof.
  cbv zeta.
  rewrite (constant_reduce_independent Example.externals Example.externals
             None None (Some (Example.rowOf [])) None "db1" "" "users" ""
             (CmpBoolExp LT (NumExp ADDOP (Val (Number 1)) (Val (Number 2))) (Val (Number 4)))
             eq_refl).
  reflexivity.
Defined.

(** ** Boolean connectives *)

(** X13: [AND] and [OR] evaluate both operands.  A failing right operand
    fails the expression even when the left one already decides it; when
    the expression has a value, exchanging the operands gives the same
    value; and [NOT (l AND r)] has a value exactly when
    [(NOT l) OR (NOT r)] has it. *)
Theorem BinBoolExp_reduce_laws `{Externals} (catalog : option Catalog) (row : option Row)
  (db t : string) (op : LogicOperator) (l r : ValueExp) :
  (forall vl err,
     reduce catalog row db t l = Ok vl ->
     reduce catalog row db t r = Fail err ->
     reduce catalog row db t (BinBoolExp op l r) = Fail err)
  /\ (forall v,
        reduce catalog row db t (BinBoolExp op l r) = Ok v ->
        reduce catalog row db t (BinBoolExp op r l) = Ok v)
  /\ (forall v,
        reduce catalog row db t (NotBoolExp (BinBoolExp AND l r)) = Ok v <->
        reduce catalog row db t (BinBoolExp OR (NotBoolExp l) (NotBoolExp r)) = Ok v).
Proof.
  simpl. split; [|split].
  - intros vl err -> ->. reflexivity.
  - intros v.
    destruct (reduce catalog row db t l) as [[]|]; simpl; try discriminate;
      destruct (reduce catalog row db t r) as [[]|]; simpl; try discriminate.
    destruct op; intros [= <-]; f_equal; f_equal;
      [apply andb_comm | apply orb_comm].
  - intros v.
    destruct (reduce catalog row db t l) as [[]|]; simpl;
      try (split; discriminate);
      destruct (reduce catalog row db t r) as [[]|]; simpl;
      try (split; discriminate).
    rewrite negb_andb. reflexivity.
Qed.

Lemma BinBoolExp_reduce_laws_witness :
  reduce (H := Example.externals) None None "" ""
    (BinBoolExp AND (Val (Bool false))
       (CmpBoolExp EQ (NumExp DIVOP (Val (Number 1)) (Val (Number 0))) (Val (Number 1))))
  = Fail ErrDivisionByZero.
Proof.
  apply (BinBoolExp_reduce_laws (H := Example.externals) None None "" "" AND
           (Val (Bool false))
           (CmpBoolExp EQ (NumExp DIVOP (Val (Number 1)) (Val (Number 0))) (Val (Number 1))))
    with (vl := Bool false); reflexivity.
Defined.

(** ** The columns of an UPSERT or INSERT *)

Lemma validate_from_spec (table : Table) (cs : list string) :
  forall i m m',
  validate_from table cs i m = Ok m' ->
  (forall k c, cs !! k = Some c ->
     exists col, GetColumnByName table c = Ok col /\ m' !! col_id col = Some (i + k)%nat)
  /\ (forall id p, m' !! id = Some p ->
        m !! id = Some p
        \/ exists k c col, cs !! k = Some c /\ GetColumnByName table c = Ok col
                           /\ col_id col = id /\ p = (i + k)%nat)
  /\ (forall id p, m !! id = Some p -> m' !! id = Some p).
Proof.
  induction cs as [|c cs IH]; intros i m m' Hv; simpl in Hv.
  - injection Hv as <-. repeat split; auto. intros k c Hk. discriminate.
  - destruct (GetColumnByName table c) as [col|] eqn:Hc; simpl in Hv; [|discriminate].
    destruct (m !! col_id col) eqn:Hm; [discriminate|].
    destruct (IH _ _ _ Hv) as (H1 & H2 & H3). split; [|split].
    + intros [|k] c' Hk; simpl in Hk.
      * injection Hk as <-. exists col. split; [exact Hc|].
        rewrite Nat.add_0_r. apply H3. apply lookup_insert_eq.
      * destruct (H1 k c' Hk) as (col' & Hc' & Hp). exists col'. split; [exact Hc'|].
        rewrite Hp. f_equal. lia.
    + intros id p Hp. destruct (H2 id p Hp) as [Hins|(k & c' & col' & Hk & Hc' & Hid & ->)].
      * destruct (decide (col_id col = id)) as [<-|Hne].
        -- rewrite lookup_insert_eq in Hins. injection Hins as <-.
           right. exists 0%nat, c, col. repeat split; auto.
        -- rewrite lookup_insert_ne in Hins by exact Hne. now left.
      * right. exists (S k), c', col'. repeat split; auto; lia.
    + intros id p Hp. apply H3.
      rewrite lookup_insert_ne; [exact Hp|]. intros <-. congruence.
Qed.

Lemma validate_from_error (table : Table) (cs : list string) :
  forall i m err,
  validate_from table cs i m = Fail err ->
  err = ErrDuplicatedColumn \/ exists c, In c cs /\ GetColumnByName table c = Fail err.
Proof.
  induction cs as [|c cs IH]; intros i m err Hv; simpl in Hv; [discriminate|].
  destruct (GetColumnByName table c) as [col|err'] eqn:Hc; simpl in Hv.
  - destruct (m !! col_id col).
    + injection Hv as <-. now left.
    + destruct (IH _ _ _ Hv) as [->|(c' & Hin & Hc')]; [now left|].
      right. exists c'. split; [now right | exact Hc'].
  - injection Hv as <-. right. exists c. split; [now left | exact Hc].
Qed.

(** X14: [validate] maps the id of every named column to the position of
    its name, and nothing else; no column is named twice.  When it fails,
    the error is [DuplicatedColumn] or the error of the lookup of one of
    the names. *)
Theorem validate_positions (stmt : UpsertIntoStmt) (table : Table) :
  (forall selPos,
     validate stmt table = Ok selPos ->
     (forall k c, up_cols stmt !! k = Some c ->
        exists col, GetColumnByName table c = Ok col /\ selPos !! col_id col = Some k)
     /\ (forall id p, selPos !! id = Some p ->
           exists c col, up_cols stmt !! p = Some c /\ GetColumnByName table c = Ok col
                         /\ col_id col = id)
     /\ (forall k k' c c' col col',
           up_cols stmt !! k = Some c -> up_cols stmt !! k' = Some c' ->
           GetColumnByName table c = Ok col -> GetColumnByName table c' = Ok col' ->
           col_id col = col_id col' -> k = k'))
  /\ (forall err,
        validate stmt table = Fail err ->
        err = ErrDuplicatedColumn
        \/ exists c, In c (up_cols stmt) /\ GetColumnByName table c = Fail err).
Proof.
  unfold validate. split.
  - intros selPos Hv. destruct (validate_from_spec _ _ _ _ _ Hv) as (H1 & H2 & _).
    split; [|split].
    + intros k c Hk. destruct (H1 k c Hk) as (col & Hc & Hp). eauto.
    + intros id p Hp. destruct (H2 id p Hp) as [Hm|(k & c & col & Hk & Hc & Hid & ->)].
      * rewrite lookup_empty in Hm. discriminate.
      * exists c, col. auto.
    + intros k k' c c' col col' Hk Hk' Hc Hc' Hid.
      destruct (H1 k c Hk) as (col1 & Hc1 & Hp1), (H1 k' c' Hk') as (col2 & Hc2 & Hp2).
      simpl in Hp1, Hp2. congruence.
  - intros err Hv. eapply validate_from_error; eauto.
Qed.

Lemma validate_positions_witness :
  validate Example.upsertEmail Example.users = Ok Example.selPos12
  /\ validate (mkUpsertIntoStmt false Example.tref ["id"; "email"; "id"] []) Example.users
     = Fail ErrDuplicatedColumn
  /\ exists col, GetColumnByName Example.users "email" = Ok col
                 /\ Example.selPos12 !! col_id col = Some 1%nat.
Proof.
  assert (Hv : validate Example.upsertEmail Example.users = Ok Example.selPos12)
    by (vm_compute; reflexivity).
  split; [exact Hv|]. split; [vm_compute; reflexivity|].
  destruct (validate_positions Example.upsertEmail Example.users) as [Hok _].
  destruct (Hok _ Hv) as (Hpos & _).
  apply (Hpos 1%nat "email"). reflexivity.
Defined.

(** ** The values of a row *)

Lemma rowValue_spec `{Externals} stmt e implicitDB params table selPos row values0 cid col
  values1 :
  rowValue stmt e implicitDB params table selPos row values0 (cid, col) = Ok values1 ->
  (forall id v, values0 !! id = Some v ->
     suppliedValue e implicitDB params table selPos row id = Some v) ->
  (forall id v, values1 !! id = Some v <->
     values0 !! id = Some v
     \/ (id = cid /\ suppliedValue e implicitDB params table selPos row id = Some v))
  /\ (notNull col = true -> is_Some (values1 !! cid))
  /\ (isInsert stmt = true -> autoIncrement col = true -> selPos !! cid = None).
Proof.
  unfold rowValue, suppliedValue. intros Hr Hinv.
  destruct (selPos !! cid) as [pos|] eqn:Hpos.
  - destruct (isInsert stmt && autoIncrement col) eqn:Hauto; [discriminate|].
    destruct (rs_Values row !! pos) as [cVal|] eqn:HcVal; [|discriminate].
    destruct (substitute params cVal) as [val|] eqn:Hval; simpl in Hr; [|discriminate].
    destruct (reduce (Some (catalog e)) None (db_name implicitDB) (tbl_name table) val)
      as [rval|] eqn:Hrval; simpl in Hr; [|discriminate].
    destruct (isNullValue rval) eqn:Hnull.
    + destruct (notNull col) eqn:Hnn; [discriminate|]. injection Hr as <-.
      split; [|split]; [|discriminate|].
      * intros id v. split; [auto|]. intros [Hv|[-> Hv]]; [exact Hv|].
        rewrite Hpos, HcVal, Hval, Hrval, Hnull in Hv. discriminate.
      * intros Hi Ha. rewrite Hi, Ha in Hauto. discriminate.
    + injection Hr as <-. split; [|split].
      * intros id v. destruct (decide (cid = id)) as [<-|Hne].
        -- rewrite lookup_insert_eq, Hpos, HcVal, Hval, Hrval, Hnull. split.
           ++ intros [= <-]. right. auto.
           ++ intros [Hv|[_ Hv]]; [|exact Hv].
              specialize (Hinv _ _ Hv). rewrite Hpos, HcVal, Hval, Hrval, Hnull in Hinv.
              exact Hinv.
        -- rewrite lookup_insert_ne by exact Hne. split; [auto|].
           intros [Hv|[-> _]]; [exact Hv | congruence].
      * intros _. rewrite lookup_insert_eq. eauto.
      * intros Hi Ha. rewrite Hi, Ha in Hauto. discriminate.
  - destruct (notNull col) eqn:Hnn; [discriminate|]. injection Hr as <-.
    split; [|split]; [|discriminate|reflexivity].
    intros id v. split; [auto|]. intros [Hv|[-> Hv]]; [exact Hv|].
    rewrite Hpos in Hv. discriminate.
Qed.

Lemma rowValues_spec `{Externals} stmt e implicitDB params table selPos row entries :
  forall values0 values,
  rowValues stmt e implicitDB params table selPos row entries values0 = Ok values ->
  (forall id v, values0 !! id = Some v ->
     suppliedValue e implicitDB params table selPos row id = Some v) ->
  (forall id v, values !! id = Some v <->
     values0 !! id = Some v
     \/ (In id (List.map fst entries)
         /\ suppliedValue e implicitDB params table selPos row id = Some v))
  /\ (forall id col, In (id, col) entries -> notNull col = true -> is_Some (values !! id))
  /\ (forall id col, In (id, col) entries -> isInsert stmt = true ->
        autoIncrement col = true -> selPos !! id = None).
Proof.
  induction entries as [|[cid col] entries IH]; intros values0 values Hr Hinv;
    cbn [rowValues] in Hr.
  - injection Hr as <-. split; [|split]; try (intros ? ? []).
    intros id v. split; [auto|]. intros [Hv|[[] _]]. exact Hv.
  - destruct (rowValue stmt e implicitDB params table selPos row values0 (cid, col))
      as [values1|] eqn:H1; cbn [bind] in Hr; [|discriminate].
    destruct (rowValue_spec _ _ _ _ _ _ _ _ _ _ _ H1 Hinv) as (Hv1 & Hnn1 & Hauto1).
    assert (Hinv1 : forall id v, values1 !! id = Some v ->
                      suppliedValue e implicitDB params table selPos row id = Some v).
    { intros id v Hv. apply Hv1 in Hv as [Hv|[_ Hv]]; auto. }
    destruct (IH _ _ Hr Hinv1) as (Hvs & Hnn & Hauto). split; [|split].
    + intros id v. rewrite Hvs, Hv1. simpl. split.
      * intros [[Hv|[-> Hv]]|[Hin Hv]]; auto.
      * intros [Hv|[[<-|Hin] Hv]]; auto.
    + intros id col' [[= <- <-]|Hin] Hcol; [|eauto].
      destruct (Hnn1 Hcol) as [v Hv]. exists v. apply Hvs. left. exact Hv.
    + intros id col' [[= <- <-]|Hin]; eauto.
Qed.

(** X15: the values [compileUsing] collects for a row.  A column has a
    value exactly when the table has the column and the row supplies a
    value for it that is not [NULL], and the value is the supplied one;
    every [NOT NULL] column has a value; and in an [INSERT] no
    auto-incremental column is named. *)
Theorem rowValues_collects_supplied_values `{Externals} (stmt : UpsertIntoStmt) (e : Engine)
  (implicitDB : Database) (params : gmap string GoValue) (table : Table)
  (selPos : gmap N nat) (row : RowSpec) (values : gmap N TypedValue) :
  rowValues stmt e implicitDB params table selPos row (colsByID table) ∅ = Ok values ->
  (forall id v, values !! id = Some v <->
     In id (List.map fst (colsByID table))
     /\ suppliedValue e implicitDB params table selPos row id = Some v)
  /\ (forall id v, values !! id = Some v -> isNullValue v = false)
  /\ (forall id col, In (id, col) (colsByID table) -> notNull col = true ->
        is_Some (values !! id))
  /\ (forall id col, In (id, col) (colsByID table) -> isInsert stmt = true ->
        autoIncrement col = true -> selPos !! id = None /\ values !! id = None).
Proof.
  intros Hr.
  assert (Hinv : forall id v, (∅ : gmap N TypedValue) !! id = Some v ->
                   suppliedValue e implicitDB params table selPos row id = Some v)
    by (intros id v Hv; rewrite lookup_empty in Hv; discriminate).
  destruct (rowValues_spec _ _ _ _ _ _ _ _ _ _ Hr Hinv) as (Hvs & Hnn & Hauto).
  assert (Hiff : forall id v, values !! id = Some v <->
                   In id (List.map fst (colsByID table))
                   /\ suppliedValue e implicitDB params table selPos row id = Some v).
  { intros id v. rewrite Hvs, lookup_empty. split; [intros [Hv|Hv]; [discriminate|exact Hv]|auto]. }
  split; [exact Hiff|]. split; [|split; [exact Hnn|]].
  - intros id v Hv. apply Hiff in Hv as [_ Hv]. unfold suppliedValue in Hv.
    destruct (selPos !! id); [|discriminate].
    destruct (rs_Values row !! _); [|discriminate].
    destruct (substitute params _); [|discriminate].
    destruct (reduce _ _ _ _ _) as [rval|]; [|discriminate].
    destruct (isNullValue rval) eqn:Hnull; [discriminate|]. now injection Hv as <-.
  - intros id col Hin Hi Ha. pose proof (Hauto id col Hin Hi Ha) as Hpos.
    split; [exact Hpos|].
    destruct (values !! id) as [v|] eqn:Hv; [|reflexivity].
    apply Hiff in Hv as [_ Hv]. unfold suppliedValue in Hv. rewrite Hpos in Hv. discriminate.
Qed.

Lemma rowValues_collects_supplied_values_witness :
  exists values,
    rowValues (H := Example.externals) Example.upsertTag Example.taggedEngine
      (Example.database Example.tagged) ∅ Example.tagged Example.selPos12
      (mkRowSpec [Example.lit (Number 1); Example.lit (NullValue VarcharType)])
      (colsByID Example.tagged) ∅ = Ok values
    /\ values !! 1%N = Some (Number 1) /\ values !! 2%N = None.
Proof.
  destruct (rowValues (H := Example.externals) Example.upsertTag Example.taggedEngine
              (Example.database Example.tagged) ∅ Example.tagged Example.selPos12
              (mkRowSpec [Example.lit (Number 1); Example.lit (NullValue VarcharType)])
              (colsByID Example.tagged) ∅) as [values|] eqn:Hr;
    [|vm_compute in Hr; discriminate Hr].
  exists values. split; [reflexivity|].
  destruct (rowValues_collects_supplied_values (H := Example.externals) _ _ _ _ _ _ _ _ Hr)
    as (Hiff & _).
  split.
  - apply Hiff. split; [vm_compute; auto | vm_compute; reflexivity].
  - destruct (values !! 2%N) as [v|] eqn:Hv; [|reflexivity].
    apply Hiff in Hv as [_ Hv]. vm_compute in Hv. discriminate Hv.
Defined.

(** ** What compiling an UPSERT or INSERT changes *)

Lemma Table_with_maxPK_twice (t : Table) (a b : Z) :
  Table_with_maxPK (Table_with_maxPK t a) b = Table_with_maxPK t b.
Proof. reflexivity. Qed.

Lemma compileRow_state `{Externals} stmt e implicitDB params selPos st summary row st' r :
  compileRow stmt e implicitDB params selPos st summary row = (st', r) ->
  st' = st
  \/ (isInsert stmt && autoIncrementPK (st_table st) = true
      /\ st' = mkCompState (Table_with_maxPK (st_table st) (wrap64 (maxPK (st_table st) + 1)))
                 true).
Proof.
  unfold compileRow. intros Hc.
  destruct (negb (length (rs_Values row) =? length (up_cols stmt))%nat);
    [injection Hc as <- _; now left|].
  destruct (rowValues _ _ _ _ _ _ _ _ _) as [values0|]; [|injection Hc as <- _; now left].
  unfold injectPK in Hc.
  destruct (isInsert stmt && autoIncrementPK (st_table st)).
  - right. split; [reflexivity|].
    destruct (idx_cols (primaryIndex (st_table st))); injection Hc as <- _; reflexivity.
  - injection Hc as <- _. now left.
Qed.

Lemma compileRows_state `{Externals} stmt e implicitDB params selPos rs :
  forall st summary st' r,
  compileRows stmt e implicitDB params selPos st summary rs = (st', r) ->
  st_table st' = Table_with_maxPK (st_table st) (maxPK (st_table st'))
  /\ (isInsert stmt && autoIncrementPK (st_table st) = false -> st' = st).
Proof.
  induction rs as [|row rs IH]; intros st summary st' r Hc; simpl in Hc.
  - injection Hc as <- _. split; [now rewrite Table_with_maxPK_same | reflexivity].
  - destruct (compileRow stmt e implicitDB params selPos st summary row) as [st1 [summary1|err]]
      eqn:Hrow.
    + destruct (IH _ _ _ _ Hc) as (Ht & Hsame).
      destruct (compileRow_state _ _ _ _ _ _ _ _ _ _ Hrow) as [->|[Hauto ->]].
      * split; assumption.
      * simpl in Ht, Hsame. split; [exact Ht|]. intros Hno. congruence.
    + injection Hc as <- _.
      destruct (compileRow_state _ _ _ _ _ _ _ _ _ _ Hrow) as [->|[Hauto ->]].
      * split; [now rewrite Table_with_maxPK_same | reflexivity].
      * split; [reflexivity|]. intros Hno. congruence.
Qed.

Lemma compileRow_summary `{Externals} stmt e implicitDB params selPos st summary row st'
  summary' :
  compileRow stmt e implicitDB params selPos st summary row = (st', Ok summary') ->
  ces summary' = ces summary
  /\ updatedRows summary' = (updatedRows summary + 1)%Z
  /\ sm_db summary' = sm_db summary
  /\ (exists new, des summary' = des summary ++ new /\ (1 <= length new)%nat)
  /\ (isInsert stmt = false -> lastInsertedPKs summary' = lastInsertedPKs summary).
Proof.
  intros Hc. apply compileRow_inv in Hc as (_ & values0 & values & summary1 & _ & Hinj & Hent).
  apply injectPK_spec in Hinj as (Hd & Hce & Hu & Hdb & Hpk).
  apply rowEntries_spec in Hent
    as (pkEncVals & valbuf & reuse & tombs & _ & _ & Hdes & Hces & Hupd & Hlast & Hsdb).
  rewrite Hces, Hupd, Hsdb, Hdes, Hd, Hce, Hu, Hdb, Hlast.
  split; [reflexivity|]. split; [reflexivity|]. split; [reflexivity|]. split.
  - eexists. split; [reflexivity|]. rewrite length_app. simpl. lia.
  - intros Hi. rewrite Hi in Hpk. simpl in Hpk. now destruct Hpk as (_ & _ & ->).
Qed.

Lemma compileRows_summary `{Externals} stmt e implicitDB params selPos rs :
  forall st summary st' summary',
  compileRows stmt e implicitDB params selPos st summary rs = (st', Ok summary') ->
  ces summary' = ces summary
  /\ updatedRows summary' = (updatedRows summary + Z.of_nat (length rs))%Z
  /\ sm_db summary' = sm_db summary
  /\ (exists new, des summary' = des summary ++ new /\ (length rs <= length new)%nat)
  /\ (isInsert stmt = false -> lastInsertedPKs summary' = lastInsertedPKs summary).
Proof.
  induction rs as [|row rs IH]; intros st summary st' summary' Hc; simpl in Hc.
  - injection Hc as _ <-. split; [reflexivity|]. split; [simpl; lia|].
    split; [reflexivity|]. split; [|reflexivity].
    exists []. split; [now rewrite app_nil_r | simpl; lia].
  - destruct (compileRow stmt e implicitDB params selPos st summary row) as [st1 [summary1|err]]
      eqn:Hrow; [|discriminate].
    apply compileRow_summary in Hrow as (Hc1 & Hu1 & Hd1 & (new1 & Hn1 & Hl1) & Hp1).
    apply IH in Hc as (Hc2 & Hu2 & Hd2 & (new2 & Hn2 & Hl2) & Hp2).
    rewrite Hc2, Hu2, Hd2, Hc1, Hu1, Hd1.
    split; [reflexivity|]. split; [|split; [reflexivity|split]].
    + simpl length. lia.
    + exists (new1 ++ new2). rewrite Hn2, Hn1, <- app_assoc. split; [reflexivity|].
      rewrite length_app. simpl. lia.
    + intros Hi. now rewrite (Hp2 Hi), (Hp1 Hi).
Qed.

(** X16: the summary of a compiled UPSERT or INSERT.  When [compileUsing]
    succeeds the summary counts one updated row per row of the statement,
    stages no catalog entry and at least one data entry per row, keeps the
    database it was given, and, for an UPSERT, reports no inserted primary
    key. *)
Theorem upsert_summary_counts_rows `{Externals} (stmt : UpsertIntoStmt) (e : Engine)
  (implicitDB : option Database) (params : gmap string GoValue) (st : option CompState)
  (summary : TxSummary) :
  UpsertIntoStmt_compileUsing stmt e implicitDB params = (st, Ok summary) ->
  updatedRows summary = Z.of_nat (length (rows stmt))
  /\ ces summary = []
  /\ (length (rows stmt) <= length (des summary))%nat
  /\ sm_db summary = implicitDB
  /\ (isInsert stmt = false -> lastInsertedPKs summary = ∅).
Proof.
  unfold UpsertIntoStmt_compileUsing. intros Hc.
  destruct implicitDB as [db|]; [|discriminate].
  destruct (referencedTable (up_tableRef stmt) e (Some db)) as [table|]; [|discriminate].
  destruct (validate stmt table) as [selPos|]; [|discriminate].
  destruct (compileRows stmt e db params selPos _ _ (rows stmt)) as [st' r] eqn:Hrows.
  injection Hc as _ ->.
  apply compileRows_summary in Hrows as (Hces & Hupd & Hdb & (new & Hdes & Hlen) & Hpk).
  simpl in *. rewrite Hces, Hupd, Hdb, Hdes. repeat split; auto.
Qed.

Lemma upsert_summary_counts_rows_witness :
  exists st summary,
    UpsertIntoStmt_compileUsing (H := Example.externals) Example.insertNames
      Example.peopleEngine (Some (Example.database Example.people)) ∅ = (st, Ok summary)
    /\ updatedRows summary = 2%Z /\ ces summary = [].
Proof.
  destruct (UpsertIntoStmt_compileUsing (H := Example.externals) Example.insertNames
              Example.peopleEngine (Some (Example.database Example.people)) ∅)
    as [st [summary|err]] eqn:Hc; [|vm_compute in Hc; discriminate Hc].
  exists st, summary. split; [reflexivity|].
  destruct (upsert_summary_counts_rows (H := Example.externals) _ _ _ _ _ _ Hc)
    as (Hupd & Hces & _).
  split; [exact Hupd | exact Hces].
Defined.

(** X17: what [compileUsing] changes in the catalog, whether it succeeds or
    fails.  Of the table only [maxPK] can change, and an UPSERT, or an
    INSERT into a table without auto-incremental primary key, changes
    neither the table nor the catalog's [mutated] flag. *)
Theorem upsert_changes_only_maxPK `{Externals} (stmt : UpsertIntoStmt) (e : Engine)
  (implicitDB : option Database) (params : gmap string GoValue) (st : CompState)
  (r : res TxSummary) :
  UpsertIntoStmt_compileUsing stmt e implicitDB params = (Some st, r) ->
  exists table,
    referencedTable (up_tableRef stmt) e implicitDB = Ok table
    /\ st_table st = Table_with_maxPK table (maxPK (st_table st))
    /\ (isInsert stmt && autoIncrementPK table = false ->
        st = mkCompState table (mutated (catalog e))).
Proof.
  unfold UpsertIntoStmt_compileUsing. intros Hc.
  destruct implicitDB as [db|]; [|discriminate].
  destruct (referencedTable (up_tableRef stmt) e (Some db)) as [table|]; [|discriminate].
  exists table. split; [reflexivity|].
  destruct (validate stmt table) as [selPos|].
  - destruct (compileRows stmt e db params selPos _ _ (rows stmt)) as [st' r'] eqn:Hrows.
    injection Hc as -> _.
    apply compileRows_state in Hrows as (Ht & Hsame). simpl in Ht, Hsame. auto.
  - injection Hc as <- _. simpl. split; [now rewrite Table_with_maxPK_same | reflexivity].
Qed.

Lemma upsert_changes_only_maxPK_witness :
  exists st r,
    UpsertIntoStmt_compileUsing (H := Example.externals) Example.upsertTag
      Example.taggedEngine (Some (Example.database Example.tagged)) ∅ = (Some st, r)
    /\ st = mkCompState Example.tagged false.
Proof.
  destruct (UpsertIntoStmt_compileUsing (H := Example.externals) Example.upsertTag
              Example.taggedEngine (Some (Example.database Example.tagged)) ∅)
    as [[st|] r] eqn:Hc; [|vm_compute in Hc; discriminate Hc].
  exists st, r. split; [reflexivity|].
  destruct (upsert_changes_only_maxPK (H := Example.externals) _ _ _ _ _ _ Hc)
    as (table & Href & _ & Hsame).
  vm_compute in Href. injection Href as <-.
  apply Hsame. reflexivity.
Defined.

(** X18: the counter of an auto-incremental primary key advances before
    the row is encoded.  Once the values of a row of an INSERT are
    collected, [maxPK] is incremented and the catalog is flagged [mutated]
    whether or not the row is then staged: a row rejected later (a value
    that cannot be encoded, a key too long) still consumes a key. *)
Theorem auto_increment_advances_before_encoding `{Externals} (stmt : UpsertIntoStmt)
  (e : Engine) (implicitDB : Database) (params : gmap string GoValue) (selPos : gmap N nat)
  (st st' : CompState) (summary : TxSummary) (row : RowSpec) (values0 : gmap N TypedValue)
  (r : res TxSummary) :
  isInsert stmt = true -> autoIncrementPK (st_table st) = true ->
  length (rs_Values row) = length (up_cols stmt) ->
  rowValues stmt e implicitDB params (st_table st) selPos row (colsByID (st_table st)) ∅
  = Ok values0 ->
  compileRow stmt e implicitDB params selPos st summary row = (st', r) ->
  st' = mkCompState (Table_with_maxPK (st_table st) (wrap64 (maxPK (st_table st) + 1))) true.
Proof.
  unfold compileRow, injectPK. intros Hi Ha Hlen Hvals Hc.
  rewrite Hlen, Nat.eqb_refl, Hvals, Hi, Ha in Hc. simpl in Hc.
  destruct (idx_cols (primaryIndex (st_table st))); injection Hc as <- _; reflexivity.
Qed.

Lemma auto_increment_advances_before_encoding_witness :
  let stmt := mkUpsertIntoStmt true Example.tref ["name"]
                [mkRowSpec [Example.lit (Number 5)]] in
  exists st' err,
    compileRow (H := Example.externals) stmt Example.peopleEngine
      (Example.database Example.people) ∅ {[2%N := 0%nat]}
      (mkCompState Example.people false) (newTxSummary None)
      (mkRowSpec [Example.lit (Number 5)]) = (st', Fail err)
    /\ maxPK (st_table st') = 1%Z /\ st_mutated st' = true.
Proof.
  cbv zeta.
  destruct (compileRow (H := Example.externals)
              (mkUpsertIntoStmt true Example.tref ["name"] [mkRowSpec [Example.lit (Number 5)]])
              Example.peopleEngine (Example.database Example.people) ∅ {[2%N := 0%nat]}
              (mkCompState Example.people false) (newTxSummary None)
              (mkRowSpec [Example.lit (Number 5)])) as [st' [summary|err]] eqn:Hc;
    [vm_compute in Hc; discriminate Hc|].
  exists st', err. split; [reflexivity|].
  pose proof (auto_increment_advances_before_encoding (H := Example.externals)
                (mkUpsertIntoStmt true Example.tref ["name"]
                   [mkRowSpec [Example.lit (Number 5)]])
                Example.peopleEngine (Example.database Example.people) ∅ {[2%N := 0%nat]}
                (mkCompState Example.people false) st' (newTxSummary None)
                (mkRowSpec [Example.lit (Number 5)]) {[2%N := Number 5]} (Fail err)
                eq_refl eq_refl eq_refl eq_refl Hc) as ->.
  split; reflexivity.
Defined.

(** ** Rows without a primary key *)

Lemma suppliedValue_unnamed `{Externals} e implicitDB params table selPos row id :
  selPos !! id = None -> suppliedValue e implicitDB params table selPos row id = None.
Proof. unfold suppliedValue. now intros ->. Qed.

(** X19: a row that gives the primary key no value is never staged.  In
    an UPSERT, or an INSERT into a table without auto-incremental primary
    key, a row whose values are collected but whose first primary-key
    column is not named, or is given [NULL], fails with [PKCanNotBeNull]
    and leaves the table as it was. *)
Theorem row_without_primary_key_rejected `{Externals} (stmt : UpsertIntoStmt) (e : Engine)
  (implicitDB : Database) (params : gmap string GoValue) (selPos : gmap N nat)
  (st : CompState) (summary : TxSummary) (row : RowSpec) (values0 : gmap N TypedValue)
  (pkCol : Column) (pkCols : list Column) :
  isInsert stmt && autoIncrementPK (st_table st) = false ->
  idx_cols (primaryIndex (st_table st)) = pkCol :: pkCols ->
  length (rs_Values row) = length (up_cols stmt) ->
  rowValues stmt e implicitDB params (st_table st) selPos row (colsByID (st_table st)) ∅
  = Ok values0 ->
  suppliedValue e implicitDB params (st_table st) selPos row (col_id pkCol) = None ->
  compileRow stmt e implicitDB params selPos st summary row = (st, Fail ErrPKCanNotBeNull).
Proof.
  intros Hauto Hpk Hlen Hvals Hsup.
  assert (Hnone : values0 !! col_id pkCol = None).
  { destruct (values0 !! col_id pkCol) as [v|] eqn:Hv; [|reflexivity].
    assert (Hinv : forall id v, (∅ : gmap N TypedValue) !! id = Some v ->
                     suppliedValue e implicitDB params (st_table st) selPos row id = Some v)
      by (intros id w Hw; rewrite lookup_empty in Hw; discriminate).
    destruct (rowValues_spec _ _ _ _ _ _ _ _ _ _ Hvals Hinv) as (Hvs & _).
    apply Hvs in Hv as [Hv|[_ Hv]]; [rewrite lookup_empty in Hv; discriminate|congruence]. }
  unfold compileRow, injectPK, rowEntries.
  rewrite Hlen, Nat.eqb_refl, Hvals, Hauto. simpl.
  rewrite Hpk. simpl. rewrite Hnone. reflexivity.
Qed.

Lemma row_without_primary_key_rejected_witness :
  compileRow (H := Example.externals) Example.upsertTag Example.taggedEngine
    (Example.database Example.tagged) ∅ Example.selPos12
    (mkCompState Example.tagged false) (newTxSummary None)
    (mkRowSpec [Example.lit (NullValue IntegerType); Example.lit (Varchar "blue")])
  = (mkCompState Example.tagged false, Fail ErrPKCanNotBeNull).
Proof.
  apply (row_without_primary_key_rejected (H := Example.externals) Example.upsertTag
           Example.taggedEngine (Example.database Example.tagged) ∅ Example.selPos12
           (mkCompState Example.tagged false) (newTxSummary None)
           (mkRowSpec [Example.lit (NullValue IntegerType); Example.lit (Varchar "blue")])
           {[2%N := Varchar "blue"]} Example.c_id []); reflexivity.
Defined.

(** ** INSERT and the store *)

Lemma secondaryEntries_mapKey `{Externals} (e e' : Engine) pkEncVals values table reuse idxs :
  mapKey e = mapKey e' ->
  forall des0,
  secondaryEntries e pkEncVals values table reuse idxs des0
  = secondaryEntries e' pkEncVals values table reuse idxs des0.
Proof.
  intros Hm. induction idxs as [|index idxs IH]; intros des0; [reflexivity|].
  cbn [secondaryEntries]. rewrite Hm.
  destruct (IsPrimary index); [apply IH|].
  destruct (match reuse with
            | Some reusable => bool_decide (idx_id index ∈ reusable)
            | None => false
            end); [apply IH|].
  destruct (newIndexKey values (idx_cols index) []) as [encs|]; [|reflexivity].
  cbn [bind]. apply IH.
Qed.

Lemma rowValues_catalog `{Externals} stmt (e e' : Engine) implicitDB params table selPos row
  entries :
  catalog e = catalog e' ->
  forall values0,
  rowValues stmt e implicitDB params table selPos row entries values0
  = rowValues stmt e' implicitDB params table selPos row entries values0.
Proof.
  intros Hc. induction entries as [|entry entries IH]; intros values0; [reflexivity|].
  cbn [rowValues].
  assert (Hrow : rowValue stmt e implicitDB params table selPos row values0 entry
                 = rowValue stmt e' implicitDB params table selPos row values0 entry)
    by (unfold rowValue; now rewrite Hc).
  rewrite Hrow.
  destruct (rowValue stmt e' implicitDB params table selPos row values0 entry);
    [apply IH | reflexivity].
Qed.

Lemma rowEntries_insert `{Externals} stmt (e e' : Engine) table values summary :
  catalog e = catalog e' -> mapKey e = mapKey e' -> isInsert stmt = true ->
  rowEntries stmt e table values summary = rowEntries stmt e' table values summary.
Proof.
  intros Hc Hm Hi. unfold rowEntries. rewrite Hi, Hm. cbn [negb andb bind].
  destruct (encodePK table values (idx_cols (primaryIndex table)) []) as [pkEncVals|];
    cbn [bind]; [|reflexivity].
  destruct (encodeRow table values (cols table) _) as [valbuf|]; cbn [bind]; [|reflexivity].
  now rewrite (secondaryEntries_mapKey e e' _ _ _ _ _ Hm).
Qed.

Lemma compileRows_insert `{Externals} stmt (e e' : Engine) implicitDB params selPos rs :
  catalog e = catalog e' -> mapKey e = mapKey e' -> isInsert stmt = true ->
  forall st summary,
  compileRows stmt e implicitDB params selPos st summary rs
  = compileRows stmt e' implicitDB params selPos st summary rs.
Proof.
  intros Hc Hm Hi. induction rs as [|row rs IH]; intros st summary; [reflexivity|].
  cbn [compileRows].
  assert (Hrow : compileRow stmt e implicitDB params selPos st summary row
                 = compileRow stmt e' implicitDB params selPos st summary row).
  { unfold compileRow.
    destruct (negb (length (rs_Values row) =? length (up_cols stmt))%nat); [reflexivity|].
    assert (Hvals : rowValues stmt e implicitDB params (st_table st) selPos row
                      (colsByID (st_table st)) ∅
                    = rowValues stmt e' implicitDB params (st_table st) selPos row
                        (colsByID (st_table st)) ∅).
    { now apply rowValues_catalog. }
    rewrite Hvals.
    destruct (rowValues stmt e' _ _ _ _ _ _ _) as [values0|]; [|reflexivity].
    destruct (injectPK stmt st values0 summary) as [st1 [[values summary1]|]]; [|reflexivity].
    now rewrite (rowEntries_insert stmt e e' _ _ _ Hc Hm Hi). }
  rewrite Hrow.
  destruct (compileRow stmt e' implicitDB params selPos st summary row) as [st1 [summary1|]];
    [apply IH | reflexivity].
Qed.

(** X20: an INSERT never reads the store.  Two engines with the same
    catalog and the same key mapping compile an INSERT to the same result,
    whatever rows their stores hold: that the key is new is left to the
    constraint of the staged entry. *)
Theorem insert_never_reads_the_store `{Externals} (stmt : UpsertIntoStmt) (e e' : Engine)
  (implicitDB : option Database) (params : gmap string GoValue) :
  catalog e = catalog e' -> mapKey e = mapKey e' -> isInsert stmt = true ->
  UpsertIntoStmt_compileUsing stmt e implicitDB params
  = UpsertIntoStmt_compileUsing stmt e' implicitDB params.
Proof.
  intros Hc Hm Hi. unfold UpsertIntoStmt_compileUsing, referencedTable.
  rewrite <- Hc. destruct implicitDB as [db|]; [|reflexivity].
  match goal with
  | |- match ?r with _ => _ end = _ => destruct r as [table|]; [|reflexivity]
  end.
  destruct (validate stmt table) as [selPos|]; [|reflexivity].
  now rewrite (compileRows_insert stmt e e' db params selPos (rows stmt) Hc Hm Hi).
Qed.

Lemma insert_never_reads_the_store_witness :
  UpsertIntoStmt_compileUsing (H := Example.externals) Example.insertWithID
    Example.peopleEngine (Some (Example.database Example.people)) ∅
  = UpsertIntoStmt_compileUsing (H := Example.externals) Example.insertWithID
      (Example.engine Example.people (Ok (Example.rowOf [("id", Number 7)])))
      (Some (Example.database Example.people)) ∅.
Proof.
  apply (insert_never_reads_the_store (H := Example.externals)); reflexivity.
Defined.

(** ** Summaries of transactions *)

Lemma lastInsertedPKs_fold (m1 m2 : gmap string Z) :
  map_fold (fun t pk (m : gmap string Z) => <[t := pk]> m) m1 m2 = m2 ∪ m1.
Proof.
  apply (map_fold_weak_ind (fun r m => r = m ∪ m1)).
  - now rewrite (left_id_L ∅ (∪)).
  - intros t pk m r _ ->. now rewrite insert_union_l.
Qed.

Lemma TxSummary_add_assoc (a b c ab bc : TxSummary) :
  TxSummary_add a (Some b) = Ok ab -> TxSummary_add b (Some c) = Ok bc ->
  TxSummary_add ab (Some c) = TxSummary_add a (Some bc).
Proof.
  unfold TxSummary_add. intros Hab Hbc. injection Hab as <-. injection Hbc as <-. simpl.
  rewrite !lastInsertedPKs_fold, <- !app_assoc, Z.add_assoc, (assoc_L (∪)). reflexivity.
Qed.

Lemma TxSummary_add_new_l (db : option Database) (s : TxSummary) :
  TxSummary_add (newTxSummary db) (Some s) = Ok s.
Proof.
  unfold TxSummary_add. destruct s. simpl.
  now rewrite lastInsertedPKs_fold, (right_id_L ∅ (∪)).
Qed.

Lemma TxSummary_add_new_r (s : TxSummary) :
  TxSummary_add s (Some (newTxSummary (sm_db s))) = Ok s.
Proof.
  unfold TxSummary_add. destruct s. simpl.
  now rewrite lastInsertedPKs_fold, (left_id_L ∅ (∪)), !app_nil_r, Z.add_0_r.
Qed.

(** X21: adding summaries.  [add] fails only on a nil summary.  The sum
    takes the database of the added summary, has the entries of both in
    order, the sum of the row counts, and for each table the inserted key
    of the added summary if it has one and else the one already there.
    Adding is associative, and a new summary is neutral on the left, and on
    the right when it is for the same database. *)
Theorem TxSummary_add_laws (a b c : TxSummary) :
  (forall s, TxSummary_add a s = Fail ErrIllegalArguments <-> s = None)
  /\ (exists ab,
        TxSummary_add a (Some b) = Ok ab
        /\ sm_db ab = sm_db b
        /\ ces ab = ces a ++ ces b /\ des ab = des a ++ des b
        /\ updatedRows ab = (updatedRows a + updatedRows b)%Z
        /\ (forall t, lastInsertedPKs ab !! t
                      = match lastInsertedPKs b !! t with
                        | Some pk => Some pk
                        | None => lastInsertedPKs a !! t
                        end)
        /\ forall bc, TxSummary_add b (Some c) = Ok bc ->
                      TxSummary_add ab (Some c) = TxSummary_add a (Some bc))
  /\ (forall db, TxSummary_add (newTxSummary db) (Some a) = Ok a)
  /\ TxSummary_add a (Some (newTxSummary (sm_db a))) = Ok a.
Proof.
  split; [|split; [|split]].
  - intros [s|]; simpl; split; auto; discriminate.
  - destruct (TxSummary_add a (Some b)) as [ab|] eqn:Hab; [|discriminate Hab].
    exists ab. split; [reflexivity|].
    assert (Hfields := Hab). unfold TxSummary_add in Hfields. injection Hfields as <-.
    cbn [sm_db ces des updatedRows lastInsertedPKs].
    split; [reflexivity|]. split; [reflexivity|]. split; [reflexivity|].
    split; [reflexivity|]. split.
    + intros t. rewrite lastInsertedPKs_fold.
      destruct (lastInsertedPKs b !! t) as [pk|] eqn:Hb.
      * now apply lookup_union_Some_l.
      * now apply lookup_union_r.
    + intros bc Hbc. now apply TxSummary_add_assoc with (b := b).
  - intros db. apply TxSummary_add_new_l.
  - apply TxSummary_add_new_r.
Qed.

Lemma TxSummary_add_laws_witness :
  let a := mkTxSummary None [] [] 1 {["t" := 4%Z; "u" := 9%Z]} in
  let b := mkTxSummary None [] [] 2 {["t" := 5%Z]} in
  exists ab,
    TxSummary_add a (Some b) = Ok ab
    /\ updatedRows ab = 3%Z
    /\ lastInsertedPKs ab !! "t" = Some 5%Z
    /\ lastInsertedPKs ab !! "u" = Some 9%Z.
Proof.
  cbv zeta.
  destruct (TxSummary_add_laws (mkTxSummary None [] [] 1 {["t" := 4%Z; "u" := 9%Z]})
              (mkTxSummary None [] [] 2 {["t" := 5%Z]}) (newTxSummary None))
    as (_ & (ab & Hab & _ & _ & _ & Hupd & Hpk & _) & _).
  exists ab. split; [exact Hab|]. split; [exact Hupd|].
  split; rewrite Hpk; reflexivity.
Defined.

Section TxStmtProperties.

Context {EngineState : Type}.




End TxStmtProperties.

(** ** The lexer: progress, spaces, separators *)

Lemma skipSpaces_pending (fuel : nat) :
  forall ar sk ar',
  Lexer.skipSpaces fuel ar = Some (sk, ar') ->
  Lexer.pending ar' <= Lexer.pending ar
  /\ (0 < Lexer.pending ar -> Lexer.pending ar' < Lexer.pending ar)
  /\ (forall e, Lexer.nextErr ar = Some e ->
        ar' = ar /\ sk = if isErrEOF e then Lexer.SkipEOF else Lexer.SkipErr e).
Proof.
  induction fuel as [|fuel IH]; intros ar sk ar' Hs; [discriminate|].
  cbn [Lexer.skipSpaces] in Hs.
  destruct (Lexer.ReadByte ar) as [[ch err] ar1] eqn:Hrb.
  assert (Herr : err = Lexer.nextErr ar) by (unfold Lexer.ReadByte in Hrb; congruence).
  destruct err as [e|].
  - assert (Har : ar1 = ar).
    { unfold Lexer.ReadByte in Hrb. rewrite <- Herr in Hrb. congruence. }
    assert (Hp : Lexer.pending ar = 0) by (unfold Lexer.pending; now rewrite <- Herr).
    subst ar1. split; [|split].
    + destruct (isErrEOF e); injection Hs as _ <-; lia.
    + lia.
    + intros e' He'. rewrite <- Herr in He'. injection He' as <-.
      destruct (isErrEOF e); injection Hs as <- <-; auto.
  - pose proof (pending_ReadByte ar (eq_sym Herr)) as Hp. rewrite Hrb in Hp. simpl in Hp.
    split; [|split]; [| |intros e He; congruence].
    + destruct (Lexer.isSpace ch).
      * destruct (IH _ _ _ Hs) as (Hle & _). lia.
      * injection Hs as _ <-. lia.
    + intros _. destruct (Lexer.isSpace ch).
      * destruct (IH _ _ _ Hs) as (Hle & _). lia.
      * injection Hs as _ <-. lia.
Qed.

Lemma readWord_loop_pending (fuel : nat) :
  forall ar b r ar',
  Lexer.readWord_loop fuel ar b = Some (r, ar') ->
  Lexer.pending ar' <= Lexer.pending ar.
Proof.
  induction fuel as [|fuel IH]; intros ar b r ar' Hr; [discriminate|].
  cbn [Lexer.readWord_loop] in Hr. unfold Lexer.NextByte in Hr.
  destruct (Lexer.nextErr ar) as [e|] eqn:Herr.
  - destruct (isErrEOF e); injection Hr as _ <-; lia.
  - destruct (negb (Lexer.isLetter (Lexer.nextChar ar))
              && negb (Lexer.isNumber (Lexer.nextChar ar))); [injection Hr as _ <-; lia|].
    destruct (Lexer.ReadByte ar) as [[ch err] ar1] eqn:Hrb.
    pose proof (pending_ReadByte ar Herr) as Hp. rewrite Hrb in Hp. simpl in Hp.
    apply IH in Hr. lia.
Qed.

(** X23: [Lex] returns, and it makes progress.  Every call yields a token
    and leaves the lexer's own error untouched; while the reader has bytes
    the call consumes at least one of them; and once the reader only
    returns its error the call changes nothing and answers end of input for
    [io.EOF], or else [ERROR] with that error stored in [lval]. *)
Theorem Lex_returns_and_progresses (l : Lexer.lexer) (lval : Lexer.yySymType) :
  exists tkn lval' l',
    Lexer.Lex l lval = Some (tkn, lval', l')
    /\ Lexer.lx_err l' = Lexer.lx_err l
    /\ (0 < Lexer.pending (Lexer.lx_r l) ->
        Lexer.pending (Lexer.lx_r l') < Lexer.pending (Lexer.lx_r l))
    /\ (forall e, Lexer.nextErr (Lexer.lx_r l) = Some e ->
          l' = l
          /\ if isErrEOF e then tkn = Lexer.EOF /\ lval' = lval
             else tkn = Lexer.ERROR /\ lval' = Lexer.mkSym (Lexer.sym_id lval) (Some e)).
Proof.
  destruct l as [ar lerr]. unfold Lexer.Lex. cbn [Lexer.lx_r Lexer.lx_err].
  pose proof (skipSpaces_total (S (Lexer.pending ar)) ar (Nat.lt_succ_diag_r _)) as Hs.
  destruct (Lexer.skipSpaces (S (Lexer.pending ar)) ar) as [[sk ar1]|] eqn:Hsk;
    [clear Hs|congruence].
  destruct (skipSpaces_pending _ _ _ _ Hsk) as (Hle & Hlt & Herr).
  assert (Hend : forall tkn lval' ar2 (e : error),
            (forall e', sk <> Lexer.SkipErr e' /\ sk <> Lexer.SkipEOF) ->
            Lexer.nextErr ar = Some e ->
            Lexer.mkLexer ar2 lerr = Lexer.mkLexer ar lerr
            /\ if isErrEOF e then tkn = Lexer.EOF /\ lval' = lval
               else tkn = Lexer.ERROR /\ lval' = Lexer.mkSym (Lexer.sym_id lval) (Some e)).
  { intros tkn lval' ar2 e Hsk' He. destruct (Herr e He) as [_ ->].
    destruct (isErrEOF e); [destruct (Hsk' e) as [_ []] | destruct (Hsk' e) as [[] _]];
      reflexivity. }
  destruct sk as [|e1|ch].
  - do 3 eexists. split; [reflexivity|]. cbn [Lexer.lx_r Lexer.lx_err].
    split; [reflexivity|]. split; [exact Hlt|].
    intros e He. destruct (Herr e He) as [-> Hk]. split; [reflexivity|].
    destruct (isErrEOF e); [auto|discriminate].
  - do 3 eexists. split; [reflexivity|]. cbn [Lexer.lx_r Lexer.lx_err].
    split; [reflexivity|]. split; [exact Hlt|].
    intros e He. destruct (Herr e He) as [-> Hk]. split; [reflexivity|].
    destruct (isErrEOF e); [discriminate|]. injection Hk as ->. auto.
  - assert (Hch : forall e' : error, Lexer.SkipChar ch <> Lexer.SkipErr e'
                                     /\ Lexer.SkipChar ch <> Lexer.SkipEOF)
      by (intros e'; split; discriminate).
    destruct (Lexer.isSeparator ch).
    + do 3 eexists. split; [reflexivity|]. cbn [Lexer.lx_r Lexer.lx_err].
      split; [reflexivity|]. split; [|intros e He; now apply Hend].
      intros Hpos. specialize (Hlt Hpos).
      destruct (Byte.eqb ch x0d && Byte.eqb (Lexer.nextChar ar1) x0a); [|exact Hlt].
      destruct (Lexer.nextErr ar1) as [e|] eqn:He1.
      * unfold Lexer.ReadByte. rewrite He1. exact Hlt.
      * pose proof (pending_ReadByte ar1 He1). lia.
    + destruct (Lexer.isLetter ch).
      * unfold Lexer.readWord.
        pose proof (readWord_loop_total (S (Lexer.pending ar1)) ar1 []
                      (Nat.lt_succ_diag_r _)) as Hr.
        destruct (Lexer.readWord_loop (S (Lexer.pending ar1)) ar1 []) as [[r ar2]|] eqn:Hrw;
          [clear Hr|congruence].
        apply readWord_loop_pending in Hrw.
        destruct r as [tail|e2].
        -- destruct (Lexer.isType _);
             [|destruct (Lexer.lookupWord _ _)];
             (do 3 eexists; split; [reflexivity|]; cbn [Lexer.lx_r Lexer.lx_err];
              split; [reflexivity|]; split; [intros Hpos; specialize (Hlt Hpos); lia|];
              intros e He; destruct (Herr e He) as [_ Hk];
              destruct (isErrEOF e); discriminate Hk).
        -- do 3 eexists. split; [reflexivity|]. cbn [Lexer.lx_r Lexer.lx_err].
           split; [reflexivity|]. split; [intros Hpos; specialize (Hlt Hpos); lia|].
           intros e He. destruct (Herr e He) as [_ Hk].
           destruct (isErrEOF e); discriminate Hk.
      * do 3 eexists. split; [reflexivity|]. cbn [Lexer.lx_r Lexer.lx_err].
        split; [reflexivity|]. split; [exact Hlt|].
        intros e He. destruct (Herr e He) as [_ Hk].
        destruct (isErrEOF e); discriminate Hk.
Qed.

Lemma Lex_returns_and_progresses_witness :
  exists tkn lval' l',
    Lexer.Lex (Lexer.mkLexer (aheadOf (list_byte_of_string "  ;")) None) (Lexer.mkSym "" None)
    = Some (tkn, lval', l')
    /\ Lexer.pending (Lexer.lx_r l') < 3.
Proof.
  destruct (Lex_returns_and_progresses
              (Lexer.mkLexer (aheadOf (list_byte_of_string "  ;")) None) (Lexer.mkSym "" None))
    as (tkn & lval' & l' & HL & _ & Hlt & _).
  exists tkn, lval', l'. split; [exact HL|].
  apply Hlt. vm_compute. lia.
Defined.

Lemma isSeparator_not_space (ch : byte) :
  Lexer.isSeparator ch = true -> Lexer.isSpace ch = false.
Proof. destruct ch; vm_compute; intros; try discriminate; reflexivity. Qed.

(** X24: spaces before a token are skipped, separators and other bytes are
    tokens of one byte.  On the input of [ParseBytes]: any number of
    leading spaces changes neither the token nor what is left; a [;], a
    carriage return or a line feed is a [STMT_SEPARATOR], a carriage return
    taking a line feed that follows with it; and a byte that is neither a
    space, a separator nor a letter (a digit too) is returned as itself. *)
Theorem Lex_spaces_separators_bytes (n : nat) (ch : byte) (rest : list byte)
  (err : option error) (lval : Lexer.yySymType) :
  Lexer.Lex (Lexer.mkLexer (aheadOf (repeat x20 n ++ rest)) err) lval
  = Lexer.Lex (Lexer.mkLexer (aheadOf rest) err) lval
  /\ (Lexer.isSeparator ch = true ->
      Lexer.Lex (Lexer.mkLexer (aheadOf (ch :: rest)) err) lval
      = Some (Lexer.STMT_SEPARATOR, lval,
              Lexer.mkLexer (aheadOf (afterSeparator ch rest)) err))
  /\ (Lexer.isSpace ch = false -> Lexer.isSeparator ch = false ->
      Lexer.isLetter ch = false ->
      Lexer.Lex (Lexer.mkLexer (aheadOf (ch :: rest)) err) lval
      = Some (Lexer.CHAR ch, lval, Lexer.mkLexer (aheadOf rest) err)).
Proof.
  split; [|split].
  - induction n as [|n IH]; [reflexivity|].
    rewrite <- IH. cbn [repeat app].
    unfold Lexer.Lex. cbn [Lexer.lx_r Lexer.lx_err].
    rewrite !pending_aheadOf. cbn [length].
    change (Lexer.skipSpaces (S (S (length (repeat x20 n ++ rest))))
              (aheadOf (x20 :: repeat x20 n ++ rest)))
      with (let '(c, e, ar') := Lexer.ReadByte (aheadOf (x20 :: repeat x20 n ++ rest)) in
            match e with
            | Some e => if isErrEOF e then Some (Lexer.SkipEOF, ar')
                        else Some (Lexer.SkipErr e, ar')
            | None => if Lexer.isSpace c
                      then Lexer.skipSpaces (S (length (repeat x20 n ++ rest))) ar'
                      else Some (Lexer.SkipChar c, ar')
            end).
    rewrite ReadByte_aheadOf. reflexivity.
  - intros Hsep. pose proof (isSeparator_not_space ch Hsep) as Hsp.
    unfold Lexer.Lex. cbn [Lexer.lx_r Lexer.lx_err].
    rewrite pending_aheadOf. cbn [Lexer.skipSpaces].
    rewrite ReadByte_aheadOf, Hsp, Hsep.
    destruct rest as [|c rest']; [cbn; now rewrite andb_false_r|].
    unfold afterSeparator. change (Lexer.nextChar (aheadOf (c :: rest'))) with c.
    destruct (Byte.eqb ch x0d && Byte.eqb c x0a); [|reflexivity].
    rewrite ReadByte_aheadOf. reflexivity.
  - intros Hsp Hsep Hlet.
    unfold Lexer.Lex. cbn [Lexer.lx_r Lexer.lx_err].
    rewrite pending_aheadOf. cbn [Lexer.skipSpaces].
    rewrite ReadByte_aheadOf, Hsp, Hsep, Hlet. reflexivity.
Qed.

Lemma Lex_spaces_separators_bytes_witness :
  Lexer.Lex (Lexer.mkLexer (aheadOf (list_byte_of_string (String "013" (String "010" "USE"))))
               None) (Lexer.mkSym "" None)
  = Some (Lexer.STMT_SEPARATOR, Lexer.mkSym "" None,
          Lexer.mkLexer (aheadOf (list_byte_of_string "USE")) None)
  /\ Lexer.Lex (Lexer.mkLexer (aheadOf (list_byte_of_string "42")) None) (Lexer.mkSym "" None)
     = Some (Lexer.CHAR "4"%byte, Lexer.mkSym "" None,
             Lexer.mkLexer (aheadOf (list_byte_of_string "2")) None).
Proof.
  split.
  - apply (Lex_spaces_separators_bytes 0 x0d (x0a :: list_byte_of_string "USE") None
             (Lexer.mkSym "" None)). reflexivity.
  - apply (Lex_spaces_separators_bytes 0 "4"%byte (list_byte_of_string "2") None
             (Lexer.mkSym "" None)); reflexivity.
Defined.

(** ** Type inference *)

Lemma depth_eraseNull (e : ValueExp) : depth (eraseNull e) = depth e.
Proof.
  induction e as [[]| | | |op l IHl r IHr|x IHx| |op l IHl r IHr|op l IHl r IHr|];
    simpl; congruence.
Qed.

Lemma eraseNull_depth (e e' : ValueExp) : eraseNull e' = eraseNull e -> depth e' = depth e.
Proof. intros He. rewrite <- (depth_eraseNull e'), He. apply depth_eraseNull. Qed.

Lemma TypedValue_requiresType_shape t v v' err :
  TypedValue_requiresType t v = (v', err) -> eraseNull (Val v') = eraseNull (Val v).
Proof.
  destruct v as [vt| | | |]; simpl; try (intros [= <- _]; reflexivity).
  destruct (SQLValueType_eqb vt t); [intros [= <- _]; reflexivity|].
  destruct (negb (SQLValueType_eqb vt AnyType)); intros [= <- _]; reflexivity.
Qed.

Lemma requireBoth_total require params l r :
  (forall params, exists l' params' err,
      require params l = Some (l', params', err) /\ eraseNull l' = eraseNull l) ->
  (forall params, exists r' params' err,
      require params r = Some (r', params', err) /\ eraseNull r' = eraseNull r) ->
  exists l' r' params' err,
    requireBoth require params l r = Some (l', r', params', err)
    /\ eraseNull l' = eraseNull l /\ eraseNull r' = eraseNull r.
Proof.
  intros Hl Hr. unfold requireBoth.
  destruct (Hl params) as (l' & params1 & err1 & -> & Hl').
  destruct err1 as [err|]; [eauto 10|].
  destruct (Hr params1) as (r' & params2 & err2 & -> & Hr'). eauto 10.
Qed.

Lemma typing_total (fuel : nat) :
  (forall cols params db tbl e, 2 * depth e - 1 <= fuel ->
     exists e' params' r,
       inferType fuel cols params db tbl e = Some (e', params', r)
       /\ eraseNull e' = eraseNull e)
  /\ (forall t cols params db tbl e, 2 * depth e <= fuel ->
        exists e' params' err,
          requiresType fuel t cols params db tbl e = Some (e', params', err)
          /\ eraseNull e' = eraseNull e).
Proof.
  induction fuel as [|fuel [IHi IHr]].
  - split; intros; destruct e; simpl in *; lia.
  - split.
    + intros cols params db tbl e Hd.
      destruct e as [[]|fn|id pos|[sel|sel]|op l r|x|sel pat|op l r|op l r|];
        cbn [inferType]; try (do 3 eexists; split; reflexivity).
      * destruct (String.eqb (ToUpper fn) "NOW"); do 3 eexists; split; reflexivity.
      * destruct (Param_inferType params id). do 3 eexists; split; reflexivity.
      * simpl in Hd.
        destruct (requireBoth_total
                    (fun params e => requiresType fuel IntegerType cols params db tbl e)
                    params l r) as (l' & r' & params' & err & -> & Hl & Hr).
        { intros p. apply IHr. lia. }
        { intros p. apply IHr. lia. }
        destruct err; do 3 eexists; (split; [reflexivity|]); simpl; congruence.
      * simpl in Hd.
        destruct (IHr BooleanType cols params db tbl x) as (x' & params' & err & -> & Hx);
          [lia|].
        destruct err; do 3 eexists; (split; [reflexivity|]); simpl; congruence.
      * simpl in Hd.
        destruct (IHi cols params db tbl l) as (l1 & params1 & tl & -> & Hl); [lia|].
        destruct tl as [tleft|]; [|do 3 eexists; split; [reflexivity|simpl; congruence]].
        destruct (IHi cols params1 db tbl r) as (r1 & params2 & tr & -> & Hr); [lia|].
        destruct tr as [tright|]; [|do 3 eexists; split; [reflexivity|simpl; congruence]].
        destruct (SQLValueType_eqb tleft tright);
          [do 3 eexists; split; [reflexivity|simpl; congruence]|].
        destruct (negb (SQLValueType_eqb tleft AnyType)
                  && negb (SQLValueType_eqb tright AnyType));
          [do 3 eexists; split; [reflexivity|simpl; congruence]|].
        assert (H2 : exists l2 params3 err,
                   (if SQLValueType_eqb tleft AnyType
                    then requiresType fuel tright cols params2 db tbl l1
                    else Some (l1, params2, None)) = Some (l2, params3, err)
                   /\ eraseNull l2 = eraseNull l).
        { destruct (SQLValueType_eqb tleft AnyType); [|eauto 10].
          destruct (IHr tright cols params2 db tbl l1) as (l2 & p3 & err & -> & Hl2).
          - rewrite (eraseNull_depth _ _ Hl). lia.
          - exists l2, p3, err. split; [reflexivity | congruence]. }
        destruct H2 as (l2 & params3 & err & -> & Hl2).
        destruct err; [do 3 eexists; split; [reflexivity|simpl; congruence]|].
        assert (H3 : exists r2 params4 err,
                   (if SQLValueType_eqb tright AnyType
                    then requiresType fuel tleft cols params3 db tbl r1
                    else Some (r1, params3, None)) = Some (r2, params4, err)
                   /\ eraseNull r2 = eraseNull r).
        { destruct (SQLValueType_eqb tright AnyType); [|eauto 10].
          destruct (IHr tleft cols params3 db tbl r1) as (r2 & p4 & err & -> & Hr2).
          - rewrite (eraseNull_depth _ _ Hr). lia.
          - exists r2, p4, err. split; [reflexivity | congruence]. }
        destruct H3 as (r2 & params4 & err & -> & Hr2).
        destruct err; do 3 eexists; (split; [reflexivity|simpl; congruence]).
      * simpl in Hd.
        destruct (requireBoth_total
                    (fun params e => requiresType fuel BooleanType cols params db tbl e)
                    params l r) as (l' & r' & params' & err & -> & Hl & Hr).
        { intros p. apply IHr. lia. }
        { intros p. apply IHr. lia. }
        destruct err; do 3 eexists; (split; [reflexivity|]); simpl; congruence.
    + intros t cols params db tbl e Hd.
      destruct e as [v|fn|id pos|[sel|sel]|op l r|x|sel pat|op l r|op l r|];
        cbn [requiresType]; try (do 3 eexists; split; reflexivity).
      * destruct (TypedValue_requiresType t v) as [v' err] eqn:Hv.
        do 3 eexists. split; [reflexivity|]. eapply TypedValue_requiresType_shape; eauto.
      * destruct (String.eqb (ToUpper fn) "NOW");
          [destruct (negb (SQLValueType_eqb t IntegerType))|];
          do 3 eexists; split; reflexivity.
      * destruct (Param_requiresType t params id). do 3 eexists; split; reflexivity.
      * destruct (negb (SQLValueType_eqb t IntegerType));
          [do 3 eexists; split; reflexivity|].
        simpl in Hd.
        destruct (requireBoth_total
                    (fun params e => requiresType fuel IntegerType cols params db tbl e)
                    params l r) as (l' & r' & params' & err & -> & Hl & Hr).
        { intros p. apply IHr. lia. }
        { intros p. apply IHr. lia. }
        do 3 eexists. split; [reflexivity|]. simpl; congruence.
      * destruct (negb (SQLValueType_eqb t BooleanType));
          [do 3 eexists; split; reflexivity|].
        simpl in Hd.
        destruct (IHr BooleanType cols params db tbl x) as (x' & params' & err & -> & Hx);
          [lia|].
        do 3 eexists. split; [reflexivity|]. simpl; congruence.
      * destruct (negb (SQLValueType_eqb t BooleanType)); do 3 eexists; split; reflexivity.
      * destruct (negb (SQLValueType_eqb t BooleanType));
          [do 3 eexists; split; reflexivity|].
        destruct (IHi cols params db tbl (CmpBoolExp op l r)) as (e' & params' & r' & -> & He);
          [lia|].
        destruct r'; do 3 eexists; (split; [reflexivity|exact He]).
      * destruct (negb (SQLValueType_eqb t BooleanType));
          [do 3 eexists; split; reflexivity|].
        simpl in Hd.
        destruct (requireBoth_total
                    (fun params e => requiresType fuel BooleanType cols params db tbl e)
                    params l r) as (l' & r' & params' & err & -> & Hl & Hr).
        { intros p. apply IHr. lia. }
        { intros p. apply IHr. lia. }
        do 3 eexists. split; [reflexivity|]. simpl; congruence.
Qed.

Lemma keepsTypes_refl params : keepsTypes params params.
Proof. intros id t Ht. eauto. Qed.

Lemma keepsTypes_trans p1 p2 p3 : keepsTypes p1 p2 -> keepsTypes p2 p3 -> keepsTypes p1 p3.
Proof.
  intros H12 H23 id t Ht. destruct (H12 id t Ht) as (t2 & Ht2 & Hk2).
  destruct (H23 id t2 Ht2) as (t3 & Ht3 & Hk3). exists t3. split; [exact Ht3|].
  intros Hne. rewrite <- (Hk2 Hne). apply Hk3. now rewrite (Hk2 Hne).
Qed.

Lemma keepsTypes_typed p p' e : keepsTypes p p' -> paramsTyped p e -> paramsTyped p' e.
Proof.
  unfold paramsTyped. intros Hk Ht. eapply Forall_impl; [exact Ht|].
  intros id [t Hid]. destruct (Hk id t Hid) as (t' & Ht' & _). eauto.
Qed.

Lemma Param_inferType_keeps params id params' r :
  Param_inferType params id = (params', r) ->
  keepsTypes params params' /\ is_Some (params' !! id).
Proof.
  unfold Param_inferType. destruct (params !! id) as [t|] eqn:Hid; intros [= <- <-].
  - split; [apply keepsTypes_refl | eauto].
  - split; [|rewrite lookup_insert_eq; eauto].
    intros id' t Ht. destruct (decide (id = id')) as [<-|Hne]; [congruence|].
    rewrite lookup_insert_ne by exact Hne. eauto.
Qed.

Lemma Param_requiresType_keeps t params id params' err :
  Param_requiresType t params id = (params', err) ->
  keepsTypes params params' /\ (err = None -> params' !! id = Some t).
Proof.
  unfold Param_requiresType.
  assert (Hset : (forall currT, params !! id = Some currT -> currT = t \/ currT = AnyType) ->
                 keepsTypes params (<[id := t]> params)).
  { intros Hcurr id' t' Ht'. destruct (decide (id = id')) as [<-|Hne].
    - rewrite lookup_insert_eq. exists t. split; [reflexivity|].
      intros Hany. destruct (Hcurr _ Ht') as [->| ->]; [reflexivity | contradiction].
    - rewrite lookup_insert_ne by exact Hne. eauto. }
  destruct (params !! id) as [currT|] eqn:Hid.
  - destruct (SQLValueType_eqb currT t) eqn:Ht; simpl.
    + intros [= <- <-]. split; [|intros _; apply lookup_insert_eq].
      apply Hset. intros c [= <-]. left. now apply SQLValueType_eqb_eq.
    + destruct (SQLValueType_eqb currT AnyType) eqn:Hany; simpl; intros [= <- <-].
      * split; [|intros _; apply lookup_insert_eq].
        apply Hset. intros c [= <-]. right. now apply SQLValueType_eqb_eq.
      * split; [apply keepsTypes_refl | discriminate].
  - intros [= <- <-]. split; [|intros _; apply lookup_insert_eq].
    apply Hset. intros c Hc. discriminate.
Qed.

Lemma requireBoth_keeps require params l r l' r' params' err :
  (forall p e e' p' err, require p e = Some (e', p', err) ->
     keepsTypes p p' /\ (err = None -> paramsTyped p' e)) ->
  requireBoth require params l r = Some (l', r', params', err) ->
  keepsTypes params params' /\ (err = None -> paramsTyped params' l /\ paramsTyped params' r).
Proof.
  intros Hreq. unfold requireBoth.
  destruct (require params l) as [[[l1 p1] err1]|] eqn:Hl; [|discriminate].
  destruct (Hreq _ _ _ _ _ Hl) as (Hk1 & Ht1).
  destruct err1 as [e1|]; [intros [= <- <- <- <-]; split; [exact Hk1|discriminate]|].
  destruct (require p1 r) as [[[r1 p2] err2]|] eqn:Hr; [|discriminate].
  destruct (Hreq _ _ _ _ _ Hr) as (Hk2 & Ht2).
  intros [= <- <- <- <-]. split; [eapply keepsTypes_trans; eauto|].
  intros Hnone. split; [|auto]. eapply keepsTypes_typed; eauto.
Qed.

Lemma paramsTyped_app (params : gmap string SQLValueType) (l r : list string) :
  Forall (fun id => is_Some (params !! id)) l ->
  Forall (fun id => is_Some (params !! id)) r ->
  Forall (fun id => is_Some (params !! id)) (l ++ r).
Proof. intros Hl Hr. apply Forall_app. auto. Qed.

Lemma paramsTyped_eraseNull (params : gmap string SQLValueType) e e' :
  eraseNull e' = eraseNull e -> paramsTyped params e -> paramsTyped params e'.
Proof.
  assert (Hp : forall x, paramsOf (eraseNull x) = paramsOf x).
  { induction x as [[]| | | |op l IHl r IHr|x IHx| |op l IHl r IHr|op l IHl r IHr|];
      simpl; congruence. }
  unfold paramsTyped. intros He. now rewrite <- (Hp e'), He, Hp.
Qed.

Lemma typing_keeps (fuel : nat) :
  (forall cols params db tbl e e' params' r,
     inferType fuel cols params db tbl e = Some (e', params', r) ->
     keepsTypes params params' /\ (forall t, r = Ok t -> paramsTyped params' e))
  /\ (forall t cols params db tbl e e' params' err,
        requiresType fuel t cols params db tbl e = Some (e', params', err) ->
        keepsTypes params params' /\ (err = None -> paramsTyped params' e)).
Proof.
  induction fuel as [|fuel [IHi IHr]]; [split; intros; discriminate|].
  assert (Hleaf : forall params : gmap string SQLValueType,
            Forall (fun id : string => is_Some (params !! id)) []) by (intros; apply Forall_nil_2).
  split.
  - intros cols params db tbl e e' params' r0 Hi.
    destruct e as [[]|fn|id pos|[sel|sel]|op l r|x|sel pat|op l r|op l r|];
      cbn [inferType] in Hi;
      try (injection Hi as <- <- <-; split; [apply keepsTypes_refl | intros; apply Hleaf]).
    + destruct (String.eqb (ToUpper fn) "NOW"); injection Hi as <- <- <-;
        (split; [apply keepsTypes_refl | intros; apply Hleaf]).
    + destruct (Param_inferType params id) as [p1 t1] eqn:Hp. injection Hi as <- <- <-.
      destruct (Param_inferType_keeps _ _ _ _ Hp) as (Hk & Hs).
      split; [exact Hk|]. intros t _. constructor; [exact Hs | constructor].
    + destruct (requireBoth _ params l r) as [[[[l1 r1] p1] err]|] eqn:Hb; [|discriminate].
      destruct (requireBoth_keeps _ _ _ _ _ _ _ _ (fun p e e' p' err => IHr _ _ p _ _ e e' p' err)
                  Hb) as (Hk & Ht).
      destruct err; injection Hi as <- <- <-; (split; [exact Hk|]); [discriminate|].
      intros t _. destruct (Ht eq_refl). now apply paramsTyped_app.
    + destruct (requiresType fuel BooleanType cols params db tbl x) as [[[x1 p1] err]|] eqn:Hx;
        [|discriminate].
      destruct (IHr _ _ _ _ _ _ _ _ _ Hx) as (Hk & Ht).
      destruct err; injection Hi as <- <- <-; (split; [exact Hk|]); [discriminate|].
      intros t _. now apply Ht.
    + destruct (inferType fuel cols params db tbl l) as [[[l1 p1] tl]|] eqn:Hl; [|discriminate].
      destruct (IHi _ _ _ _ _ _ _ _ Hl) as (Hk1 & Ht1).
      destruct tl as [tleft|]; [|injection Hi as <- <- <-; split; [exact Hk1|discriminate]].
      destruct (inferType fuel cols p1 db tbl r) as [[[r1 p2] tr]|] eqn:Hr; [|discriminate].
      destruct (IHi _ _ _ _ _ _ _ _ Hr) as (Hk2 & Ht2).
      assert (Hk12 : keepsTypes params p2) by (eapply keepsTypes_trans; eauto).
      destruct tr as [tright|]; [|injection Hi as <- <- <-; split; [exact Hk12|discriminate]].
      assert (Hlr : paramsTyped p2 l /\ paramsTyped p2 r).
      { split; [|exact (Ht2 tright eq_refl)].
        exact (keepsTypes_typed _ _ _ Hk2 (Ht1 tleft eq_refl)). }
      destruct (SQLValueType_eqb tleft tright).
      { injection Hi as <- <- <-. split; [exact Hk12|].
        intros t _. destruct Hlr. now apply paramsTyped_app. }
      destruct (negb (SQLValueType_eqb tleft AnyType)
                && negb (SQLValueType_eqb tright AnyType));
        [injection Hi as <- <- <-; split; [exact Hk12|discriminate]|].
      destruct (if SQLValueType_eqb tleft AnyType
                then requiresType fuel tright cols p2 db tbl l1
                else Some (l1, p2, None)) as [[[l2 p3] err3]|] eqn:H3; [|discriminate].
      assert (Hk3 : keepsTypes p2 p3).
      { destruct (SQLValueType_eqb tleft AnyType).
        - now destruct (IHr _ _ _ _ _ _ _ _ _ H3).
        - injection H3 as _ <- _. apply keepsTypes_refl. }
      assert (Hk13 : keepsTypes params p3) by (eapply keepsTypes_trans; eauto).
      destruct err3; [injection Hi as <- <- <-; split; [exact Hk13|discriminate]|].
      destruct (if SQLValueType_eqb tright AnyType
                then requiresType fuel tleft cols p3 db tbl r1
                else Some (r1, p3, None)) as [[[r2 p4] err4]|] eqn:H4; [|discriminate].
      assert (Hk4 : keepsTypes p3 p4).
      { destruct (SQLValueType_eqb tright AnyType).
        - now destruct (IHr _ _ _ _ _ _ _ _ _ H4).
        - injection H4 as _ <- _. apply keepsTypes_refl. }
      assert (Hk14 : keepsTypes params p4) by (eapply keepsTypes_trans; eauto).
      destruct err4; injection Hi as <- <- <-; (split; [exact Hk14|]); [discriminate|].
      intros t _. destruct Hlr as [Hl2 Hr2].
      apply paramsTyped_app.
      * exact (keepsTypes_typed p2 _ l (keepsTypes_trans _ _ _ Hk3 Hk4) Hl2).
      * exact (keepsTypes_typed p2 _ r (keepsTypes_trans _ _ _ Hk3 Hk4) Hr2).
    + destruct (requireBoth _ params l r) as [[[[l1 r1] p1] err]|] eqn:Hb; [|discriminate].
      destruct (requireBoth_keeps _ _ _ _ _ _ _ _ (fun p e e' p' err => IHr _ _ p _ _ e e' p' err)
                  Hb) as (Hk & Ht).
      destruct err; injection Hi as <- <- <-; (split; [exact Hk|]); [discriminate|].
      intros t _. destruct (Ht eq_refl). now apply paramsTyped_app.
  - intros t cols params db tbl e e' params' err0 Hq.
    destruct e as [v|fn|id pos|[sel|sel]|op l r|x|sel pat|op l r|op l r|];
      cbn [requiresType] in Hq;
      try (injection Hq as <- <- <-; split; [apply keepsTypes_refl | intros; apply Hleaf]).
    + destruct (TypedValue_requiresType t v). injection Hq as <- <- <-.
      split; [apply keepsTypes_refl | intros; apply Hleaf].
    + destruct (String.eqb (ToUpper fn) "NOW");
        [destruct (negb (SQLValueType_eqb t IntegerType))|]; injection Hq as <- <- <-;
        (split; [apply keepsTypes_refl | intros; apply Hleaf]).
    + destruct (Param_requiresType t params id) as [p1 err1] eqn:Hp. injection Hq as <- <- <-.
      destruct (Param_requiresType_keeps _ _ _ _ _ Hp) as (Hk & Hs).
      split; [exact Hk|]. intros Hnone. constructor; [|constructor].
      rewrite (Hs Hnone). eauto.
    + destruct (negb (SQLValueType_eqb t IntegerType));
        [injection Hq as <- <- <-; split; [apply keepsTypes_refl | discriminate]|].
      destruct (requireBoth _ params l r) as [[[[l1 r1] p1] err]|] eqn:Hb; [|discriminate].
      destruct (requireBoth_keeps _ _ _ _ _ _ _ _ (fun p e e' p' err => IHr _ _ p _ _ e e' p' err)
                  Hb) as (Hk & Ht).
      injection Hq as <- <- <-. split; [exact Hk|].
      intros Hnone. destruct (Ht Hnone). now apply paramsTyped_app.
    + destruct (negb (SQLValueType_eqb t BooleanType));
        [injection Hq as <- <- <-; split; [apply keepsTypes_refl | discriminate]|].
      destruct (requiresType fuel BooleanType cols params db tbl x) as [[[x1 p1] err]|] eqn:Hx;
        [|discriminate].
      destruct (IHr _ _ _ _ _ _ _ _ _ Hx) as (Hk & Ht).
      injection Hq as <- <- <-. split; [exact Hk|]. intros Hnone. now apply Ht.
    + destruct (negb (SQLValueType_eqb t BooleanType)); injection Hq as <- <- <-;
        (split; [apply keepsTypes_refl | intros; apply Hleaf]).
    + destruct (negb (SQLValueType_eqb t BooleanType));
        [injection Hq as <- <- <-; split; [apply keepsTypes_refl | discriminate]|].
      destruct (inferType fuel cols params db tbl (CmpBoolExp op l r)) as [[[e1 p1] r1]|] eqn:Hi;
        [|discriminate].
      destruct (IHi _ _ _ _ _ _ _ _ Hi) as (Hk & Ht).
      destruct r1 as [t1|]; injection Hq as <- <- <-; (split; [exact Hk|]); [|discriminate].
      intros _. eapply Ht. reflexivity.
    + destruct (negb (SQLValueType_eqb t BooleanType));
        [injection Hq as <- <- <-; split; [apply keepsTypes_refl | discriminate]|].
      destruct (requireBoth _ params l r) as [[[[l1 r1] p1] err]|] eqn:Hb; [|discriminate].
      destruct (requireBoth_keeps _ _ _ _ _ _ _ _ (fun p e e' p' err => IHr _ _ p _ _ e e' p' err)
                  Hb) as (Hk & Ht).
      injection Hq as <- <- <-. split; [exact Hk|].
      intros Hnone. destruct (Ht Hnone). now apply paramsTyped_app.
Qed.

Lemma requireBoth_ok require params l r l' r' params' :
  requireBoth require params l r = Some (l', r', params', None) ->
  exists params1,
    require params l = Some (l', params1, None) /\ require params1 r = Some (r', params', None).
Proof.
  unfold requireBoth.
  destruct (require params l) as [[[l1 p1] [err1|]]|]; try discriminate.
  destruct (require p1 r) as [[[r1 p2] err2]|] eqn:Hr; [|discriminate].
  intros [= <- <- <- ->]. eauto.
Qed.

Lemma Compare_same_type (vl vr : TypedValue) :
  Type_ vl = Type_ vr -> isNullValue vl = false -> isNullValue vr = false ->
  exists c, Compare vl vr = Ok c.
Proof.
  destruct vl, vr; simpl; try discriminate; intros _ _ _; eauto.
  - destruct (_ =? _)%Z; [|destruct (_ >? _)%Z]; eauto.
  - destruct (Bool.eqb _ _); [|destruct val]; eauto.
Qed.

Lemma TypedValue_requiresType_ok t v v' :
  TypedValue_requiresType t v = (v', None) -> isNullValue v = false -> Type_ v = t.
Proof.
  destruct v; simpl; try discriminate; intros Hr _;
    match type of Hr with
    | (_, if negb (SQLValueType_eqb ?a ?b) then _ else _) = _ =>
        destruct (SQLValueType_eqb a b) eqn:Heq; [|discriminate];
        apply SQLValueType_eqb_eq in Heq; now subst
    end.
Qed.

Lemma ColSelector_reducesTo `{Externals} catalog cols row db tbl sel t :
  rowOfTypes cols row ->
  ColSelector_inferType cols sel db tbl = Ok t ->
  reducesTo catalog row db tbl (Sel (ColSel sel)) t.
Proof.
  intros Hrow. unfold ColSelector_inferType, reducesTo. simpl.
  unfold ColSelector_resolve.
  destruct (cols !! _) as [dt|] eqn:Hc; [|discriminate]. intros [= <-].
  destruct (Hrow _ _ Hc) as (v & Hv & Ht & Hn). left. exists v. now rewrite Hv.
Qed.

Lemma ColSelector_requiresType_infer t cols sel db tbl :
  ColSelector_requiresType t cols sel db tbl = None ->
  ColSelector_inferType cols sel db tbl = Ok t.
Proof.
  unfold ColSelector_requiresType, ColSelector_inferType, ColSelector_resolve.
  destruct (cols !! _) as [dt|]; [|discriminate].
  destruct (SQLValueType_eqb dt t) eqn:Heq; [|discriminate].
  apply SQLValueType_eqb_eq in Heq. now subst.
Qed.

Lemma reducesTo_Integer `{Externals} catalog row db tbl e :
  reducesTo catalog row db tbl e IntegerType ->
  (exists n, reduce catalog (Some row) db tbl e = Ok (Number n))
  \/ reduce catalog (Some row) db tbl e = Fail ErrDivisionByZero.
Proof.
  intros [(v & Hv & Ht & Hn)|Hf]; [|now right].
  left. destruct v; try discriminate. eauto.
Qed.

Lemma reducesTo_Boolean `{Externals} catalog row db tbl e :
  reducesTo catalog row db tbl e BooleanType ->
  (exists b, reduce catalog (Some row) db tbl e = Ok (Bool b))
  \/ reduce catalog (Some row) db tbl e = Fail ErrDivisionByZero.
Proof.
  intros [(v & Hv & Ht & Hn)|Hf]; [|now right].
  left. destruct v; try discriminate. eauto.
Qed.

Lemma NumExp_reducesTo `{Externals} catalog row db tbl op l r :
  reducesTo catalog row db tbl l IntegerType ->
  reducesTo catalog row db tbl r IntegerType ->
  reducesTo catalog row db tbl (NumExp op l r) IntegerType.
Proof.
  intros Hl Hr. apply reducesTo_Integer in Hl, Hr. unfold reducesTo. simpl.
  destruct Hl as [[nl ->]| ->]; [|right; reflexivity]. simpl.
  destruct Hr as [[nr ->]| ->]; [|right; reflexivity]. simpl.
  destruct op; try (left; eexists; repeat split; reflexivity).
  unfold NumExp_apply. simpl. destruct (nr =? 0)%Z; [right; reflexivity|]. left. eexists. repeat split; reflexivity.
Qed.

Lemma BinBoolExp_reducesTo `{Externals} catalog row db tbl op l r :
  reducesTo catalog row db tbl l BooleanType ->
  reducesTo catalog row db tbl r BooleanType ->
  reducesTo catalog row db tbl (BinBoolExp op l r) BooleanType.
Proof.
  intros Hl Hr. apply reducesTo_Boolean in Hl, Hr. unfold reducesTo. simpl.
  destruct Hl as [[bl ->]| ->]; [|right; reflexivity]. simpl.
  destruct Hr as [[br ->]| ->]; [|right; reflexivity]. simpl.
  destruct op; left; eexists; repeat split; reflexivity.
Qed.

Lemma NotBoolExp_reducesTo `{Externals} catalog row db tbl x :
  reducesTo catalog row db tbl x BooleanType ->
  reducesTo catalog row db tbl (NotBoolExp x) BooleanType.
Proof.
  intros Hx. apply reducesTo_Boolean in Hx. unfold reducesTo. simpl.
  destruct Hx as [[b ->]| ->]; [|right; reflexivity]. simpl.
  left. eexists. repeat split; reflexivity.
Qed.

Lemma Type_not_Any (v : TypedValue) : isNullValue v = false -> Type_ v <> AnyType.
Proof. destruct v; simpl; discriminate. Qed.

Lemma CmpBoolExp_reducesTo `{Externals} catalog row db tbl op l r tl tr :
  reducesTo catalog row db tbl l tl ->
  reducesTo catalog row db tbl r tr ->
  tl = tr \/ tl = AnyType \/ tr = AnyType ->
  reducesTo catalog row db tbl (CmpBoolExp op l r) BooleanType.
Proof.
  intros Hl Hr Hty. unfold reducesTo. simpl.
  destruct Hl as [(vl & Hvl & Htl & Hnl)|Hfl]; [|rewrite Hfl; right; reflexivity].
  rewrite Hvl. simpl.
  destruct Hr as [(vr & Hvr & Htr & Hnr)|Hfr]; [|rewrite Hfr; right; reflexivity].
  rewrite Hvr. simpl.
  assert (Heq : Type_ vl = Type_ vr).
  { destruct Hty as [Heq|[Hany|Hany]]; [congruence| |].
    - exfalso. apply (Type_not_Any vl Hnl). congruence.
    - exfalso. apply (Type_not_Any vr Hnr). congruence. }
  destruct (Compare_same_type vl vr Heq Hnl Hnr) as [c ->].
  simpl. left. eexists. repeat split; reflexivity.
Qed.

Lemma typing_sound `{Externals} (catalog : option Catalog) (cols : gmap string SQLValueType)
  (row : Row) (db tbl : string) (fuel : nat) :
  rowOfTypes cols row ->
  (forall params e e' params' t,
     plainExp e = true ->
     inferType fuel cols params db tbl e = Some (e', params', Ok t) ->
     reducesTo catalog row db tbl e t)
  /\ (forall t params e e' params',
        plainExp e = true ->
        requiresType fuel t cols params db tbl e = Some (e', params', None) ->
        reducesTo catalog row db tbl e t).
Proof.
  intros Hrow. induction fuel as [|fuel [IHi IHr]]; [split; intros; discriminate|].
  split.
  - intros params e e' params' t Hp Hi.
    destruct e as [[]|fn|id pos|[sel|sel]|op l r|x|sel pat|op l r|op l r|];
      cbn [inferType] in Hi; simpl in Hp; try discriminate;
      try (injection Hi as _ _ <-; left; eexists; repeat split; reflexivity).
    + destruct (String.eqb (ToUpper fn) "NOW") eqn:Hnow; [|discriminate].
      injection Hi as _ _ <-. left. exists (Number timeNowUnixNano).
      simpl. rewrite Hnow. repeat split.
    + injection Hi as _ _ Ht. eapply ColSelector_reducesTo; eauto.
    + apply andb_prop in Hp as [Hpl Hpr].
      destruct (requireBoth _ params l r) as [[[[l1 r1] p1] [err|]]|] eqn:Hb; try discriminate.
      injection Hi as _ _ <-. apply requireBoth_ok in Hb as (p0 & Hl & Hr).
      apply NumExp_reducesTo; eauto.
    + destruct (requiresType fuel BooleanType cols params db tbl x) as [[[x1 p1] [err|]]|] eqn:Hx;
        try discriminate.
      injection Hi as _ _ <-. apply NotBoolExp_reducesTo; eauto.
    + apply andb_prop in Hp as [Hpl Hpr].
      destruct (inferType fuel cols params db tbl l) as [[[l1 p1] [tleft|]]|] eqn:Hl;
        try discriminate.
      destruct (inferType fuel cols p1 db tbl r) as [[[r1 p2] [tright|]]|] eqn:Hr;
        try discriminate.
      assert (Hty : tleft = tright \/ tleft = AnyType \/ tright = AnyType ->
                    reducesTo catalog row db tbl (CmpBoolExp op l r) BooleanType).
      { apply CmpBoolExp_reducesTo; eauto. }
      destruct (SQLValueType_eqb tleft tright) eqn:Heq.
      { injection Hi as _ _ <-. apply Hty. left. now apply SQLValueType_eqb_eq. }
      destruct (SQLValueType_eqb tleft AnyType) eqn:Hal.
      { assert (t = BooleanType) as ->.
        { simpl in Hi.
          destruct (requiresType fuel tright cols p2 db tbl l1) as [[[l2 p3] [e3|]]|];
            try discriminate.
          destruct (if SQLValueType_eqb tright AnyType then _ else _) as [[[r2 p4] [e4|]]|];
            try discriminate.
          now injection Hi as _ _ <-. }
        apply Hty. right. left. now apply SQLValueType_eqb_eq. }
      destruct (SQLValueType_eqb tright AnyType) eqn:Har; [|discriminate].
      assert (t = BooleanType) as ->.
      { simpl in Hi.
        destruct (requiresType fuel tleft cols p2 db tbl r1) as [[[r2 p4] [e4|]]|];
          try discriminate.
        now injection Hi as _ _ <-. }
      apply Hty. right. right. now apply SQLValueType_eqb_eq.
    + apply andb_prop in Hp as [Hpl Hpr].
      destruct (requireBoth _ params l r) as [[[[l1 r1] p1] [err|]]|] eqn:Hb; try discriminate.
      injection Hi as _ _ <-. apply requireBoth_ok in Hb as (p0 & Hl & Hr).
      apply BinBoolExp_reducesTo; eauto.
  - intros t params e e' params' Hp Hq.
    destruct e as [v|fn|id pos|[sel|sel]|op l r|x|sel pat|op l r|op l r|];
      cbn [requiresType] in Hq; simpl in Hp; try discriminate.
    + destruct (TypedValue_requiresType t v) as [v' err] eqn:Hv.
      injection Hq as _ _ ->. apply negb_true_iff in Hp.
      left. exists v. repeat split; [|exact Hp].
      eapply TypedValue_requiresType_ok; eauto.
    + destruct (String.eqb (ToUpper fn) "NOW") eqn:Hnow; [|discriminate].
      destruct (SQLValueType_eqb t IntegerType) eqn:Ht; [|discriminate].
      apply SQLValueType_eqb_eq in Ht. subst t.
      left. exists (Number timeNowUnixNano). simpl. rewrite Hnow. repeat split.
    + injection Hq as _ _ Ht. apply ColSelector_requiresType_infer in Ht.
      eapply ColSelector_reducesTo; eauto.
    + destruct (SQLValueType_eqb t IntegerType) eqn:Ht; [|discriminate].
      apply SQLValueType_eqb_eq in Ht. subst t. simpl in Hq.
      apply andb_prop in Hp as [Hpl Hpr].
      destruct (requireBoth _ params l r) as [[[[l1 r1] p1] err]|] eqn:Hb; [|discriminate].
      injection Hq as _ _ ->. apply requireBoth_ok in Hb as (p0 & Hl & Hr).
      apply NumExp_reducesTo; eauto.
    + destruct (SQLValueType_eqb t BooleanType) eqn:Ht; [|discriminate].
      apply SQLValueType_eqb_eq in Ht. subst t. simpl in Hq.
      destruct (requiresType fuel BooleanType cols params db tbl x) as [[[x1 p1] err]|] eqn:Hx;
        [|discriminate].
      injection Hq as _ _ ->. apply NotBoolExp_reducesTo; eauto.
    + destruct (SQLValueType_eqb t BooleanType) eqn:Ht; [|discriminate].
      apply SQLValueType_eqb_eq in Ht. subst t. simpl negb in Hq. cbv iota in Hq.
      destruct (inferType fuel cols params db tbl (CmpBoolExp op l r)) as [[[e1 p1] [t1|]]|] eqn:Hi;
        try discriminate.
      assert (Hr := IHi _ (CmpBoolExp op l r) _ _ _ Hp Hi).
      assert (t1 = BooleanType) as ->; [|exact Hr].
      clear -Hi. destruct fuel; [discriminate|]. cbn [inferType] in Hi.
      destruct (inferType fuel cols params db tbl l) as [[[l1 q1] [tleft|]]|]; try discriminate.
      destruct (inferType fuel cols q1 db tbl r) as [[[r1 q2] [tright|]]|]; try discriminate.
      destruct (SQLValueType_eqb tleft tright); [now injection Hi as _ _ <-|].
      destruct (negb (SQLValueType_eqb tleft AnyType) && negb (SQLValueType_eqb tright AnyType));
        [discriminate|].
      destruct (if SQLValueType_eqb tleft AnyType then _ else _) as [[[l2 q3] [e3|]]|];
        try discriminate.
      destruct (if SQLValueType_eqb tright AnyType then _ else _) as [[[r2 q4] [e4|]]|];
        try discriminate.
      now injection Hi as _ _ <-.
    + destruct (SQLValueType_eqb t BooleanType) eqn:Ht; [|discriminate].
      apply SQLValueType_eqb_eq in Ht. subst t. simpl in Hq.
      apply andb_prop in Hp as [Hpl Hpr].
      destruct (requireBoth _ params l r) as [[[[l1 r1] p1] err]|] eqn:Hb; [|discriminate].
      injection Hq as _ _ ->. apply requireBoth_ok in Hb as (p0 & Hl & Hr).
      apply BinBoolExp_reducesTo; eauto.
Qed.

(** X25: type inference returns, and it only writes types.  [inferType]
    and [requiresType] give a result on every expression (the recursion
    between the two ends), and the expression they leave differs from the
    one they got at most in the types of its [NULL] literals. *)
Theorem type_inference_returns (t : SQLValueType) (cols params : gmap string SQLValueType)
  (implicitDB implicitTable : string) (e : ValueExp) :
  (exists e' params' r,
     ValueExp_inferType cols params implicitDB implicitTable e = Some (e', params', r)
     /\ eraseNull e' = eraseNull e)
  /\ (exists e' params' err,
        ValueExp_requiresType t cols params implicitDB implicitTable e
        = Some (e', params', err)
        /\ eraseNull e' = eraseNull e).
Proof.
  destruct (typing_total (2 * depth e)) as [Hi Hr]. split.
  - apply Hi. lia.
  - apply Hr. lia.
Qed.

Lemma inferType_column_parameter (cols params : gmap string SQLValueType) (db tbl : string)
  (op : CmpOperator) (sel : ColSelector) (id : string) (pos : Z) (t : SQLValueType) :
  cols !! selectorKey sel db tbl = Some t -> t <> AnyType ->
  params !! id = None \/ params !! id = Some AnyType ->
  ValueExp_inferType cols params db tbl (CmpBoolExp op (Sel (ColSel sel)) (Param id pos))
  = Some (CmpBoolExp op (Sel (ColSel sel)) (Param id pos), <[id := t]> params,
          Ok BooleanType).
Proof.
  intros Hc Hany Hid. unfold ValueExp_inferType. simpl.
  unfold ColSelector_inferType. unfold selectorKey in Hc.
  destruct (ColSelector_resolve sel db tbl) as [[[aggFn db'] table] col] eqn:Hres.
  assert (aggFn = ""%string) as -> by (unfold ColSelector_resolve in Hres; congruence).
  rewrite Hc. unfold Param_inferType, Param_requiresType.
  destruct t; try contradiction;
    (destruct Hid as [Hid|Hid]; rewrite Hid; simpl;
     rewrite ?lookup_insert_eq, ?Hid; simpl; rewrite ?insert_insert_eq; reflexivity).
Qed.

(** X26: type inference keeps what it has inferred.  Whatever the result,
    a parameter that had a type before the call has one after it, the same
    unless it was [AnyType]; when the call succeeds every parameter of the
    expression has a type; and comparing a column with a parameter that
    has no type yet gives the parameter the type of the column. *)
Theorem type_inference_types_parameters (cols params : gmap string SQLValueType)
  (implicitDB implicitTable : string) (e : ValueExp) :
  (forall e' params' r,
     ValueExp_inferType cols params implicitDB implicitTable e = Some (e', params', r) ->
     keepsTypes params params' /\ (forall t, r = Ok t -> paramsTyped params' e))
  /\ (forall op sel id pos t,
        e = CmpBoolExp op (Sel (ColSel sel)) (Param id pos) ->
        cols !! selectorKey sel implicitDB implicitTable = Some t -> t <> AnyType ->
        params !! id = None \/ params !! id = Some AnyType ->
        ValueExp_inferType cols params implicitDB implicitTable e
        = Some (e, <[id := t]> params, Ok BooleanType)).
Proof.
  split.
  - intros e' params' r Hi. unfold ValueExp_inferType in Hi.
    destruct (typing_keeps (2 * depth e)) as [Hk _]. eapply Hk; eauto.
  - intros op sel id pos t -> Hc Hany Hid. now apply inferType_column_parameter.
Qed.

Lemma type_inference_types_parameters_witness :
  let cols : gmap string SQLValueType := {[EncodeSelector "" "db1" "t" "id" := IntegerType]} in
  let e := CmpBoolExp GE (Example.colRef "id") (Param "min" 1) in
  ValueExp_inferType cols ∅ "db1" "t" e = Some (e, {["min" := IntegerType]}, Ok BooleanType).
Proof.
  cbv zeta.
  destruct (type_inference_types_parameters {[EncodeSelector "" "db1" "t" "id" := IntegerType]}
              ∅ "db1" "t" (CmpBoolExp GE (Example.colRef "id") (Param "min" 1))) as [_ Hcol].
  apply (Hcol GE (mkColSelector "" "" "id" "") "min" 1%Z IntegerType).
  - reflexivity.
  - vm_compute. reflexivity.
  - discriminate.
  - left. reflexivity.
Defined.

(** X27: a well-typed expression reduces to a value of its type.  On a
    row that has a value of the described type, not [NULL], for every
    described column, an expression without parameter, [NULL] literal,
    aggregation or [LIKE] to which [inferType] gives type [t] reduces to a
    value of type [t] that is not [NULL]; the only error left is a division
    by zero. *)
Theorem well_typed_expression_reduces `{Externals} (catalog : option Catalog)
  (cols params params' : gmap string SQLValueType) (row : Row)
  (implicitDB implicitTable : string) (e e' : ValueExp) (t : SQLValueType) :
  rowOfTypes cols row ->
  plainExp e = true ->
  ValueExp_inferType cols params implicitDB implicitTable e = Some (e', params', Ok t) ->
  (exists v, reduce catalog (Some row) implicitDB implicitTable e = Ok v
             /\ Type_ v = t /\ isNullValue v = false)
  \/ reduce catalog (Some row) implicitDB implicitTable e = Fail ErrDivisionByZero.
Proof.
  intros Hrow Hp Hi.
  destruct (typing_sound catalog cols row implicitDB implicitTable (2 * depth e) Hrow)
    as [Hs _].
  exact (Hs _ _ _ _ _ Hp Hi).
Qed.

Lemma well_typed_expression_reduces_witness :
  let cols : gmap string SQLValueType := {[EncodeSelector "" "db1" "t" "id" := IntegerType]} in
  let row := Example.rowOf [("id", Number 7)] in
  let e := CmpBoolExp GT (NumExp ADDOP (Example.colRef "id") (Example.lit (Number 1)))
             (Example.lit (Number 3)) in
  (exists v, reduce (H := Example.externals) None (Some row) "db1" "t" e = Ok v
             /\ Type_ v = BooleanType /\ isNullValue v = false)
  \/ reduce (H := Example.externals) None (Some row) "db1" "t" e = Fail ErrDivisionByZero.
Proof.
  cbv zeta.
  apply (well_typed_expression_reduces (H := Example.externals) None
           {[EncodeSelector "" "db1" "t" "id" := IntegerType]} ∅ ∅
           (Example.rowOf [("id", Number 7)]) "db1" "t" _
           (CmpBoolExp GT (NumExp ADDOP (Example.colRef "id") (Example.lit (Number 1)))
              (Example.lit (Number 3)))).
  - intros k t Hk. apply lookup_singleton_Some in Hk as [<- <-].
    exists (Number 7). split; [vm_compute; reflexivity|]. split; reflexivity.
  - reflexivity.
  - vm_compute. reflexivity.
Defined.

(** ** The index a SELECT scans *)

Lemma firstSortable_spec (sortableUsing : Index -> N -> gmap N typedValueRange -> bool)
  colID ranges preferred idxs sortingIndex index :
  firstSortable sortableUsing colID ranges preferred idxs sortingIndex = Some index ->
  sortingIndex = Some index
  \/ (In index idxs /\ sortableUsing index colID ranges = true
      /\ forall p, preferred = Some p -> idx_id index = idx_id p).
Proof.
  induction idxs as [|idx idxs IH]; simpl; [now left|].
  destruct (sortableUsing idx colID ranges) eqn:Hs; simpl.
  - destruct preferred as [p|].
    + destruct (idx_id idx =? idx_id p)%N eqn:Hid.
      * intros [= <-]. right. split; [now left|]. split; [exact Hs|].
        intros p' [= <-]. now apply N.eqb_eq.
      * intros Hf. destruct (IH Hf) as [Hl|(Hin & Hso & Hp)]; [now left|].
        right. split; [now right|]. auto.
    + intros [= <-]. right. split; [now left|]. split; [exact Hs|]. discriminate.
  - intros Hf. destruct (IH Hf) as [Hl|(Hin & Hso & Hp)]; [now left|].
    right. split; [now right|]. auto.
Qed.

(** X28: the index and the order of the scan.  When [genScanSpecs] gives
    specs for a query on a table: the ranges are those of the [WHERE]
    clause; with [USE INDEX] the scanned index has the id of the index on
    the named columns; with [ORDER BY] the scanned index is one of the
    indexes of the ordering column, sortable by it under these ranges, and
    the direction is the one asked; without [ORDER BY] the scan is
    ascending, on the primary index unless [USE INDEX] names another. *)
Theorem genScanSpecs_index `{Externals}
  (indexOnColumns : Table -> list Column -> option Index)
  (sortableUsing : Index -> N -> gmap N typedValueRange -> bool)
  (stmt : SelectStmt) (tref : tableRef) (e : Engine) (implicitDB : option Database)
  (params : gmap string GoValue) (specs : ScanSpecs) :
  stmt_ds stmt = DSTableRef tref ->
  genScanSpecs indexOnColumns sortableUsing stmt e implicitDB params = Ok (Some specs) ->
  exists table,
    referencedTable tref e implicitDB = Ok table
    /\ match stmt_where stmt with
       | Some w => selectorRanges w table (tableRef_Alias tref) params ∅
                   = Ok (ss_rangesByColID specs)
       | None => ss_rangesByColID specs = ∅
       end
    /\ (stmt_indexOn stmt <> [] ->
        exists cols preferred,
          columnsNamed table (stmt_indexOn stmt) = Ok cols
          /\ indexOnColumns table cols = Some preferred
          /\ idx_id (ss_index specs) = idx_id preferred)
    /\ match stmt_orderBy stmt with
       | Some ords =>
           exists ord rest col,
             ords = ord :: rest
             /\ GetColumnByName table (cs_col (oc_sel ord)) = Ok col
             /\ In (ss_index specs) (default [] (indexesByColID table !! col_id col))
             /\ sortableUsing (ss_index specs) (col_id col) (ss_rangesByColID specs) = true
             /\ ss_descOrder specs = descOrder ord
       | None =>
           ss_descOrder specs = false
           /\ (stmt_indexOn stmt = [] -> ss_index specs = primaryIndex table)
       end.
Proof.
  unfold genScanSpecs. intros -> Hg.
  destruct (referencedTable tref e implicitDB) as [table|]; simpl in Hg; [|discriminate].
  exists table. split; [reflexivity|].
  destruct (match stmt_where stmt with
            | Some w => selectorRanges w table (tableRef_Alias tref) params ∅
            | None => Ok ∅
            end) as [ranges|] eqn:Hw; simpl in Hg; [|discriminate].
  match type of Hg with
  | bind ?p _ = _ => destruct p as [preferred|] eqn:Hp; simpl in Hg; [|discriminate]
  end.
  match type of Hg with
  | bind ?p _ = _ => destruct p as [[sorting desc]|] eqn:Hs; simpl in Hg; [|discriminate]
  end.
  destruct sorting as [index|]; [|discriminate]. injection Hg as <-. simpl.
  assert (Hpref : forall p, preferred = Some p ->
            exists cols, columnsNamed table (stmt_indexOn stmt) = Ok cols
                         /\ indexOnColumns table cols = Some p).
  { intros p ->. destruct (0 <? length (stmt_indexOn stmt))%nat; [|discriminate].
    destruct (columnsNamed table (stmt_indexOn stmt)) as [cols|]; simpl in Hp; [|discriminate].
    destruct (indexOnColumns table cols) as [i|] eqn:Hi; [|discriminate].
    injection Hp as ->. eauto. }
  assert (Hnone : stmt_indexOn stmt = [] -> preferred = None).
  { intros Hnil. rewrite Hnil in Hp. simpl in Hp. congruence. }
  assert (Hsome : stmt_indexOn stmt <> [] -> exists p, preferred = Some p).
  { intros Hne. destruct (stmt_indexOn stmt) as [|c cs] eqn:Hio; [contradiction|].
    simpl in Hp. destruct preferred as [p|]; [eauto|].
    destruct (GetColumnByName table c); simpl in Hp; [|discriminate].
    destruct (columnsNamed table cs); simpl in Hp; [|discriminate].
    destruct (indexOnColumns table _); discriminate. }
  split; [destruct (stmt_where stmt); [exact Hw | congruence]|].
  destruct (stmt_orderBy stmt) as [[|ord rest]|] eqn:Ho.
  - discriminate.
  - destruct (GetColumnByName table (cs_col (oc_sel ord))) as [col|] eqn:Hcol; simpl in Hs;
      [|discriminate].
    injection Hs as Hf <-.
    apply firstSortable_spec in Hf as [Hf|(Hin & Hso & Hid)]; [discriminate|].
    split.
    + intros Hne. destruct (Hsome Hne) as [p ->].
      destruct (Hpref p eq_refl) as (cols & Hc & Hi). exists cols, p. auto.
    + exists ord, rest, col. auto.
  - injection Hs as Hf <-. split.
    + intros Hne. destruct (Hsome Hne) as [p ->].
      destruct (Hpref p eq_refl) as (cols & Hc & Hi). exists cols, p.
      injection Hf as <-. auto.
    + split; [reflexivity|]. intros Hnil. rewrite (Hnone Hnil) in Hf. congruence.
Qed.

Lemma genScanSpecs_index_witness :
  let stmt := mkSelectStmt false [] (DSTableRef Example.tref) [] [] None None None 0
                (Some [mkOrdCol (mkColSelector "" "" "tag" "") true]) "" in
  exists specs,
    genScanSpecs (H := Example.externals) (fun _ _ => None) (fun _ _ _ => true) stmt
      Example.taggedEngine (Some (Example.database Example.tagged)) ∅ = Ok (Some specs)
    /\ ss_descOrder specs = true
    /\ In (ss_index specs) [mkIndex 1 false [Example.c_tag]].
Proof.
  cbv zeta.
  destruct (genScanSpecs (H := Example.externals) (fun _ _ => None) (fun _ _ _ => true)
              (mkSelectStmt false [] (DSTableRef Example.tref) [] [] None None None 0
                 (Some [mkOrdCol (mkColSelector "" "" "tag" "") true]) "")
              Example.taggedEngine (Some (Example.database Example.tagged)) ∅)
    as [[specs|]|] eqn:Hg; [|vm_compute in Hg; discriminate Hg..].
  exists specs. split; [reflexivity|].
  destruct (genScanSpecs_index (H := Example.externals) (fun _ _ => None) (fun _ _ _ => true)
              (mkSelectStmt false [] (DSTableRef Example.tref) [] [] None None None 0
                 (Some [mkOrdCol (mkColSelector "" "" "tag" "") true]) "")
              Example.tref Example.taggedEngine (Some (Example.database Example.tagged)) ∅
              specs eq_refl Hg)
    as (table & Href & _ & _ & ord & rest & col & Hords & Hcol & Hin & _ & Hdesc).
  vm_compute in Href. injection Href as <-.
  injection Hords as <- <-. vm_compute in Hcol. injection Hcol as <-.
  split; [exact Hdesc | exact Hin].
Defined.

(** ** The keys of a row *)

Lemma append_sep_inj (c : ascii) (s1 s2 r1 r2 : string) :
  occurs c s1 = false -> occurs c s2 = false ->
  s1 +:+ String c r1 = s2 +:+ String c r2 -> s1 = s2 /\ r1 = r2.
Proof.
  revert s2. induction s1 as [|a s1 IH]; intros [|b s2]; simpl; intros H1 H2 He.
  - injection He as <-. auto.
  - injection He as <- _. rewrite Ascii.eqb_refl in H2. discriminate.
  - injection He as -> _. rewrite Ascii.eqb_refl in H1. discriminate.
  - injection He as <- He. apply orb_false_elim in H1 as [_ H1], H2 as [_ H2].
    destruct (IH s2 H1 H2 He) as [-> ->]. auto.
Qed.

Lemma length_append (s t : string) :
  String.length (s +:+ t) = String.length s + String.length t.
Proof. induction s as [|a s IH]; simpl; [reflexivity | now rewrite IH]. Qed.

Lemma append_inj_l (s s' t : string) : s +:+ t = s' +:+ t -> s = s'.
Proof.
  revert s'. induction s as [|a s IH]; intros [|b s']; simpl; intros He.
  - reflexivity.
  - exfalso. apply (f_equal String.length) in He.
    rewrite (length_append "" t), (length_append (String b s') t) in He. simpl in He. lia.
  - exfalso. apply (f_equal String.length) in He.
    rewrite (length_append "" t), (length_append (String a s) t) in He. simpl in He. lia.
  - injection He as <- He. now rewrite (IH s' He).
Qed.

Lemma wordString_occurs (c : ascii) (s : string) :
  wordByte (byte_of_ascii c) = false -> wordString s = true -> occurs c s = false.
Proof.
  intros Hc. unfold wordString, list_byte_of_string.
  induction s as [|a s IH]; simpl; [reflexivity|].
  intros Hw. apply andb_prop in Hw as [Ha Hs]. rewrite (IH Hs), orb_false_r.
  destruct (Ascii.eqb a c) eqn:Hac; [|reflexivity].
  apply Ascii.eqb_eq in Hac. subst a. congruence.
Qed.

(** X29: the key of a selector identifies it.  For names made of the
    bytes of the lexer's words (letters, digits, underscore), two selectors
    with the same encoding have the same aggregation, database, table and
    column: no two columns of a row share a key. *)
Theorem EncodeSelector_injective (aggFn db table col aggFn' db' table' col' : string) :
  wordString aggFn = true -> wordString aggFn' = true ->
  wordString db = true -> wordString db' = true ->
  wordString table = true -> wordString table' = true ->
  EncodeSelector aggFn db table col = EncodeSelector aggFn' db' table' col' ->
  aggFn = aggFn' /\ db = db' /\ table = table' /\ col = col'.
Proof.
  intros Ha Ha' Hd Hd' Ht Ht' He. unfold EncodeSelector in He.
  change ("(" +:+ ?x)%string with (String "(" x) in He.
  apply append_sep_inj in He as [-> He];
    try (apply wordString_occurs; [reflexivity | assumption]).
  change ("." +:+ ?x)%string with (String "." x) in He.
  apply append_sep_inj in He as [-> He];
    try (apply wordString_occurs; [reflexivity | assumption]).
  apply append_sep_inj in He as [-> He];
    try (apply wordString_occurs; [reflexivity | assumption]).
  apply append_inj_l in He. auto.
Qed.

Lemma EncodeSelector_injective_witness :
  EncodeSelector "COUNT" "db1" "t" "id" = "COUNT(db1.t.id)"%string
  /\ (COUNT = "COUNT" /\ "db1" = "db1" /\ "t" = "t" /\ "id" = "id")%string.
Proof.
  split; [reflexivity|].
  apply (EncodeSelector_injective COUNT "db1" "t" "id" "COUNT" "db1" "t" "id"); reflexivity.
Defined.

(** ** Local connections *)

Lemma Split_first (s : string) :
  exists first pieces,
    Auth.Split s = first :: pieces /\ occurs ":" first = false /\ hasHost first s.
Proof.
  induction s as [|c s (first & pieces & Hs & Ho & Hh)]; simpl.
  - exists EmptyString, []. repeat split. now left.
  - destruct (Ascii.eqb c ":") eqn:Hc.
    + apply Ascii.eqb_eq in Hc. subst c.
      exists EmptyString, (Auth.Split s). repeat split. right. exists s. reflexivity.
    + rewrite Hs. exists (String c first), pieces. split; [reflexivity|]. split.
      * simpl. now rewrite Hc, Ho.
      * destruct Hh as [->|[rest ->]]; [now left|]. right. exists rest. reflexivity.
Qed.

Lemma hasHost_unique (h1 h2 addr : string) :
  occurs ":" h1 = false -> occurs ":" h2 = false ->
  hasHost h1 addr -> hasHost h2 addr -> h1 = h2.
Proof.
  intros H1 H2 [->|[r1 ->]] [Hb|[r2 Hb]].
  - now symmetry.
  - exfalso. rewrite Hb in H1. clear -H1. induction h2; simpl in *; [discriminate|].
    apply orb_false_elim in H1 as [_ H1]. auto.
  - exfalso. rewrite <- Hb in H2. clear -H2. induction h1; simpl in *; [discriminate|].
    apply orb_false_elim in H2 as [_ H2]. auto.
  - now destruct (append_sep_inj _ _ _ _ _ H1 H2 Hb).
Qed.

(** X30: who passes as a local client.  [isLocalClient] never indexes an
    empty slice; it accepts exactly the peers whose address is
    [127.0.0.1] or [bufconn], alone or followed by a colon and anything,
    and denies every other call with the same status, the ones without a
    peer included. *)
Theorem isLocalClient_accepts_local_hosts (p : option Auth.Peer) (ok : bool) :
  (Auth.isLocalClient p ok = Auth.Accepted <->
   ok = true
   /\ exists peer, p = Some peer
        /\ (hasHost "127.0.0.1" (Auth.Addr peer) \/ hasHost "bufconn" (Auth.Addr peer)))
  /\ (Auth.isLocalClient p ok = Auth.Accepted
      \/ Auth.isLocalClient p ok
         = Auth.PermissionDenied "server only accepts local connections").
Proof.
  unfold Auth.isLocalClient.
  destruct ok; [|split; [split; [discriminate|intros [[=] _]] | now right]].
  destruct p as [peer|];
    [|split; [split; [discriminate|intros (_ & q & [=] & _)] | now right]].
  destruct (Split_first (Auth.Addr peer)) as (first & pieces & -> & Ho & Hh).
  cbn [length Nat.ltb Nat.leb andb].
  split.
  - split.
    + intros Hacc. split; [reflexivity|]. exists peer. split; [reflexivity|].
      destruct (String.eqb first "127.0.0.1") eqn:H1.
      * apply String.eqb_eq in H1. subst first. now left.
      * destruct (String.eqb first "bufconn") eqn:H2; [|discriminate].
        apply String.eqb_eq in H2. subst first. now right.
    + intros (_ & q & [= <-] & [Hl|Hl]).
      * rewrite (hasHost_unique first "127.0.0.1" _ Ho eq_refl Hh Hl). reflexivity.
      * rewrite (hasHost_unique first "bufconn" _ Ho eq_refl Hh Hl). reflexivity.
  - destruct (String.eqb first "127.0.0.1" || String.eqb first "bufconn"); auto.
Qed.

Lemma isLocalClient_accepts_local_hosts_witness :
  Auth.isLocalClient (Some (Auth.mkPeer "127.0.0.1:3322")) true = Auth.Accepted
  /\ Auth.isLocalClient (Some (Auth.mkPeer "[::1]:3322")) true
     = Auth.PermissionDenied "server only accepts local connections".
Proof.
  split.
  - apply (isLocalClient_accepts_local_hosts (Some (Auth.mkPeer "127.0.0.1:3322")) true).
    split; [reflexivity|]. exists (Auth.mkPeer "127.0.0.1:3322"). split; [reflexivity|].
    left. right. exists "3322"%string. reflexivity.
  - destruct (isLocalClient_accepts_local_hosts (Some (Auth.mkPeer "[::1]:3322")) true)
      as [_ [Hacc|Hden]]; [vm_compute in Hacc; discriminate Hacc | exact Hden].
Defined.
